(** * spider-crawl: the crawl scheduler, the tab pool and what is built on them

    A shallow embedding of the two stateful classes of the repository,
    [SpiderCrawl] (modules/spider_crawl) and [PuppeteerController]
    (controllers/puppeteer_controller), with the properties their
    specification states about them; and, around them, of the page fetcher
    [WebCrawl] (modules/web_crawl), the search scraper with its walkers of
    the document (modules/search_engine_scraper, utils) and the three POST
    routes (routes/), with the properties the code shows.

    Conventions of the embedding.
    - A method that may throw returns a [completion]; a method of a class is
      a computation [state -> completion A * state], so that the writes made
      before a [throw] survive the [catch], as they do in JavaScript.
    - An [async] method runs without interruption between two [await]s.  A
      method is split at its [await] where the interleaving matters
      ([processUrl]); otherwise one call is one step.
    - What lies outside the repository is a parameter: the platform's [URL]
      class ([URLApi]), the order in which the fetches of a batch settle
      and, where the scheduler is studied alone, the page fetcher ([Env]),
      the browser ([Browser], the list of its open pages), what the calls
      on the browser and on a page of the pool answer and what the pool has
      become when a waiting caller looks again ([World]), and what a page
      answers to the calls made on it ([PageWorld], [SearchPageWorld]).
    - A number that a caller passes is a rational ([number]); [NaN] and the
      infinities are left out.  Sizes, depths and times are integers.
    - A string is the sequence of its code units, each below 256; the query
      of the search route, which [encodeURIComponent] refuses when a
      surrogate stands alone in it, is the list of its UTF-16 code units.
    - An options object is the record of its own properties, each absent or
      present, and if present possibly [undefined]
      ([SpiderCrawlOptions.argument]): the spread over the defaults lets
      every present property win.
    - A loop without a bound of its own is given a number of turns that is
      enough for it to end. *)

From Stdlib Require Import ZArith String Ascii List Lia Permutation Bool.
From Stdlib Require Import QArith_base Qround.
From stdpp Require Import base option list strings gmap.

Local Close Scope Q_scope.
Local Open Scope string_scope.
Local Open Scope Z_scope.

(** ** Completions: a value, or a thrown [Error] with its message *)

Inductive completion (A : Type) : Type :=
| Normal (a : A)
| Throw (message : string).

Arguments Normal {A} a.
Arguments Throw {A} message.

Definition is_normal {A} (c : completion A) : bool :=
  match c with Normal _ => true | Throw _ => false end.

(** A computation over the fields [S] of an object.  The state is returned
    in both cases. *)
Definition method (S A : Type) : Type := S -> completion A * S.

Definition ret {S A} (a : A) : method S A := fun s => (Normal a, s).

Definition throw {S A} (message : string) : method S A := fun s => (Throw message, s).

Definition bind {S A B} (m : method S A) (k : A -> method S B) : method S B :=
  fun s => match m s with
           | (Normal a, s') => k a s'
           | (Throw e, s') => (Throw e, s')
           end.

(** [try { m } catch (error) { handler error.message }] *)
Definition try_catch {S A} (m : method S A) (handler : string -> method S A) : method S A :=
  fun s => match m s with
           | (Normal a, s') => (Normal a, s')
           | (Throw e, s') => handler e s'
           end.

Definition lift {S A} (c : completion A) : method S A := fun s => (c, s).

Definition gets {S A} (f : S -> A) : method S A := fun s => (Normal (f s), s).

Definition modify {S} (f : S -> S) : method S unit := fun s => (Normal tt, f s).

Declare Scope method_scope.
Delimit Scope method_scope with method.
Notation "'let!' x ':=' m 'in' k" := (bind m (fun x => k))
  (at level 10, x name, m at level 100, k at level 200) : method_scope.
Notation "'do!' m 'in' k" := (bind m (fun _ => k))
  (at level 10, m at level 100, k at level 200) : method_scope.

(** [for (const x of xs) { body x }]: the loop stops at the first throw. *)
Fixpoint for_of {S A} (xs : list A) (body : A -> method S unit) : method S unit :=
  match xs with
  | [] => ret tt
  | x :: xs' => bind (body x) (fun _ => for_of xs' body)
  end.

(** ** Strings *)

(** [s.includes(pattern)] *)
Fixpoint includes (s pattern : string) : bool :=
  String.prefix pattern s
  || match s with
     | EmptyString => false
     | String _ s' => includes s' pattern
     end.

Definition is_slash (c : ascii) : bool := Ascii.eqb c "/"%char.

Definition starts_with_slash (s : string) : bool :=
  match s with
  | String c _ => is_slash c
  | EmptyString => false
  end.

(** [s.replace(/\/+/g, '/')]: every maximal run of slashes becomes one
    slash.  A slash that is followed by a slash is dropped, which keeps the
    last slash of each run. *)
Fixpoint replace_slash_runs (s : string) : string :=
  match s with
  | EmptyString => EmptyString
  | String c s' =>
      if is_slash c && starts_with_slash s' then replace_slash_runs s'
      else String c (replace_slash_runs s')
  end.

(** No two slashes in a row. *)
Fixpoint no_slash_run (s : string) : bool :=
  match s with
  | EmptyString => true
  | String c s' => negb (is_slash c && starts_with_slash s') && no_slash_run s'
  end.


(** ** The platform's URL class

    [new URL(s)] throws a [TypeError] when [s] does not parse.  The setters
    mutate the object; here they return the updated object. *)

Class URLApi (U : Type) : Type := {
  URL_new : string -> completion U;
  URL_hostname : U -> string;
  URL_pathname : U -> string;
  URL_set_hash : string -> U -> U;
  URL_set_pathname : string -> U -> U;
  URL_toString : U -> string
}.

(** ** [Map<K, V>]: keys are unique, iteration follows insertion order *)

Section JSMap.
Context {K V : Type} `{EqDecision K}.

Definition JSMap : Type := list (K * V).

Definition Map_keys (m : JSMap) : list K := map fst m.

Definition Map_values (m : JSMap) : list V := map snd m.

Definition Map_size (m : JSMap) : nat := length m.

Fixpoint Map_get (k : K) (m : JSMap) : option V :=
  match m with
  | [] => None
  | (k', v) :: m' => if decide (k' = k) then Some v else Map_get k m'
  end.

Definition Map_has (k : K) (m : JSMap) : bool := bool_decide (is_Some (Map_get k m)).

(** [m.set(k, v)]: an existing key keeps its place, a new key goes last. *)
Fixpoint Map_set (k : K) (v : V) (m : JSMap) : JSMap :=
  match m with
  | [] => [(k, v)]
  | (k', v') :: m' => if decide (k' = k) then (k, v) :: m' else (k', v') :: Map_set k v m'
  end.

Fixpoint Map_delete (k : K) (m : JSMap) : JSMap :=
  match m with
  | [] => []
  | (k', v') :: m' => if decide (k' = k) then m' else (k', v') :: Map_delete k m'
  end.

End JSMap.

Arguments JSMap K V : clear implicits.

(** ** Data of the crawler (types/index) *)

Module LinkData.
Record t : Type := {
  url : string;
  text : string;
  title : option string;
  isInternal : bool
}.
End LinkData.

(** What [webCrawl.crawl(url, { format: 'crawl-links' })] resolves to: the
    fields the spider reads.  [data] is [None] for [undefined]; an array,
    empty or not, is truthy. *)
Module CrawlResult.
Record t : Type := {
  success : bool;
  data : option (list LinkData.t);
  error : option string
}.
End CrawlResult.

(** A number of the options is a finite number, an integer or not; it is
    held as a rational.  ([NaN] is falsy and reads as the default wherever
    the crawler reads a number; an infinite bound is no bound, and a run
    without a bound on the depth and on the pages need not end: such
    options are left out.) *)
Definition number : Type := Q.

Module SpiderCrawlOptions.
(** The options as the crawler reads them: the value of each property,
    [None] when it is [undefined] (or [null]). *)
Record t : Type := {
  maxDepth : option number;
  maxPages : option number;
  sameDomain : option bool;
  excludePatterns : option (list string);
  includePatterns : option (list string);
  delay : option number
}.

(** The options object a caller passes.  A property is absent ([None]) or
    present with its value; a property that is present may be [undefined]
    (or [null]): [Some None]. *)
Record argument : Type := {
  own_maxDepth : option (option number);
  own_maxPages : option (option number);
  own_sameDomain : option (option bool);
  own_excludePatterns : option (option (list string));
  own_includePatterns : option (option (list string));
  own_delay : option (option number)
}.

(** [{ ...defaults, ...options }]: a property that [options] has wins,
    whatever its value. *)
Definition override {A} (own : option (option A)) (d : option A) : option A :=
  match own with
  | Some value => value
  | None => d
  end.

Definition spread (defaults : t) (options : argument) : t :=
  {| maxDepth := override (own_maxDepth options) (maxDepth defaults);
     maxPages := override (own_maxPages options) (maxPages defaults);
     sameDomain := override (own_sameDomain options) (sameDomain defaults);
     excludePatterns := override (own_excludePatterns options) (excludePatterns defaults);
     includePatterns := override (own_includePatterns options) (includePatterns defaults);
     delay := override (own_delay options) (delay defaults) |}.

Definition defaultOptions : t :=
  {| maxDepth := Some (inject_Z 3);
     maxPages := Some (inject_Z 100);
     sameDomain := Some true;
     excludePatterns :=
       Some ["mailto:"; "tel:"; "javascript:"; "#"; ".pdf"; ".doc"; ".docx";
             ".xls"; ".xlsx"; ".zip"; ".rar"]%string;
     includePatterns := Some [];
     delay := Some (inject_Z 1000) |}.

(** No option given: [options: SpiderCrawlOptions = {}]. *)
Definition empty : argument :=
  {| own_maxDepth := None; own_maxPages := None; own_sameDomain := None;
     own_excludePatterns := None; own_includePatterns := None; own_delay := None |}.
End SpiderCrawlOptions.

Module SpiderCrawlResult.
Record t : Type := {
  success : bool;
  linkMap : JSMap string (list LinkData.t);
  totalPages : nat;
  totalLinks : nat;
  error : option string;
  baseUrl : string
}.
End SpiderCrawlResult.

(** [n || d] on an optional number: [undefined] and [0] are falsy. *)
Definition number_or (n : option number) (d : Z) : number :=
  match n with
  | Some v => if Qeq_bool v (inject_Z 0) then inject_Z d else v
  | None => inject_Z d
  end.

(** [size >= n] and [depth < n], an integer against a number. *)
Definition at_least (size : Z) (n : number) : bool := Qle_bool n (inject_Z size).

Definition is_below (depth : Z) (n : number) : bool := negb (Qle_bool n (inject_Z depth)).

(** Truthiness of an optional boolean. *)
Definition truthy (b : option bool) : bool :=
  match b with
  | Some v => v
  | None => false
  end.

(** ** The crawler (modules/spider_crawl) *)

(** The two effects of [processUrl] whose order the specification speaks
    of, in the order in which they happen. *)
Inductive event : Type :=
| Added (url : string)      (* this.visitedUrls.add(url) *)
| Fetched (url : string).   (* webCrawl.crawl(url, ...) is called *)

(** The fields of a [SpiderCrawl], and the trace of its effects. *)
Record SpiderCrawl : Type := {
  visitedUrls : gset string;
  linkMap : JSMap string (list LinkData.t);
  queue : list string;
  isProcessing : bool;
  trace : list event
}.

Definition new_SpiderCrawl : SpiderCrawl :=
  {| visitedUrls := ∅; linkMap := []; queue := []; isProcessing := false; trace := [] |}.

(** The world a run meets: what each fetch resolves to (or that it rejects),
    and, per depth, the order in which the fetches in flight settle. *)
Record Env : Type := {
  webCrawl_crawl : string -> completion CrawlResult.t;
  settle_order : Z -> list string -> list string
}.

(** Every fetch in flight settles, once. *)
Definition settles_all (env : Env) : Prop :=
  forall depth urls, Permutation (settle_order env depth urls) urls.

Section SpiderCrawl.
Context {U : Type} `{URLApi U} (env : Env).

Import SpiderCrawlOptions.

Definition normalizeUrl (url : string) : completion string :=
  match URL_new url with
  | Normal urlObj =>
      (* Remove fragments *)
      let urlObj := URL_set_hash "" urlObj in
      (* Normalize path *)
      let urlObj := URL_set_pathname (replace_slash_runs (URL_pathname urlObj)) urlObj in
      Normal (URL_toString urlObj)
  | Throw _ => Normal url
  end.

Definition shouldProcessUrl (url : string) (baseUrlObj : U) (options : SpiderCrawlOptions.t)
    (this : SpiderCrawl) : bool :=
  (* Skip if already visited *)
  if bool_decide (url ∈ visitedUrls this) then false
  else
    match URL_new url with
    | Normal urlObj =>
        (* Check domain restriction *)
        if truthy (sameDomain options)
           && negb (String.eqb (URL_hostname urlObj) (URL_hostname baseUrlObj))
        then false
        (* Check exclude patterns *)
        else if existsb (includes url) (default [] (excludePatterns options)) then false
        (* Check include patterns *)
        else if (0 <? Z.of_nat (length (default [] (includePatterns options))))
                && negb (existsb (includes url) (default [] (includePatterns options)))
        then false
        else true
    | Throw _ => false
    end.

(** [processUrl] up to its [await]: the gate, the insertion, the call of
    the fetcher.  The result tells whether a fetch is now in flight. *)
Definition processUrl_begin (url : string) (options : SpiderCrawlOptions.t)
    : method SpiderCrawl bool :=
  fun this =>
    (* Skip if already visited or max pages reached *)
    if bool_decide (url ∈ visitedUrls this)
       || at_least (Z.of_nat (size (visitedUrls this))) (number_or (maxPages options) 100)
    then (Normal false, this)
    else
      (Normal true,
       {| visitedUrls := visitedUrls this ∪ {[url]};
          linkMap := linkMap this;
          queue := queue this;
          isProcessing := isProcessing this;
          trace := trace this ++ [Added url; Fetched url] |}).

Definition linkMap_set (url : string) (links : list LinkData.t) (this : SpiderCrawl)
    : SpiderCrawl :=
  {| visitedUrls := visitedUrls this;
     linkMap := Map_set url links (linkMap this);
     queue := queue this;
     isProcessing := isProcessing this;
     trace := trace this |}.

Definition queue_push (url : string) (this : SpiderCrawl) : SpiderCrawl :=
  {| visitedUrls := visitedUrls this;
     linkMap := linkMap this;
     queue := queue this ++ [url];
     isProcessing := isProcessing this;
     trace := trace this |}.

Definition queue_clear (this : SpiderCrawl) : SpiderCrawl :=
  {| visitedUrls := visitedUrls this;
     linkMap := linkMap this;
     queue := [];
     isProcessing := isProcessing this;
     trace := trace this |}.

(** [processUrl] from its [await] on, given what the awaited promise
    settled to. *)
Definition processUrl_resume (url : string) (baseUrlObj : U)
    (options : SpiderCrawlOptions.t) (awaited : completion CrawlResult.t)
    : method SpiderCrawl unit :=
  try_catch
    (let! result := lift awaited in
     match CrawlResult.success result, CrawlResult.data result with
     | true, Some links =>
         do! modify (linkMap_set url links) in
         (* Add new URLs to queue *)
         for_of links (fun link =>
           let! newUrl := lift (normalizeUrl (LinkData.url link)) in
           let! wanted := gets (shouldProcessUrl newUrl baseUrlObj options) in
           if wanted : bool then modify (queue_push newUrl) else ret tt)
     | _, _ => ret tt
     end)%method
    (fun _ => ret tt).

(** The links of a fetched page that [processUrl] pushes on the queue, in
    their order, as a function of the state the links are met in. *)
Definition admitted_links (links : list LinkData.t) (baseUrlObj : U)
    (options : SpiderCrawlOptions.t) (this : SpiderCrawl) : list string :=
  flat_map (fun link =>
              match normalizeUrl (LinkData.url link) with
              | Normal newUrl =>
                  if shouldProcessUrl newUrl baseUrlObj options this then [newUrl] else []
              | Throw _ => []
              end) links.

Definition with_queue (q : list string) (this : SpiderCrawl) : SpiderCrawl :=
  {| visitedUrls := visitedUrls this; linkMap := linkMap this; queue := q;
     isProcessing := isProcessing this; trace := trace this |}.

(** One call of [processUrl] from its first line to its last, when nothing
    else runs in between. *)
Definition processUrl (url : string) (baseUrlObj : U) (options : SpiderCrawlOptions.t)
    : method SpiderCrawl unit :=
  (let! dispatched := processUrl_begin url options in
   if dispatched : bool
   then processUrl_resume url baseUrlObj options (webCrawl_crawl env url)
   else ret tt)%method.

(** [currentBatch.map(url => this.processUrl(...))]: each call runs to its
    [await] before the next one starts.  The result lists the URLs whose
    fetch is in flight. *)
Fixpoint begin_batch (batch : list string) (options : SpiderCrawlOptions.t)
    : method SpiderCrawl (list string) :=
  match batch with
  | [] => ret []
  | url :: batch' =>
      (let! dispatched := processUrl_begin url options in
       let! inFlight := begin_batch batch' options in
       ret (if dispatched : bool then url :: inFlight else inFlight))%method
  end.

(** One turn of the loop of [processQueue]: the batch is dispatched, then
    [await Promise.all(promises)] lets every fetch in flight settle and its
    [processUrl] finish. *)
Definition processBatch (depth : Z) (currentBatch : list string) (baseUrlObj : U)
    (options : SpiderCrawlOptions.t) : method SpiderCrawl unit :=
  (let! inFlight := begin_batch currentBatch options in
   for_of (settle_order env depth inFlight) (fun url =>
     processUrl_resume url baseUrlObj options (webCrawl_crawl env url)))%method.

(** [while (this.queue.length > 0 && depth < maxDepth)].  [depth] grows by
    one per turn from 0, so the loop takes as many turns as there are
    integers from [depth] on that are below [maxDepth], and no more;
    [turns] counts them down. *)
Fixpoint processQueue_loop (turns : nat) (depth : Z) (maxDepth : number) (baseUrlObj : U)
    (options : SpiderCrawlOptions.t) : method SpiderCrawl unit :=
  match turns with
  | O => ret tt
  | S turns' =>
      fun this =>
        if (0 <? Z.of_nat (length (queue this))) && is_below depth maxDepth then
          (let currentBatch := queue this in
           do! modify queue_clear in
           do! processBatch depth currentBatch baseUrlObj options in
           (* depth++; the delay between batches changes no field *)
           processQueue_loop turns' (depth + 1) maxDepth baseUrlObj options)%method this
        else (Normal tt, this)
  end.

Definition processQueue (baseUrlObj : U) (options : SpiderCrawlOptions.t)
    : method SpiderCrawl unit :=
  let maxDepth := number_or (SpiderCrawlOptions.maxDepth options) 3 in
  processQueue_loop (Z.to_nat (Qceiling maxDepth)) 0 maxDepth baseUrlObj options.

Definition getTotalLinks (this : SpiderCrawl) : nat :=
  fold_left (fun total links => (total + length links)%nat) (Map_values (linkMap this)) 0%nat.

(** [visitedUrls.clear(); linkMap.clear(); queue = []; isProcessing = false] *)
Definition reset (this : SpiderCrawl) : SpiderCrawl :=
  {| visitedUrls := ∅; linkMap := []; queue := []; isProcessing := false;
     trace := [] |}.

Definition crawl (url : string) (options : SpiderCrawlOptions.argument)
    : method SpiderCrawl SpiderCrawlResult.t :=
  try_catch
    ((* Reset state *)
     do! modify reset in
     (* Validate and normalize URL *)
     let! baseUrl := lift (normalizeUrl url) in
     let! baseUrlObj := lift (URL_new baseUrl) in
     let finalOptions := spread defaultOptions options in
     (* Start crawling *)
     do! modify (queue_push baseUrl) in
     do! processQueue baseUrlObj finalOptions in
     let! this := gets id in
     ret {| SpiderCrawlResult.success := true;
            SpiderCrawlResult.linkMap := linkMap this;
            SpiderCrawlResult.totalPages := size (visitedUrls this);
            SpiderCrawlResult.totalLinks := getTotalLinks this;
            SpiderCrawlResult.error := None;
            SpiderCrawlResult.baseUrl := baseUrl |})%method
    (fun message =>
       ret {| SpiderCrawlResult.success := false;
              SpiderCrawlResult.linkMap := [];
              SpiderCrawlResult.totalPages := 0;
              SpiderCrawlResult.totalLinks := 0;
              SpiderCrawlResult.error := Some message;
              SpiderCrawlResult.baseUrl := url |}).

(** [getInternalLinks] and [getExternalLinks]: one loop over the link map,
    told apart by the filter. *)
Definition filtered_links (keep : LinkData.t -> bool) (this : SpiderCrawl)
    : JSMap string (list LinkData.t) :=
  fold_left
    (fun filteredMap '(url, links) =>
       let kept := List.filter keep links in
       if (0 <? Z.of_nat (length kept)) then Map_set url kept filteredMap else filteredMap)
    (linkMap this) [].

Definition getInternalLinks (this : SpiderCrawl) : JSMap string (list LinkData.t) :=
  filtered_links (fun link => LinkData.isInternal link) this.

Definition getExternalLinks (this : SpiderCrawl) : JSMap string (list LinkData.t) :=
  filtered_links (fun link => negb (LinkData.isInternal link)) this.

End SpiderCrawl.

(** ** The tab pool (controllers/puppeteer_controller) *)

Module TabInfo.
Record t : Type := {
  id : string;
  url : string;
  inUse : bool;
  createdAt : Z;
  lastUsed : Z
}.
End TabInfo.

(** An open page of the browser: its identity, what [page.url()] returns at
    present, and the tab ids its ['close'] listeners delete from the table
    (one listener per [createNewTab] that registered the page). *)
Record Page : Type := {
  page_id : nat;
  page_url : string;
  on_close : list string
}.

(** The browser: [browser.pages()], in the browser's order. *)
Record Browser : Type := {
  pages : list Page
}.

(** What the outside answers when the controller asks, at one time:
    - the time [new Date()] reads;
    - what [puppeteer.launch] settles to;
    - whether [browser.pages()] resolves (to the pages of the browser);
    - the page that [browser.newPage()] opens, or its rejection;
    - how the configuration of a new page ends: [page.setViewport],
      [page.setUserAgent] and [page.setRequestInterception] (each is
      awaited, and each can reject);
    - whether [page.close()] of an open page resolves. *)
Record Answers : Type := {
  clock : Z;
  puppeteer_launch : completion Browser;
  browser_pages : completion unit;
  browser_newPage : completion Page;
  page_setViewport : completion unit;
  page_setUserAgent : completion unit;
  page_setRequestInterception : completion unit;
  page_close : completion unit
}.

(** The outside of one call: its answers when the call is made, and, for
    a call that has to wait for a tab, what each poll of the wait finds,
    up to the timeout: the answers at that time, and the pool, browser and
    table, as it is by then.  Between two polls the other callers of the
    pool release, close and acquire; a poll that finds no tab starts a wait
    of its own, whose polls are polls of this list too. *)
Record World : Type := {
  answers :> Answers;
  polls : option Browser -> JSMap string TabInfo.t
          -> list (Answers * (option Browser * JSMap string TabInfo.t))
}.

Module PuppeteerController.

(** The fields.  [isInitializing] and [initializationPromise] are set and
    reset inside one call of [initialize]; between two calls, where this
    model looks at the object, they are [false] and [null]. *)
Record t : Type := {
  browser : option Browser;
  tabs : JSMap string TabInfo.t;
  maxTabs : Z
}.

(** [new PuppeteerController(config)]: [maxTabs: config.maxTabs || 10].
    The capacity is read in one place, [this.tabs.size < this.config.maxTabs]:
    a size is below a number exactly if it is below the least integer that
    is not below the number ([is_below_ceiling]), and that integer is what
    the field holds. *)
Definition new (config_maxTabs : option number) : t :=
  {| browser := None; tabs := []; maxTabs := Qceiling (number_or config_maxTabs 10) |}.

Definition with_browser (b : option Browser) (this : t) : t :=
  {| browser := b; tabs := tabs this; maxTabs := maxTabs this |}.

Definition with_tabs (m : JSMap string TabInfo.t) (this : t) : t :=
  {| browser := browser this; tabs := m; maxTabs := maxTabs this |}.

(** [page.goto(url)], done by the holder of a page (modules/web_crawl):
    from then on [page.url()] is [url]. *)
Definition navigate_page (pid : nat) (url : string) (p : Page) : Page :=
  if Nat.eqb (page_id p) pid
  then {| page_id := page_id p; page_url := url; on_close := on_close p |}
  else p.

Definition goto (pid : nat) (url : string) (this : t) : t :=
  match browser this with
  | Some b => with_browser (Some {| pages := map (navigate_page pid url) (pages b) |}) this
  | None => this
  end.

Definition initialize (w : Answers) : method t unit :=
  fun this =>
    match browser this with
    | Some _ => (Normal tt, this)
    | None =>
        match puppeteer_launch w with
        | Normal b => (Normal tt, with_browser (Some b) this)
        | Throw message => (Throw ("Browser initialization failed: " ++ message), this)
        end
    end.

(** The configuration of a new page: the viewport and the user agent,
    which the constructor always sets, and the request interception.
    Setting the default timeout and adding a listener do not fail. *)
Definition configure (w : Answers) : completion unit :=
  match page_setViewport w with
  | Throw message => Throw message
  | Normal _ =>
      match page_setUserAgent w with
      | Throw message => Throw message
      | Normal _ => page_setRequestInterception w
      end
  end.

(** A page that [newPage] has opened is a page of the browser, whether or
    not its configuration succeeds; it is registered only if it does. *)
Definition createNewTab (w : Answers) : method t Page :=
  fun this =>
    match browser this with
    | None => (Throw "Browser not initialized", this)
    | Some b =>
        match browser_newPage w with
        | Throw message => (Throw message, this)
        | Normal page =>
            match configure w with
            | Throw message =>
                (Throw message, with_browser (Some {| pages := pages b ++ [page] |}) this)
            | Normal _ =>
                let tabId := page_url page in
                let tabInfo :=
                  {| TabInfo.id := tabId; TabInfo.url := tabId; TabInfo.inUse := true;
                     TabInfo.createdAt := clock w; TabInfo.lastUsed := clock w |} in
                (* page.on('close', () => this.tabs.delete(tabId)) *)
                let page :=
                  {| page_id := page_id page; page_url := page_url page;
                     on_close := on_close page ++ [tabId] |} in
                (Normal page,
                 {| browser := Some {| pages := pages b ++ [page] |};
                    tabs := Map_set tabId tabInfo (tabs this);
                    maxTabs := maxTabs this |})
            end
        end
    end.

Definition mark_inUse (now : Z) (tabInfo : TabInfo.t) : TabInfo.t :=
  {| TabInfo.id := TabInfo.id tabInfo; TabInfo.url := TabInfo.url tabInfo;
     TabInfo.inUse := true;
     TabInfo.createdAt := TabInfo.createdAt tabInfo; TabInfo.lastUsed := now |}.

Definition mark_idle (now : Z) (tabInfo : TabInfo.t) : TabInfo.t :=
  {| TabInfo.id := TabInfo.id tabInfo; TabInfo.url := TabInfo.url tabInfo;
     TabInfo.inUse := false;
     TabInfo.createdAt := TabInfo.createdAt tabInfo; TabInfo.lastUsed := now |}.

(** The first entry, in the table's order, that is not in use. *)
Definition first_idle (m : JSMap string TabInfo.t) : option (string * TabInfo.t) :=
  List.find (fun entry => negb (TabInfo.inUse (snd entry))) m.

(** [pages.find(page => page.url() === url)] *)
Definition find_page (url : string) (b : Browser) : option Page :=
  List.find (fun page => String.eqb (page_url page) url) (pages b).

(** What one pass through [getTab] comes to: a page, or the wait for one. *)
Inductive acquired : Type :=
| Got (page : Page)
| MustWait.

(** [getTab] down to its last line, where it hands over to
    [waitForAvailableTab]. *)
Definition getTab_once (w : Answers) : method t acquired :=
  (do! initialize w in
   fun this =>
     match browser this with
     | None => (Throw "Browser not initialized", this)
     | Some b =>
         (* Check for available tabs *)
         match first_idle (tabs this) with
         | Some (tabId, tabInfo) =>
             let this := with_tabs (Map_set tabId (mark_inUse (clock w) tabInfo) (tabs this)) this in
             match browser_pages w with
             | Throw message => (Throw message, this)
             | Normal _ =>
                 match find_page (TabInfo.url tabInfo) b with
                 | Some page => (Normal (Got page), this)
                 | None => (let! page := createNewTab w in ret (Got page)) this
                 end
             end
         | None =>
             (* Check if we can create a new tab *)
             if Z.of_nat (Map_size (tabs this)) <? maxTabs this
             then (let! page := createNewTab w in ret (Got page)) this
             (* Wait for a tab to become available *)
             else (Normal MustWait, this)
         end
     end)%method.

(** The polls of a wait: [getTab] is tried again, on the pool as the poll
    finds it; the first poll that obtains a page resolves the wait with it,
    a failure of a poll is swallowed, and when the 30 s are over the wait
    rejects. *)
Fixpoint poll (found : list (Answers * (option Browser * JSMap string TabInfo.t)))
    : method t Page :=
  fun this =>
    match found with
    | [] => (Throw "Timeout waiting for available tab", this)
    | (w, (b, m)) :: later =>
        match getTab_once w {| browser := b; tabs := m; maxTabs := maxTabs this |} with
        | (Normal (Got page), this') => (Normal page, this')
        | (Normal MustWait, this') => poll later this'
        | (Throw _, this') => poll later this'
        end
    end.

Definition waitForAvailableTab (w : World) : method t Page :=
  fun this => poll (polls w (browser this) (tabs this)) this.

(** 30000 ms / 100 ms: the polls of one wait. *)
Definition polls_before_timeout : nat := 300.

Definition getTab (w : World) : method t Page :=
  (let! outcome := getTab_once w in
   match outcome with
   | Got page => ret page
   | MustWait => waitForAvailableTab w
   end)%method.

(** [releaseTab(page)]; [page] is the page as the browser shows it at the
    time of the call. *)
Definition releaseTab (now : Z) (page : Page) (this : t) : t :=
  let tabId := page_url page in
  match Map_get tabId (tabs this) with
  | Some tabInfo => with_tabs (Map_set tabId (mark_idle now tabInfo) (tabs this)) this
  | None => this
  end.

(** [page.close()].  For a page that the browser has, the world decides
    whether the call resolves: if it does, the page leaves the browser and
    its ['close'] listeners run; if it rejects, nothing has changed.  For a
    page that the browser has no more, the call rejects, and no listener
    runs a second time. *)
Definition close_page (w : World) (page : Page) : method t unit :=
  fun this =>
    match browser this with
    | Some b =>
        match List.find (fun p => Nat.eqb (page_id p) (page_id page)) (pages b) with
        | Some open =>
            match page_close w with
            | Normal _ =>
                (Normal tt,
                 {| browser :=
                      Some {| pages := List.filter
                                         (fun p => negb (Nat.eqb (page_id p) (page_id page)))
                                         (pages b) |};
                    tabs := fold_left (fun m tabId => Map_delete tabId m) (on_close open)
                                      (tabs this);
                    maxTabs := maxTabs this |})
            | Throw message => (Throw message, this)
            end
        | None => (Throw "Protocol error: Connection closed.", this)
        end
    | None => (Throw "Protocol error: Connection closed.", this)
    end.

(** [closeTab(page)]: the entry under the URL the page shows is deleted,
    then the page is closed; a rejection of [page.close()] is caught. *)
Definition closeTab (w : World) (page : Page) (this : t) : t :=
  let tabId := page_url page in
  snd (try_catch (close_page w page) (fun _ => ret tt)
         (with_tabs (Map_delete tabId (tabs this)) this)).

Definition getTabStats (this : t) : nat * nat * nat :=
  let total := Map_size (tabs this) in
  let inUse := length (List.filter TabInfo.inUse (Map_values (tabs this))) in
  (total, inUse, (total - inUse)%nat).

(** The test of [cleanupOldTabs] on one entry. *)
Definition idle_and_old (now : Z) (maxAge : number) (tabInfo : TabInfo.t) : bool :=
  negb (TabInfo.inUse tabInfo)
  && negb (Qle_bool (inject_Z (now - TabInfo.lastUsed tabInfo)) maxAge).

(** The body of the loop of [cleanupOldTabs].  The loop runs over the live
    table: an entry deleted before its turn is not visited.  A rejection
    of [browser.pages()] is not caught: it ends the loop and the call. *)
Definition cleanup_entry (w : World) (now : Z) (maxAge : number) (entry : string * TabInfo.t)
    : method t unit :=
  fun this =>
    let '(tabId, tabInfo) := entry in
    if Map_has tabId (tabs this) && idle_and_old now maxAge tabInfo then
      match browser this with
      | Some b =>
          match browser_pages w with
          | Throw message => (Throw message, this)
          | Normal _ =>
              match find_page tabId b with
              | Some page => (Normal tt, closeTab w page this)
              | None => (Normal tt, this)
              end
          end
      | None => (Normal tt, this)
      end
    else (Normal tt, this).

(** [cleanupOldTabs(maxAgeMinutes = 30)] *)
Definition cleanupOldTabs (w : World) (now : Z) (maxAgeMinutes : option number)
    : method t unit :=
  fun this =>
    let maxAge :=
      Qmult (Qmult (default (inject_Z 30) maxAgeMinutes) (inject_Z 60)) (inject_Z 1000) in
    for_of (tabs this) (cleanup_entry w now maxAge) this.

Definition handleBrowserDisconnect (this : t) : t :=
  {| browser := None; tabs := []; maxTabs := maxTabs this |}.

(** [close()]: [browser.close()] may throw, the [finally] runs all the
    same. *)
Definition close (this : t) : t :=
  match browser this with
  | Some _ => {| browser := None; tabs := []; maxTabs := maxTabs this |}
  | None => this
  end.

End PuppeteerController.

(** ** A reference implementation of the URL interface

    [http://host/path#fragment], without port, query or credentials, and
    [scheme:path#fragment], for a scheme of lower-case letters other than
    [http] and a path that does not begin with a slash: a URL with an
    opaque path, such as [mailto:me], which has no host and ignores
    assignments to its [pathname].  Enough of a URL class to run the
    crawler on examples, and to show that what is assumed of the platform's
    class below can hold. *)

Module HttpURL.

(** [opaque] is the scheme of a URL with an opaque path, and [None] for an
    [http] URL. *)
Record t : Type := {
  opaque : option string;
  host : string;
  path : string;
  fragment : option string
}.

Fixpoint has_char (c : ascii) (s : string) : bool :=
  match s with
  | EmptyString => false
  | String a s' => Ascii.eqb a c || has_char c s'
  end.

(** The text before the first [c], and the text after it if there is a [c]. *)
Fixpoint split_at (c : ascii) (s : string) : string * option string :=
  match s with
  | EmptyString => (EmptyString, None)
  | String a s' =>
      if Ascii.eqb a c then (EmptyString, Some s')
      else let '(before, after) := split_at c s' in (String a before, after)
  end.

Fixpoint strip_prefix (p s : string) : option string :=
  match p, s with
  | EmptyString, _ => Some s
  | String a p', String b s' => if Ascii.eqb a b then strip_prefix p' s' else None
  | String _ _, EmptyString => None
  end.

Definition is_lower (c : ascii) : bool :=
  (97 <=? nat_of_ascii c)%nat && (nat_of_ascii c <=? 122)%nat.

Fixpoint all_lower (s : string) : bool :=
  match s with
  | EmptyString => true
  | String c s' => is_lower c && all_lower s'
  end.

(** A scheme of the opaque kind. *)
Definition is_scheme (s : string) : bool :=
  negb (String.eqb s "") && all_lower s && negb (String.eqb s "http").

Definition parse (s : string) : completion t :=
  let '(main, frag) := split_at "#" s in
  match strip_prefix "http://" main with
  | Some rest =>
      let '(h, p) := split_at "/" rest in
      if String.eqb h "" then Throw "Invalid URL"
      else Normal {| opaque := None; host := h; path := String "/" (default "" p);
                     fragment := frag |}
  | None =>
      match split_at ":" main with
      | (scheme, Some p) =>
          if is_scheme scheme && negb (starts_with_slash p)
          then Normal {| opaque := Some scheme; host := ""; path := p; fragment := frag |}
          else Throw "Invalid URL"
      | (_, None) => Throw "Invalid URL"
      end
  end.

Definition set_hash (v : string) (u : t) : t :=
  {| opaque := opaque u; host := host u; path := path u;
     fragment := if String.eqb v "" then None else Some v |}.

(** In a path a [#] is percent-encoded. *)
Fixpoint encode_hash (s : string) : string :=
  match s with
  | EmptyString => EmptyString
  | String c s' =>
      if Ascii.eqb c "#" then String "%" (String "2" (String "3" (encode_hash s')))
      else String c (encode_hash s')
  end.

(** An opaque path stays as it is.  Any other path is parsed anew: it is
    encoded, and it starts with a slash. *)
Definition set_pathname (p : string) (u : t) : t :=
  match opaque u with
  | Some _ => u
  | None =>
      let p := encode_hash p in
      {| opaque := None;
         host := host u;
         path := if starts_with_slash p then p else String "/" p;
         fragment := fragment u |}
  end.

Definition toString (u : t) : string :=
  match opaque u with
  | Some scheme => scheme ++ ":"
  | None => "http://" ++ host u
  end
  ++ path u
  ++ match fragment u with
     | Some f => String "#" f
     | None => ""
     end.

Definition api : URLApi t :=
  {| URL_new := parse;
     URL_hostname := host;
     URL_pathname := path;
     URL_set_hash := set_hash;
     URL_set_pathname := set_pathname;
     URL_toString := toString |}.

(** What every object of the class satisfies. *)
Definition well_formed (u : t) : Prop :=
  has_char "#" (path u) = false
  /\ match opaque u with
     | None =>
         host u <> "" /\ has_char "/" (host u) = false /\ has_char "#" (host u) = false
         /\ starts_with_slash (path u) = true
     | Some scheme =>
         is_scheme scheme = true /\ host u = "" /\ starts_with_slash (path u) = false
     end.

End HttpURL.

(** ** Vocabulary of the statements *)

(** [pattern] occurs in [s]. *)
Definition is_substring (pattern s : string) : Prop :=
  exists before after, s = before ++ pattern ++ after.

Section Vocabulary.
Context {U : Type} `{URLApi U}.

(** The values the crawler can hold as URL objects: what the constructor
    returns, and what the two assignments of [normalizeUrl] make of them,
    [hash = ''] and [pathname = pathname.replace(/\/+/g, '/')]. *)
Inductive URL_object : U -> Prop :=
| URL_object_new s u : URL_new s = Normal u -> URL_object u
| URL_object_clear_hash u : URL_object u -> URL_object (URL_set_hash "" u)
| URL_object_collapse u :
    URL_object u ->
    URL_object (URL_set_pathname (replace_slash_runs (URL_pathname u)) u).

(** What the properties of [normalizeUrl] need of the platform's class:
    five facts about the URL class of the URL Standard, each about the URL
    objects that the crawler can hold.
    - [URL_reparse]: the serialization of a URL object parses, to that
      object.
    - [URL_no_fragment]: once [hash] was assigned the empty string, the
      serialization has no [#], also after the assignment to [pathname]:
      it has no fragment, and a [#] elsewhere is percent-encoded.
    - [URL_clear_hash_again]: after that, assigning the empty string to
      [hash] again changes nothing.
    - [URL_set_own_pathname]: assigning to [pathname] the value it has
      changes nothing.
    - [URL_set_collapsed_pathname]: assigning to [pathname] its value with
      the slash runs collapsed either changes nothing, which is what a URL
      with an opaque path does with every assignment to its [pathname], or
      leaves a [pathname] without slash runs.  (It need not be the assigned
      string: of [file:////C|/y] the assigned [/C|/y] reads back as
      [/C:/y].) *)
Class URLLaws : Prop := {
  URL_reparse : forall u, URL_object u -> URL_new (URL_toString u) = Normal u;
  URL_no_fragment : forall u, URL_object u ->
    let cleared := URL_set_hash "" u in
    let final := URL_set_pathname (replace_slash_runs (URL_pathname cleared)) cleared in
    includes (URL_toString final) "#" = false;
  URL_clear_hash_again : forall u, URL_object u ->
    let cleared := URL_set_hash "" u in
    let final := URL_set_pathname (replace_slash_runs (URL_pathname cleared)) cleared in
    URL_set_hash "" final = final;
  URL_set_own_pathname : forall u, URL_object u ->
    URL_set_pathname (URL_pathname u) u = u;
  URL_set_collapsed_pathname : forall u, URL_object u ->
    let p := replace_slash_runs (URL_pathname u) in
    URL_set_pathname p u = u \/ no_slash_run (URL_pathname (URL_set_pathname p u)) = true
}.

(** The admission rule of the frontier in the specification's words: not
    visited, parses, on the start URL's host unless the restriction is off,
    no exclude pattern occurs in it, and an include pattern does if there
    is any. *)
Definition admissible (url : string) (baseUrlObj : U) (options : SpiderCrawlOptions.t)
    (visited : gset string) : Prop :=
  (url ∉ visited)
  /\ exists urlObj, URL_new url = Normal urlObj
     /\ (truthy (SpiderCrawlOptions.sameDomain options) = false
         \/ URL_hostname urlObj = URL_hostname baseUrlObj)
     /\ (forall pattern, In pattern (default [] (SpiderCrawlOptions.excludePatterns options)) ->
           ~ is_substring pattern url)
     /\ (default [] (SpiderCrawlOptions.includePatterns options) = []
         \/ exists pattern, In pattern (default [] (SpiderCrawlOptions.includePatterns options))
                            /\ is_substring pattern url).

End Vocabulary.

Arguments URLLaws U {_}.

(** The fetch of [url] yields links: the promise resolves, with [success]
    and with [data]. *)
Definition fetch_ok (env : Env) (url : string) : bool :=
  match webCrawl_crawl env url with
  | Normal result =>
      CrawlResult.success result && bool_decide (is_Some (CrawlResult.data result))
  | Throw _ => false
  end.

(** The links the fetch of [url] yields; none if the fetch fails. *)
Definition page_links (env : Env) (url : string) : list LinkData.t :=
  match webCrawl_crawl env url with
  | Normal result =>
      if CrawlResult.success result then default [] (CrawlResult.data result) else []
  | Throw _ => []
  end.

(** The page budget: the number of URLs at which the gate of [processUrl]
    closes, which is the least integer that is not below
    [options.maxPages || 100]. *)
Definition page_budget (options : SpiderCrawlOptions.t) : Z :=
  Qceiling (number_or (SpiderCrawlOptions.maxPages options) 100).

(** The trace of a run that visits [urls] in this order: every insertion is
    followed at once by the fetch of the same URL. *)
Definition trace_of (urls : list string) : list event :=
  flat_map (fun url => [Added url; Fetched url]) urls.

(** What [crawl] returns from its [catch]. *)
Definition failed_result (url message : string) : SpiderCrawlResult.t :=
  {| SpiderCrawlResult.success := false;
     SpiderCrawlResult.linkMap := [];
     SpiderCrawlResult.totalPages := 0;
     SpiderCrawlResult.totalLinks := 0;
     SpiderCrawlResult.error := Some message;
     SpiderCrawlResult.baseUrl := url |}.

(** The dedup gate at work: the trace is one insertion and one fetch per
    visited URL, the insertion first; the URLs of the trace are pairwise
    distinct and they are the visited set; the link map has no key twice; and
    the visited set is within the page budget. *)
Definition dedup_invariant (options : SpiderCrawlOptions.t) (this : SpiderCrawl) : Prop :=
  (exists urls, NoDup urls /\ trace this = trace_of urls
                /\ visitedUrls this = list_to_set urls)
  /\ NoDup (Map_keys (linkMap this))
  /\ Z.of_nat (size (visitedUrls this)) <= Z.max 0 (page_budget options).

(** The link map has an entry for the visited URLs whose fetch yielded
    links, and for no other URL. *)
Definition links_invariant (env : Env) (this : SpiderCrawl) : Prop :=
  forall url, url ∈ Map_keys (linkMap this)
              <-> url ∈ visitedUrls this /\ fetch_ok env url = true.

(** ** Example worlds *)

Definition link_to (url : string) : LinkData.t :=
  {| LinkData.url := url; LinkData.text := "a"; LinkData.title := None;
     LinkData.isInternal := true |}.

Definition page_with (links : list LinkData.t) : completion CrawlResult.t :=
  Normal {| CrawlResult.success := true; CrawlResult.data := Some links;
            CrawlResult.error := None |}.

Definition fetch_failure (message : string) : completion CrawlResult.t :=
  Normal {| CrawlResult.success := false; CrawlResult.data := None;
            CrawlResult.error := Some message |}.

(** A site of three pages; the fetch of [/a] fails.  The fetches of a batch
    settle in the reverse of the order in which they were dispatched. *)
Definition small_site : Env :=
  {| webCrawl_crawl := fun url =>
       if String.eqb url "http://example.com/" then
         page_with [link_to "http://example.com/a"; link_to "http://example.com//b#top";
                    link_to "http://other.org/"; link_to "mailto:me"]
       else if String.eqb url "http://example.com/a" then fetch_failure "net::ERR_FAILED"
       else page_with [link_to "http://example.com/"];
     settle_order := fun _ urls => rev urls |}.

(** A world in which no page can be fetched. *)
Definition unreachable_site : Env :=
  {| webCrawl_crawl := fun _ => fetch_failure "net::ERR_FAILED";
     settle_order := fun _ urls => urls |}.

(** The browser as puppeteer starts it: one blank page, and every page
    that [newPage] opens is blank.  [chrome now n] is the outside at time
    [now] when the next page to open has the identity [n], every call of
    the browser and of its pages succeeds, and no other caller touches the
    pool: each poll of a wait finds the pool as the wait began. *)
Definition blank_page (n : nat) : Page :=
  {| page_id := n; page_url := "about:blank"; on_close := [] |}.

Definition chrome_answers (now : Z) (n : nat) : Answers :=
  {| clock := now;
     puppeteer_launch := Normal {| pages := [blank_page 0] |};
     browser_pages := Normal tt;
     browser_newPage := Normal (blank_page n);
     page_setViewport := Normal tt;
     page_setUserAgent := Normal tt;
     page_setRequestInterception := Normal tt;
     page_close := Normal tt |}.

Definition chrome (now : Z) (n : nat) : World :=
  {| answers := chrome_answers now n;
     polls := fun b m =>
       map (fun k => (chrome_answers (now + 100 * Z.of_nat k) n, (b, m)))
           (seq 1 PuppeteerController.polls_before_timeout) |}.

(** The page with identity [pid] as the browser shows it now. *)
Definition page_now (pid : nat) (this : PuppeteerController.t) : option Page :=
  match PuppeteerController.browser this with
  | Some b => List.find (fun page => Nat.eqb (page_id page) pid) (pages b)
  | None => None
  end.

(** What [web_crawl] does with the pool for one URL, when the navigation
    succeeds: [getTab], [page.goto(url)], and [releaseTab] in the
    [finally]. *)
Definition fetch_with_pool (w : World) (url : string) (released_at : Z)
    (this : PuppeteerController.t) : completion Page * PuppeteerController.t :=
  match PuppeteerController.getTab w this with
  | (Normal page, this) =>
      let this := PuppeteerController.goto (page_id page) url this in
      match page_now (page_id page) this with
      | Some page => (Normal page, PuppeteerController.releaseTab released_at page this)
      | None => (Normal page, this)
      end
  | (Throw message, this) => (Throw message, this)
  end.

(** A pool of capacity one after one such fetch. *)
Definition pool_after_one_fetch : PuppeteerController.t :=
  snd (fetch_with_pool (chrome 0 1) "https://example.com/" 1000
         (PuppeteerController.new (Some (inject_Z 1)))).

(** A pool of capacity one whose tab is in use, and the outside of a
    caller that waits for it while the holder of the tab releases it: the
    first poll finds the pool as the wait began, the second finds the tab
    idle. *)
Definition saturated_pool : PuppeteerController.t :=
  snd (PuppeteerController.getTab (chrome 0 1) (PuppeteerController.new (Some (inject_Z 1)))).

Definition chrome_while_released (now : Z) (n : nat) (released_at : Z) : World :=
  {| answers := chrome_answers now n;
     polls := fun b m =>
       [(chrome_answers (now + 100) n, (b, m));
        (chrome_answers (now + 200) n,
         (b, PuppeteerController.tabs
               (PuppeteerController.releaseTab released_at (blank_page 1)
                  {| PuppeteerController.browser := b; PuppeteerController.tabs := m;
                     PuppeteerController.maxTabs := 1 |})))] |}.

(** A pool whose only tab was released while its page was blank. *)
Definition pool_with_idle_tab : PuppeteerController.t :=
  PuppeteerController.releaseTab 1000 (blank_page 1)
    (snd (PuppeteerController.getTab (chrome 0 1) (PuppeteerController.new None))).

(** A pool whose only tab was released twice while its pages were still
    blank (their navigations had timed out), and whose pages then arrived:
    the tab is idle, and no page of the browser is at the tab's id. *)
Definition pool_with_stale_tab : PuppeteerController.t :=
  let this := PuppeteerController.new None in
  let '(first, this) := PuppeteerController.getTab (chrome 0 1) this in
  let this := PuppeteerController.releaseTab 1000 (blank_page 1) this in
  let '(second, this) := PuppeteerController.getTab (chrome 2000 2) this in
  let this := PuppeteerController.releaseTab 3000 (blank_page 0) this in
  let this := PuppeteerController.goto 0 "https://example.com/" this in
  PuppeteerController.goto 1 "https://example.com/a" this.

(** A crawler after a run over two pages: the links of [/docs] are all
    external. *)
Definition after_two_pages : SpiderCrawl :=
  {| visitedUrls := {["http://example.com/"; "http://example.com/docs"]};
     linkMap :=
       [("http://example.com/",
         [link_to "http://example.com/docs";
          {| LinkData.url := "http://other.org/"; LinkData.text := "other";
             LinkData.title := None; LinkData.isInternal := false |}]);
        ("http://example.com/docs",
         [{| LinkData.url := "http://other.org/manual"; LinkData.text := "manual";
             LinkData.title := None; LinkData.isInternal := false |}])];
     queue := [];
     isProcessing := false;
     trace := trace_of ["http://example.com/"; "http://example.com/docs"] |}.

(** ** The crawler's reports (modules/spider_crawl) *)

(** A plain object used as a dictionary ([Record<string, V>]), by its own
    properties.  [o[k] = v] defines or overwrites the own property [k],
    save for the key [__proto__]: every object inherits that name as an
    accessor, and the assignment calls the setter (an array becomes the
    prototype of [o]) and defines no own property.  The object is the
    finite map of its own properties. *)
Definition Object_set {V : Type} (k : string) (v : V) (o : gmap string V) : gmap string V :=
  if decide (k = "__proto__") then o else <[k := v]> o.

Module Stats.
(** What [getStats] returns.  [averageLinksPerPage] is the quotient of two
    integers; the number the code holds is the double nearest to it. *)
Record t : Type := {
  visitedUrls : nat;
  totalLinks : nat;
  uniqueDomains : gset string;
  averageLinksPerPage : QArith_base.Q
}.
End Stats.

Section SpiderCrawlReports.
Context {U : Type} `{URLApi U}.

(** The loop of [getStats] over the visited set. *)
Definition uniqueDomains (this : SpiderCrawl) : gset string :=
  fold_left
    (fun domains url =>
       match URL_new url with
       | Normal urlObj => domains ∪ {[URL_hostname urlObj]}
       | Throw _ => domains (* Skip invalid URLs *)
       end)
    (elements (visitedUrls this)) ∅.

Definition getStats (this : SpiderCrawl) : Stats.t :=
  let averageLinksPerPage :=
    if (0 <? Z.of_nat (size (visitedUrls this)))
    then QArith_base.Qmake (Z.of_nat (getTotalLinks this)) (Pos.of_nat (size (visitedUrls this)))
    else QArith_base.Qmake 0 1 in
  {| Stats.visitedUrls := size (visitedUrls this);
     Stats.totalLinks := getTotalLinks this;
     Stats.uniqueDomains := uniqueDomains this;
     Stats.averageLinksPerPage := averageLinksPerPage |}.

Definition exportLinkMap (this : SpiderCrawl) : gmap string (list LinkData.t) :=
  fold_left (fun exportData '(url, links) => Object_set url links exportData)
            (linkMap this) ∅.

End SpiderCrawlReports.

(** ** Vocabulary of the statements about a whole run *)

(** The number of links a link map holds. *)
Definition count_links (m : JSMap string (list LinkData.t)) : nat :=
  list_sum (map (fun entry => length (snd entry)) m).

(** The depth at which the loop of [processQueue] stops: the least integer
    that is not below [options.maxDepth || 3]. *)
Definition depth_limit (options : SpiderCrawlOptions.t) : Z :=
  Qceiling (number_or (SpiderCrawlOptions.maxDepth options) 3).

Section Reach.
Context {U : Type} `{URLApi U} (env : Env).

(** [crawl_path baseUrl baseUrlObj options n page]: [page] is [n] links away
    from the start URL, each link being one that the fetch of the page
    before yields and whose normalized target passes the filters of
    [shouldProcessUrl] (it parses, it is on the start URL's host unless the
    restriction is off, no exclude pattern occurs in it and an include
    pattern does if there is any). *)
Inductive crawl_path (baseUrl : string) (baseUrlObj : U) (options : SpiderCrawlOptions.t)
    : nat -> string -> Prop :=
| crawl_path_start : crawl_path baseUrl baseUrlObj options 0 baseUrl
| crawl_path_link n page link newUrl :
    crawl_path baseUrl baseUrlObj options n page ->
    link ∈ page_links env page ->
    normalizeUrl (LinkData.url link) = Normal newUrl ->
    admissible newUrl baseUrlObj options ∅ ->
    crawl_path baseUrl baseUrlObj options (S n) newUrl.

End Reach.

(** ** Vocabulary of the statements about the pool *)

(** [handed_out page this]: [page] is an open page of the browser, and the
    table has a tab in use whose URL is the URL the page shows. *)
Definition handed_out (page : Page) (this : PuppeteerController.t) : Prop :=
  exists b tabId tabInfo,
    PuppeteerController.browser this = Some b
    /\ page ∈ pages b
    /\ Map_get tabId (PuppeteerController.tabs this) = Some tabInfo
    /\ TabInfo.inUse tabInfo = true
    /\ TabInfo.url tabInfo = page_url page.

(** A world in which the browser does not start. *)
Definition no_chrome (now : Z) : World :=
  {| answers :=
       {| clock := now;
          puppeteer_launch := Throw "Failed to launch the browser process";
          browser_pages := Throw "Protocol error";
          browser_newPage := Throw "Protocol error";
          page_setViewport := Throw "Protocol error";
          page_setUserAgent := Throw "Protocol error";
          page_setRequestInterception := Throw "Protocol error";
          page_close := Throw "Protocol error" |};
     polls := fun _ _ => [] |}.

(** ** Fetching one page (modules/web_crawl)

    A string is read as its sequence of UTF-16 code units, each below 256.
    The white space among these code units, for [\s] and for [trim] alike,
    is TAB, LF, VT, FF, CR, SPACE and NO-BREAK SPACE. *)

Definition is_white_space (c : ascii) : bool :=
  let n := nat_of_ascii c in
  ((9 <=? n) && (n <=? 13))%nat || (n =? 32)%nat || (n =? 160)%nat.

Definition is_line_feed (c : ascii) : bool := (nat_of_ascii c =? 10)%nat.

Definition starts_with_white_space (s : string) : bool :=
  match s with
  | String c _ => is_white_space c
  | EmptyString => false
  end.

(** [s.replace(/\s+/g, ' ')]: every maximal run of white space becomes one
    space. *)
Fixpoint replace_white_space_runs (s : string) : string :=
  match s with
  | EmptyString => EmptyString
  | String c s' =>
      if is_white_space c then
        if starts_with_white_space s' then replace_white_space_runs s'
        else String " " (replace_white_space_runs s')
      else String c (replace_white_space_runs s')
  end.

(** [\s*\n] matched greedily at the head of [s]: what follows the last line
    feed of the white space that [s] starts with, if this white space has a
    line feed. *)
Fixpoint after_blank_lines (s : string) : option string :=
  match s with
  | EmptyString => None
  | String c s' =>
      if is_white_space c then
        match after_blank_lines s' with
        | Some rest => Some rest
        | None => if is_line_feed c then Some s' else None
        end
      else None
  end.

(** [s.replace(/\n\s*\n/g, '\n')], scanning from the left; a match is
    replaced and the scan goes on behind it.  [fuel] bounds the scan; the
    length of [s] is enough. *)
Fixpoint replace_blank_lines_from (fuel : nat) (s : string) : string :=
  match fuel with
  | O => s
  | S fuel' =>
      match s with
      | EmptyString => EmptyString
      | String c s' =>
          if is_line_feed c then
            match after_blank_lines s' with
            | Some rest => String c (replace_blank_lines_from fuel' rest)
            | None => String c (replace_blank_lines_from fuel' s')
            end
          else String c (replace_blank_lines_from fuel' s')
      end
  end.

Definition replace_blank_lines (s : string) : string :=
  replace_blank_lines_from (String.length s) s.

Fixpoint trimStart (s : string) : string :=
  match s with
  | EmptyString => EmptyString
  | String c s' => if is_white_space c then trimStart s' else s
  end.

(** [s.trimEnd()]: a character stays if it is no white space or if
    something stays behind it. *)
Fixpoint trimEnd (s : string) : string :=
  match s with
  | EmptyString => EmptyString
  | String c s' =>
      let kept := trimEnd s' in
      if is_white_space c && String.eqb kept "" then EmptyString else String c kept
  end.

(** [s.trim()] *)
Definition trim (s : string) : string := trimEnd (trimStart s).

(** [s || d] on strings: the empty string is falsy. *)
Definition string_or (s d : string) : string :=
  if String.eqb s "" then d else s.

Module ImageData.
Record t : Type := {
  src : string;
  alt : string;
  title : option string;
  width : option Z;
  height : option Z
}.
End ImageData.

Module LLMTextData.
Record t : Type := {
  text : string;
  links : list (string * string);
  images : list (string * string);
  sources : list (string * string);
  references : list (string * string)
}.
End LLMTextData.

Module CrawlOptions.
Record t : Type := {
  format : string;
  timeout : option number;
  waitForSelector : option string;
  userAgent : option string;
  viewport : option (number * number);
  ignoreAds : option bool
}.

(** [{ format: 'crawl-links' }], the options of the spider. *)
Definition crawl_links : t :=
  {| format := "crawl-links"; timeout := None; waitForSelector := None;
     userAgent := None; viewport := None; ignoreAds := None |}.
End CrawlOptions.

(** An [a[href]] element as the page reports it: [href] is the resolved
    URL, [textContent] may be [null]. *)
Module Anchor.
Record t : Type := {
  href : string;
  textContent : option string;
  title : string
}.
End Anchor.

(** The [data] of a result, by format. *)
Inductive CrawlData : Type :=
| TextData (text : string)
| LLMText (data : LLMTextData.t)
| Screenshot (base64 : string)
| Html (content : string)
| Links (links : list LinkData.t)
| Images (images : list ImageData.t).

Module WebCrawlResult.
Record t : Type := {
  success : bool;
  data : option CrawlData;
  error : option string;
  url : string;
  timestamp : Z;
  format : string
}.
End WebCrawlResult.

(** What the page does during one call of [crawl]: whether the navigation
    settles and what [page.url()] returns from then on; whether the selector
    shows up; what the code evaluated inside the page reads there or
    returns (the text of the body once [script], [style] and [noscript] are
    removed, the [a[href]] elements, and the results of the extractors that
    run wholly inside the page); and the two readings of the clock. *)
Record PageWorld : Type := {
  page_goto : string -> number -> completion unit;
  page_url_after_goto : string -> string;
  page_waitForSelector : string -> completion unit;
  page_removeAds : completion unit;
  page_body_text : completion string;
  page_anchors : completion (list Anchor.t);
  page_extractLLMText : completion LLMTextData.t;
  page_screenshot : completion string;
  page_content : completion string;
  page_extractImages : completion (list ImageData.t);
  date_returned : Z;
  date_released : Z
}.

Module WebCrawl.
Section WebCrawl.
Context {U : Type} `{URLApi U}.

(** The local variable [page] of [crawl], and the controller. *)
Record Frame : Type := {
  page : option Page;
  controller : PuppeteerController.t
}.

Definition on_controller {A} (m : method PuppeteerController.t A) : method Frame A :=
  fun frame =>
    let '(outcome, this) := m (controller frame) in
    (outcome, {| page := page frame; controller := this |}).

Definition isValidUrl (url : string) : bool := is_normal (URL_new url).

(** The cleaning that [extractText] and [extractLLMText] apply to the text
    of the body. *)
Definition clean_text (text : string) : string :=
  trim (replace_blank_lines (replace_white_space_runs text)).

Definition extractText (pw : PageWorld) : completion string :=
  match page_body_text pw with
  | Normal text => Normal (clean_text text)
  | Throw message => Throw message
  end.

(** The function that [extractLinks] evaluates inside the page, on the
    [a[href]] elements of the document. *)
Definition links_of_anchors (anchors : list Anchor.t) (baseUrl : string)
    : completion (list LinkData.t) :=
  match URL_new baseUrl with
  | Throw message => Throw message
  | Normal baseUrlObj =>
      Normal
        (List.filter
           (fun link => negb (String.eqb (LinkData.url link) "")
                        && negb (String.eqb (LinkData.text link) ""))
           (map (fun link =>
                   let href := Anchor.href link in
                   let text := string_or (default "" (trim <$> Anchor.textContent link)) "" in
                   let title := string_or (Anchor.title link) "" in
                   {| LinkData.url := href; LinkData.text := text;
                      LinkData.title := Some title;
                      LinkData.isInternal :=
                        match URL_new href with
                        | Normal url => String.eqb (URL_hostname url) (URL_hostname baseUrlObj)
                        | Throw _ => false
                        end |})
                anchors))
  end.

Definition extractLinks (pw : PageWorld) (baseUrl : string) : completion (list LinkData.t) :=
  match page_anchors pw with
  | Normal anchors => links_of_anchors anchors baseUrl
  | Throw message => Throw message
  end.

(** The page [held] as the browser shows it now. *)
Definition shown (held : Page) (this : PuppeteerController.t) : Page :=
  default held (page_now (page_id held) this).

(** The [try] block of [crawl]. *)
Definition crawl_try (w : World) (pw : PageWorld) (url : string) (options : CrawlOptions.t)
    : method Frame CrawlData :=
  ((* Validate URL *)
   do! (if isValidUrl url then ret tt else throw "Invalid URL provided") in
   (* Get a tab from the controller *)
   let! held := on_controller (PuppeteerController.getTab w) in
   do! modify (fun frame => {| page := Some held; controller := controller frame |}) in
   (* Navigate to the URL *)
   do! modify (fun frame =>
                 {| page := page frame;
                    controller := PuppeteerController.goto (page_id held)
                                    (page_url_after_goto pw url) (controller frame) |}) in
   do! lift (page_goto pw url (number_or (CrawlOptions.timeout options) 30000)) in
   (* Wait for specific selector if provided *)
   do! (match CrawlOptions.waitForSelector options with
        | Some selector =>
            if String.eqb selector "" then ret tt
            else lift (page_waitForSelector pw selector)
        | None => ret tt
        end) in
   (* Remove ads if ignoreAds is true *)
   do! (if truthy (CrawlOptions.ignoreAds options) then lift (page_removeAds pw) else ret tt) in
   (* Process based on format *)
   let format := CrawlOptions.format options in
   if String.eqb format "text" then
     let! data := lift (extractText pw) in ret (TextData data)
   else if String.eqb format "LLMtext" then
     let! data := lift (page_extractLLMText pw) in ret (LLMText data)
   else if String.eqb format "screenshot" then
     let! data := lift (page_screenshot pw) in ret (Screenshot data)
   else if String.eqb format "html" then
     let! data := lift (page_content pw) in ret (Html data)
   else if String.eqb format "crawl-links" then
     let! data := lift (extractLinks pw url) in ret (Links data)
   else if String.eqb format "images" then
     let! data := lift (page_extractImages pw) in ret (Images data)
   else throw ("Unsupported format: " ++ format))%method.

(** [crawl]: the [try], the [catch] that turns a throw into a result, and
    the [finally] that releases the page if there is one. *)
Definition crawl (w : World) (pw : PageWorld) (url : string) (options : CrawlOptions.t)
    : method PuppeteerController.t WebCrawlResult.t :=
  fun this =>
    let '(outcome, frame) := crawl_try w pw url options {| page := None; controller := this |} in
    let result :=
      match outcome with
      | Normal data =>
          {| WebCrawlResult.success := true; WebCrawlResult.data := Some data;
             WebCrawlResult.error := None; WebCrawlResult.url := url;
             WebCrawlResult.timestamp := date_returned pw;
             WebCrawlResult.format := CrawlOptions.format options |}
      | Throw message =>
          {| WebCrawlResult.success := false; WebCrawlResult.data := None;
             WebCrawlResult.error := Some message; WebCrawlResult.url := url;
             WebCrawlResult.timestamp := date_returned pw;
             WebCrawlResult.format := CrawlOptions.format options |}
      end in
    match page frame with
    | Some held =>
        (Normal result,
         PuppeteerController.releaseTab (date_released pw) (shown held (controller frame))
           (controller frame))
    | None => (Normal result, controller frame)
    end.

End WebCrawl.
End WebCrawl.

(** ** Vocabulary of the statements about the cleaned text *)

(** All white space of [s] is single spaces: a white space character is a
    space, and no white space follows it. *)
Fixpoint single_spaced (s : string) : bool :=
  match s with
  | EmptyString => true
  | String c s' =>
      (if is_white_space c then Ascii.eqb c " " && negb (starts_with_white_space s') else true)
      && single_spaced s'
  end.

Fixpoint ends_with_white_space (s : string) : bool :=
  match s with
  | EmptyString => false
  | String c EmptyString => is_white_space c
  | String _ s' => ends_with_white_space s'
  end.

(** The characters that are no white space, in their order. *)
Fixpoint without_white_space (s : string) : string :=
  match s with
  | EmptyString => EmptyString
  | String c s' =>
      if is_white_space c then without_white_space s' else String c (without_white_space s')
  end.

(** ** Vocabulary of the statements about a fetched page *)

(** The format whose extractor returns data of this shape. *)
Definition data_format (data : CrawlData) : string :=
  match data with
  | TextData _ => "text"
  | LLMText _ => "LLMtext"
  | Screenshot _ => "screenshot"
  | Html _ => "html"
  | Links _ => "crawl-links"
  | Images _ => "images"
  end.

(** The result that [crawl] builds from the outcome of its [try]. *)
Definition crawl_result (pw : PageWorld) (url : string) (options : CrawlOptions.t)
    (outcome : completion CrawlData) : WebCrawlResult.t :=
  match outcome with
  | Normal data =>
      {| WebCrawlResult.success := true; WebCrawlResult.data := Some data;
         WebCrawlResult.error := None; WebCrawlResult.url := url;
         WebCrawlResult.timestamp := date_returned pw;
         WebCrawlResult.format := CrawlOptions.format options |}
  | Throw message =>
      {| WebCrawlResult.success := false; WebCrawlResult.data := None;
         WebCrawlResult.error := Some message; WebCrawlResult.url := url;
         WebCrawlResult.timestamp := date_returned pw;
         WebCrawlResult.format := CrawlOptions.format options |}
  end.

(** The result that the [catch] of [crawl] builds. *)
Definition crawl_failure (pw : PageWorld) (url : string) (options : CrawlOptions.t)
    (message : string) : WebCrawlResult.t :=
  {| WebCrawlResult.success := false; WebCrawlResult.data := None;
     WebCrawlResult.error := Some message; WebCrawlResult.url := url;
     WebCrawlResult.timestamp := date_returned pw;
     WebCrawlResult.format := CrawlOptions.format options |}.

(** A page that loads, with two links, one of them without text. *)
Definition example_page : PageWorld :=
  {| page_goto := fun _ _ => Normal tt;
     page_url_after_goto := fun url => url;
     page_waitForSelector := fun _ => Normal tt;
     page_removeAds := Normal tt;
     page_body_text := Normal "  Hello,  world ";
     page_anchors :=
       Normal [{| Anchor.href := "http://example.com/a"; Anchor.textContent := Some " A ";
                  Anchor.title := "" |};
               {| Anchor.href := "http://other.org/"; Anchor.textContent := Some "  ";
                  Anchor.title := "" |}];
     page_extractLLMText :=
       Normal {| LLMTextData.text := "Hello, world"; LLMTextData.links := [];
                 LLMTextData.images := []; LLMTextData.sources := [];
                 LLMTextData.references := [] |};
     page_screenshot := Normal "iVBORw0KGgo=";
     page_content := Normal "<html></html>";
     page_extractImages := Normal [];
     date_returned := 2000;
     date_released := 2001 |}.

(** ** The routes (server/routes)

    A handler is a function of the parsed body of the request; it returns
    the status and the JSON it sends.  A field of the body is [None] if it
    is missing; [!field] holds for a missing and for an empty string. *)

Record Response (A : Type) : Type := {
  status : Z;
  json : A
}.

Arguments status {A} _.
Arguments json {A} _.

(** [!s] on an optional string. *)
Definition falsy (s : option string) : bool :=
  match s with
  | Some v => String.eqb v ""
  | None => true
  end.

(** *** POST /api/spider-crawl *)

Module SpiderCrawlRequest.
Record t : Type := {
  url : option string;
  options : option SpiderCrawlOptions.argument
}.
End SpiderCrawlRequest.

Module SpiderCrawlData.
Record t : Type := {
  linkMap : gmap string (list LinkData.t);
  totalPages : nat;
  totalLinks : nat;
  baseUrl : string
}.
End SpiderCrawlData.

Module SpiderCrawlReply.
Record t : Type := {
  success : bool;
  data : option SpiderCrawlData.t;
  error : option string;
  url : option string;
  timestamp : option Z
}.

Definition failure (message : string) : t :=
  {| success := false; data := None; error := Some message; url := None; timestamp := None |}.
End SpiderCrawlReply.

Section SpiderCrawlRoute.
Context {U : Type} `{URLApi U} (env : Env).

Definition post_spider_crawl (now : Z) (body : SpiderCrawlRequest.t)
    : method SpiderCrawl (Response SpiderCrawlReply.t) :=
  try_catch
    ((* Validate request *)
     if falsy (SpiderCrawlRequest.url body) then
       ret {| status := 400; json := SpiderCrawlReply.failure "URL is required" |}
     else
       let url := default "" (SpiderCrawlRequest.url body) in
       (* Perform spider crawl *)
       let! result :=
         crawl env url (default SpiderCrawlOptions.empty (SpiderCrawlRequest.options body)) in
       if SpiderCrawlResult.success result then
         (* Convert Map to object for JSON serialization *)
         let linkMapObject :=
           fold_left (fun object '(pageUrl, links) => Object_set pageUrl links object)
                     (SpiderCrawlResult.linkMap result) ∅ in
         ret {| status := 200;
                json :=
                  {| SpiderCrawlReply.success := true;
                     SpiderCrawlReply.data :=
                       Some {| SpiderCrawlData.linkMap := linkMapObject;
                               SpiderCrawlData.totalPages :=
                                 SpiderCrawlResult.totalPages result;
                               SpiderCrawlData.totalLinks :=
                                 SpiderCrawlResult.totalLinks result;
                               SpiderCrawlData.baseUrl := SpiderCrawlResult.baseUrl result |};
                     SpiderCrawlReply.error := None;
                     SpiderCrawlReply.url := Some (SpiderCrawlResult.baseUrl result);
                     SpiderCrawlReply.timestamp := Some now |} |}
       else
         ret {| status := 500;
                json :=
                  SpiderCrawlReply.failure
                    (string_or (default "" (SpiderCrawlResult.error result))
                               "Spider crawl failed") |})%method
    (fun message => ret {| status := 500; json := SpiderCrawlReply.failure message |}).

End SpiderCrawlRoute.

(** *** POST /api/web-crawl *)

Module WebCrawlRequest.
(** The options as they arrive: [format] may be missing. *)
Record options_t : Type := {
  format : option string;
  timeout : option number;
  waitForSelector : option string;
  userAgent : option string;
  viewport : option (number * number);
  ignoreAds : option bool
}.

Record t : Type := {
  url : option string;
  options : option options_t
}.

Definition to_options (o : options_t) : CrawlOptions.t :=
  {| CrawlOptions.format := default "" (format o);
     CrawlOptions.timeout := timeout o;
     CrawlOptions.waitForSelector := waitForSelector o;
     CrawlOptions.userAgent := userAgent o;
     CrawlOptions.viewport := viewport o;
     CrawlOptions.ignoreAds := ignoreAds o |}.
End WebCrawlRequest.

Module WebCrawlReply.
Record t : Type := {
  success : bool;
  data : option CrawlData;
  error : option string;
  url : option string;
  timestamp : option Z;
  format : option string
}.

Definition failure (message : string) : t :=
  {| success := false; data := None; error := Some message; url := None;
     timestamp := None; format := None |}.
End WebCrawlReply.

Definition validFormats : list string :=
  ["text"; "LLMtext"; "screenshot"; "html"; "crawl-links"; "images"].

(** [parts.join(', ')] *)
Fixpoint join_comma (parts : list string) : string :=
  match parts with
  | [] => ""
  | [part] => part
  | part :: rest => part ++ ", " ++ join_comma rest
  end.

Section WebCrawlRoute.
Context {U : Type} `{URLApi U}.

Definition post_web_crawl (w : World) (pw : PageWorld) (body : WebCrawlRequest.t)
    : method PuppeteerController.t (Response WebCrawlReply.t) :=
  try_catch
    ((* Validate request *)
     if falsy (WebCrawlRequest.url body) then
       ret {| status := 400; json := WebCrawlReply.failure "URL is required" |}
     else
       match WebCrawlRequest.options body with
       | None =>
           ret {| status := 400;
                  json := WebCrawlReply.failure "Crawl options with format are required" |}
       | Some options =>
           if falsy (WebCrawlRequest.format options) then
             ret {| status := 400;
                    json := WebCrawlReply.failure "Crawl options with format are required" |}
           (* Validate format *)
           else if negb (existsb (String.eqb (default "" (WebCrawlRequest.format options)))
                                 validFormats) then
             ret {| status := 400;
                    json := WebCrawlReply.failure
                              ("Invalid format. Must be one of: " ++ join_comma validFormats) |}
           else
             (* Perform crawl *)
             let! result :=
               WebCrawl.crawl w pw (default "" (WebCrawlRequest.url body))
                 (WebCrawlRequest.to_options options) in
             if WebCrawlResult.success result then
               ret {| status := 200;
                      json :=
                        {| WebCrawlReply.success := true;
                           WebCrawlReply.data := WebCrawlResult.data result;
                           WebCrawlReply.error := None;
                           WebCrawlReply.url := Some (WebCrawlResult.url result);
                           WebCrawlReply.timestamp := Some (WebCrawlResult.timestamp result);
                           WebCrawlReply.format := Some (WebCrawlResult.format result) |} |}
             else
               ret {| status := 500;
                      json := WebCrawlReply.failure
                                (string_or (default "" (WebCrawlResult.error result))
                                           "Crawl failed") |}
       end)%method
    (fun message => ret {| status := 500; json := WebCrawlReply.failure message |}).

End WebCrawlRoute.

(** *** The search scraper (modules/search_engine_scraper) and
    POST /api/search-engine *)

Module SearchItem.
Record t : Type := {
  title : string;
  url : string;
  description : string
}.
End SearchItem.

Module SearchResult.
Record t : Type := {
  success : bool;
  engine : string;
  query : string;
  results : list SearchItem.t;
  error : option string;
  timestamp : Z
}.
End SearchResult.

(** What the page does during one call of the scraper. *)
Record SearchPageWorld : Type := {
  search_setBypassCSP : completion unit;
  search_goto : string -> completion unit;
  search_url_after_goto : string -> string;
  search_waitForSelector : completion unit;
  search_title : completion string;
  search_items : completion (list SearchItem.t);
  search_returned : Z;
  search_released : Z
}.

(** [request.query] is the URL of the search, [request.engine] is passed
    through.  [getTab] is called before the [try]. *)
Definition scrapeSearchResultsWithCite (w : World) (sw : SearchPageWorld)
    (engine query : string) : method PuppeteerController.t SearchResult.t :=
  (let! page := PuppeteerController.getTab w in
   let! result :=
     try_catch
       (do! lift (search_setBypassCSP sw) in
        let searchUrl := query in
        do! modify (PuppeteerController.goto (page_id page)
                      (search_url_after_goto sw searchUrl)) in
        do! lift (search_goto sw searchUrl) in
        do! try_catch (lift (search_waitForSelector sw)) (fun _ => ret tt) in
        let! _ := lift (search_title sw) in
        (* Extract results *)
        let! items := lift (search_items sw) in
        ret {| SearchResult.success := true; SearchResult.engine := engine;
               SearchResult.query := query; SearchResult.results := items;
               SearchResult.error := None;
               SearchResult.timestamp := search_returned sw |})
       (fun message =>
          ret {| SearchResult.success := false; SearchResult.engine := engine;
                 SearchResult.query := query; SearchResult.results := [];
                 SearchResult.error := Some message;
                 SearchResult.timestamp := search_returned sw |}) in
   (* finally *)
   do! modify (fun this =>
                 PuppeteerController.releaseTab (search_released sw) (WebCrawl.shown page this)
                   this) in
   ret result)%method.

(** [encodeURIComponent] on code units below 256: the unreserved
    characters stay, every other code unit becomes the percent escapes of
    its UTF-8 bytes. *)
Definition is_unreserved (c : ascii) : bool :=
  let n := nat_of_ascii c in
  (((65 <=? n) && (n <=? 90)) || ((97 <=? n) && (n <=? 122)) || ((48 <=? n) && (n <=? 57))
   || existsb (Ascii.eqb c) ["-"; "_"; "."; "!"; "~"; "*"; "'"; "("; ")"]%char)%nat.

Definition hex_digit (n : nat) : ascii :=
  nth n ["0"; "1"; "2"; "3"; "4"; "5"; "6"; "7"; "8"; "9"; "A"; "B"; "C"; "D"; "E"; "F"]%char
      "0"%char.

Definition percent_escape (byte : nat) : string :=
  String "%" (String (hex_digit (byte / 16)) (String (hex_digit (byte mod 16)) EmptyString)).

Definition encode_unit (c : ascii) : string :=
  let n := nat_of_ascii c in
  if is_unreserved c then String c EmptyString
  else if (n <? 128)%nat then percent_escape n
  else percent_escape (192 + n / 64) ++ percent_escape (128 + n mod 64).

Fixpoint encodeURIComponent (s : string) : string :=
  match s with
  | EmptyString => EmptyString
  | String c s' => encode_unit c ++ encodeURIComponent s'
  end.

(** [encodeURIComponent] on any string.  A query is sent as JSON, which
    can hold every sequence of UTF-16 code units, so it is the list of its
    code units here.  A high surrogate and the low surrogate after it make
    one code point; a surrogate that stands alone makes
    [encodeURIComponent] throw a [URIError]. *)
Definition is_high_surrogate (unit : N) : bool := ((55296 <=? unit) && (unit <=? 56319))%N.
Definition is_low_surrogate (unit : N) : bool := ((56320 <=? unit) && (unit <=? 57343))%N.

Fixpoint code_points (units : list N) : option (list N) :=
  match units with
  | [] => Some []
  | unit :: rest =>
      if is_high_surrogate unit then
        match rest with
        | low :: rest' =>
            if is_low_surrogate low
            then cons (65536 + (unit - 55296) * 1024 + (low - 56320))%N <$> code_points rest'
            else None
        | [] => None
        end
      else if is_low_surrogate unit then None
      else cons unit <$> code_points rest
  end.

(** The UTF-8 bytes of a code point. *)
Definition utf8 (point : N) : list N :=
  (if point <? 128 then [point]
   else if point <? 2048 then [192 + point / 64; 128 + point mod 64]
   else if point <? 65536
   then [224 + point / 4096; 128 + (point / 64) mod 64; 128 + point mod 64]
   else [240 + point / 262144; 128 + (point / 4096) mod 64; 128 + (point / 64) mod 64;
         128 + point mod 64])%N.

Definition encode_point (point : N) : string :=
  if (point <? 128)%N && is_unreserved (ascii_of_N point)
  then String (ascii_of_N point) EmptyString
  else fold_right (fun byte escaped => percent_escape (N.to_nat byte) ++ escaped)
                  EmptyString (utf8 point).

Definition encodeURIComponent_utf16 (units : list N) : completion string :=
  match code_points units with
  | Some points =>
      Normal (fold_right (fun point encoded => encode_point point ++ encoded)
                         EmptyString points)
  | None => Throw "URI malformed"
  end.

(** The code units of a string of code units below 256. *)
Definition code_units (s : string) : list N := map N_of_ascii (list_ascii_of_string s).

Module SearchRequest.
Record t : Type := {
  engine : option string;
  query : option (list N)
}.
End SearchRequest.

(** What the route sends: the result of the scraper as it is, or a
    refusal. *)
Inductive SearchReply : Type :=
| Scraped (result : SearchResult.t)
| Refused (error : string).

(** [!query] on an optional string given by its code units. *)
Definition no_query (query : option (list N)) : bool :=
  match query with
  | Some [] | None => true
  | Some (_ :: _) => false
  end.

(** [encodeURIComponent(query)] is evaluated inside the [try], before the
    scraper is called. *)
Definition post_search_engine (w : World) (sw : SearchPageWorld) (body : SearchRequest.t)
    : method PuppeteerController.t (Response SearchReply) :=
  if falsy (SearchRequest.engine body) || no_query (SearchRequest.query body) then
    ret {| status := 400; json := Refused "engine and query are required" |}
  else
    let engine := default "" (SearchRequest.engine body) in
    let query := default [] (SearchRequest.query body) in
    try_catch
      (if String.eqb engine "google" then
         let! encoded := lift (encodeURIComponent_utf16 query) in
         let! result :=
           scrapeSearchResultsWithCite w sw engine
             ("https://www.google.com/search?q=" ++ encoded) in
         ret {| status := 200; json := Scraped result |}
       else if String.eqb engine "bing" then
         let! encoded := lift (encodeURIComponent_utf16 query) in
         let! result :=
           scrapeSearchResultsWithCite w sw engine
             ("https://www.bing.com/search?q=" ++ encoded) in
         ret {| status := 200; json := Scraped result |}
       else if String.eqb engine "brave" then
         let! encoded := lift (encodeURIComponent_utf16 query) in
         let! result :=
           scrapeSearchResultsWithCite w sw engine
             ("https://search.brave.com/search?q=" ++ encoded) in
         ret {| status := 200; json := Scraped result |}
       else
         ret {| status := 400;
                json := Refused ("Engine '" ++ engine ++ "' not supported yet.") |})%method
      (fun message => ret {| status := 500; json := Refused message |}).

(** ** Vocabulary of the statements about the routes *)

(** Every character of [s] is unreserved or a percent sign. *)
Fixpoint url_safe (s : string) : bool :=
  match s with
  | EmptyString => true
  | String c s' => (is_unreserved c || Ascii.eqb c "%") && url_safe s'
  end.

(** The search page of an engine the route knows, up to the query. *)
Definition search_prefix (engine : string) : option string :=
  if String.eqb engine "google" then Some "https://www.google.com/search?q="
  else if String.eqb engine "bing" then Some "https://www.bing.com/search?q="
  else if String.eqb engine "brave" then Some "https://search.brave.com/search?q="
  else None.

(** ** The spider on top of [webCrawl] *)

(** What [processUrl] reads of the result of
    [webCrawl.crawl(url, { format: 'crawl-links' })]: [result.success], and
    [result.data] as the list of links that it is for this format. *)
Definition as_spider_result (result : WebCrawlResult.t) : CrawlResult.t :=
  {| CrawlResult.success := WebCrawlResult.success result;
     CrawlResult.data :=
       match WebCrawlResult.data result with
       | Some (Links links) => Some links
       | _ => None
       end;
     CrawlResult.error := WebCrawlResult.error result |}.

Definition awaited_by_spider (run : completion WebCrawlResult.t * PuppeteerController.t)
    : completion CrawlResult.t :=
  match fst run with
  | Normal result => Normal (as_spider_result result)
  | Throw message => Throw message
  end.

Section SpiderOnWebCrawl.
Context {U : Type} `{URLApi U}.

(** Every fetch of [env] is a call of [webCrawl.crawl] for the links of the
    URL, in some state of the pool and with some behaviour of the page. *)
Definition fetches_through_webCrawl (env : Env) : Prop :=
  forall url,
    exists w pw this,
      webCrawl_crawl env url
      = awaited_by_spider (WebCrawl.crawl w pw url CrawlOptions.crawl_links this).

End SpiderOnWebCrawl.

(** A site all of whose pages are the example page, each fetched through a
    new pool. *)
Definition example_site : Env :=
  {| webCrawl_crawl := fun url =>
       awaited_by_spider
         (@WebCrawl.crawl _ HttpURL.api (chrome 0 1) example_page url
            CrawlOptions.crawl_links (PuppeteerController.new None));
     settle_order := fun _ urls => urls |}.

(** ** Walking the document (the DOM walkers of the search scraper)

    A document is a tree: a text node ([nodeType] is [Node.TEXT_NODE]) with
    its [nodeValue], which has no child, or any other node with its
    [childNodes].  A node of the document is named by its place:
    its index among the children of its parent, then the index of the
    parent, and so on up to the root, which is [[]].  The properties of a
    node that the walkers read are functions of the document and the
    place. *)

#[warnings="-register-all"]
Inductive DomTree : Type :=
| TextNode (nodeValue : string)
| OtherNode (childNodes : list DomTree).

(** The places below [t] along the indices [down], read from [t] on. *)
Fixpoint subtree (t : DomTree) (down : list nat) : option DomTree :=
  match down with
  | [] => Some t
  | i :: down' =>
      match t with
      | OtherNode children =>
          match nth_error children i with
          | Some child => subtree child down'
          | None => None
          end
      | TextNode _ => None
      end
  end.

Section Dom.
Variable document : DomTree.

Definition node_at (node : list nat) : option DomTree := subtree document (rev node).

Definition childNodes_at (node : list nat) : list DomTree :=
  match node_at node with
  | Some (OtherNode children) => children
  | _ => []
  end.

Definition firstChild (node : list nat) : option (list nat) :=
  match childNodes_at node with
  | [] => None
  | _ :: _ => Some (0%nat :: node)
  end.

Definition lastChild (node : list nat) : option (list nat) :=
  match length (childNodes_at node) with
  | O => None
  | S last => Some (last :: node)
  end.

Definition parentNode (node : list nat) : option (list nat) :=
  match node with
  | [] => None
  | _ :: parent => Some parent
  end.

Definition nextSibling (node : list nat) : option (list nat) :=
  match node with
  | [] => None
  | i :: parent =>
      if (S i <? length (childNodes_at parent))%nat then Some (S i :: parent) else None
  end.

Definition previousSibling (node : list nat) : option (list nat) :=
  match node with
  | S i :: parent => Some (i :: parent)
  | _ => None
  end.

(** The loop of [nextNode]:
    [while (node) { if (node.nextSibling) return node.nextSibling;
                    node = node.parentNode; } return null;]
    Each turn goes to the parent, whose place is the tail of the place. *)
Fixpoint next_above (node : list nat) : option (list nat) :=
  match nextSibling node with
  | Some sibling => Some sibling
  | None =>
      match node with
      | [] => None
      | _ :: parent => next_above parent
      end
  end.

(** DOM walker to go to next node in document order *)
Definition nextNode (node : list nat) : option (list nat) :=
  match firstChild node with
  | Some child => Some child
  | None => next_above node
  end.

(** [while (node.lastChild) node = node.lastChild;], for [turns] turns at
    most. *)
Fixpoint to_last_descendant (turns : nat) (node : list nat) : list nat :=
  match turns with
  | O => node
  | S turns' =>
      match lastChild node with
      | Some child => to_last_descendant turns' child
      | None => node
      end
  end.

(** The number of nodes of a tree.  The loops below are given that many
    turns; they end before the turns are used up
    ([to_last_descendant_ends], [search_ends]). *)
Fixpoint tree_size (t : DomTree) : nat :=
  match t with
  | TextNode _ => 1
  | OtherNode children => S (list_sum (map tree_size children))
  end.

(** DOM walker to go to previous node in document order *)
Definition previousNode (node : list nat) : option (list nat) :=
  match previousSibling node with
  | Some sibling => Some (to_last_descendant (tree_size document) sibling)
  | None => parentNode node
  end.

(** [node.nodeType === Node.TEXT_NODE
     && node.nodeValue.trim().length > minLength] *)
Definition isValidTextNode (minLength : Z) (node : list nat) : bool :=
  match node_at node with
  | Some (TextNode nodeValue) => minLength <? Z.of_nat (String.length (trim nodeValue))
  | _ => false
  end.

(** [while (node) { if (isValidTextNode(node)) return node;
                    node = step(node); }]
    The result is [Some found] when the loop returns a node, [Some None]
    when it ends at [null], and [None] when the turns are used up. *)
Fixpoint search (step : list nat -> option (list nat)) (minLength : Z) (turns : nat)
    (node : list nat) : option (option (list nat)) :=
  match turns with
  | O => None
  | S turns' =>
      if isValidTextNode minLength node then Some (Some node)
      else match step node with
           | Some next => search step minLength turns' next
           | None => Some None
           end
  end.

Definition findNearestTextNodeWithMinLength (startNode : list nat) (minLength : option Z)
    : option (option (list nat)) :=
  let minLength := default 100 minLength in
  (* Step 1: Forward search using next nodes *)
  match search nextNode minLength (tree_size document) startNode with
  | Some (Some found) => Some (Some found)
  | Some None =>
      (* Step 2: Backward search using previous nodes *)
      search previousNode minLength (tree_size document) startNode
  | None => None
  end.

End Dom.

(** ** Vocabulary of the statements about the walkers *)

Definition orders_below (order : DomTree -> list nat -> list (list nat)) (place : list nat)
    : list DomTree -> nat -> list (list nat) :=
  fix below (children : list DomTree) (i : nat) : list (list nat) :=
    match children with
    | [] => []
    | child :: rest => (order child (i :: place) ++ below rest (S i))%list
    end.

(** The places of the nodes of [t], which is at [place], in document order:
    a node comes before its children, and the children come in their
    order, each with all that is below it. *)
Fixpoint document_order (t : DomTree) (place : list nat) : list (list nat) :=
  place ::
  match t with
  | TextNode _ => []
  | OtherNode children => orders_below document_order place children 0%nat
  end.

(** The first of [l], or [after] when [l] is empty. *)
Definition first_or {A : Type} (l : list A) (after : option A) : option A :=
  match l with
  | [] => after
  | a :: _ => Some a
  end.

(** [step] takes each element of [l] to the one after it, and the last
    one to [after]. *)
Fixpoint linked {A : Type} (step : A -> option A) (l : list A) (after : option A) : Prop :=
  match l with
  | [] => True
  | a :: rest => step a = first_or rest after /\ linked step rest after
  end.

(** A small document: a paragraph with two texts around a link, and a
    text after it. *)
Definition example_document : DomTree :=
  OtherNode
    [OtherNode [TextNode "before the link";
                OtherNode [TextNode "link"];
                TextNode "after the link, a text long enough to count"];
     TextNode "the end"].

(** * Properties *)

(** ** Numbers *)

(** An integer is at least a number exactly if it is at least the least
    integer that is not below the number, and below it otherwise. *)
Lemma at_least_ceiling (size : Z) (n : number) : at_least size n = (size >=? Qceiling n).
Proof.
  unfold at_least. apply eq_true_iff_eq. rewrite Qle_bool_iff, Z.geb_le. split.
  - intros Hle. apply Qceiling_resp_le in Hle. now rewrite Qceiling_Z in Hle.
  - intros Hle. eapply Qle_trans; [apply Qle_ceiling|]. now rewrite <- Zle_Qle.
Qed.

Lemma is_below_ceiling (depth : Z) (n : number) : is_below depth n = (depth <? Qceiling n).
Proof.
  unfold is_below. fold (at_least depth n). rewrite at_least_ceiling.
  rewrite Z.geb_leb, Z.ltb_antisym. reflexivity.
Qed.

Lemma number_or_integer (n d : Z) :
  Qceiling (number_or (Some (inject_Z n)) d) = if n =? 0 then d else n.
Proof.
  unfold number_or.
  destruct (n =? 0) eqn:Hzero.
  - apply Z.eqb_eq in Hzero. subst n. simpl. apply Qceiling_Z.
  - replace (Qeq_bool (inject_Z n) (inject_Z 0)) with false; [apply Qceiling_Z|].
    symmetry. apply not_true_is_false. intros Heq%Qeq_bool_iff.
    apply Z.eqb_neq in Hzero. apply Hzero. now apply inject_Z_injective.
Qed.

(** ** Strings *)
Lemma prefix_app (p s : string) :
  String.prefix p s = true <-> exists rest, s = p ++ rest.
Proof.
  revert s. induction p as [|a p IH]; intros s.
  - split; [intros _; now exists s | now destruct s].
  - destruct s as [|b s]; simpl.
    + split; [discriminate | intros [r Hr]; discriminate].
    + destruct (ascii_dec a b) as [->|Hab].
      * rewrite IH. split; intros [r Hr]; exists r; [now rewrite Hr | simpl in Hr; now inversion Hr].
      * split; [discriminate | intros [r Hr]; simpl in Hr; inversion Hr; congruence].
Qed.

Lemma includes_is_substring (s pattern : string) :
  includes s pattern = true <-> is_substring pattern s.
Proof.
  induction s as [|c s IH]; cbn [includes].
  - rewrite orb_false_r, prefix_app. split.
    + intros [r Hr]. now exists "", r.
    + intros ([|? ?] & rest & Hrest); [now exists rest | discriminate].
  - rewrite orb_true_iff, prefix_app, IH. split.
    + intros [[r Hr] | (before & rest & Hs)].
      * now exists "", r.
      * exists (String c before), rest. simpl. now rewrite Hs.
    + intros ([|c' before] & rest & Hs).
      * left. now exists rest.
      * right. simpl in Hs. inversion Hs. now exists before, rest.
Qed.

Lemma replace_slash_runs_starts (s : string) :
  starts_with_slash (replace_slash_runs s) = starts_with_slash s.
Proof.
  induction s as [|c s IH]; [reflexivity|]. simpl.
  destruct (is_slash c) eqn:Hc; simpl; [|exact Hc].
  destruct (starts_with_slash s) eqn:Hs; simpl; [now rewrite IH | exact Hc].
Qed.

Lemma replace_slash_runs_no_run (s : string) :
  no_slash_run (replace_slash_runs s) = true.
Proof.
  induction s as [|c s IH]; [reflexivity|]. simpl.
  destruct (is_slash c && starts_with_slash s) eqn:Hrun; [exact IH|].
  simpl. now rewrite replace_slash_runs_starts, Hrun, IH.
Qed.

Lemma replace_slash_runs_fixed (s : string) :
  no_slash_run s = true -> replace_slash_runs s = s.
Proof.
  induction s as [|c s IH]; [reflexivity|]. simpl.
  intros [Hrun Hs]%andb_true_iff. apply negb_true_iff in Hrun.
  rewrite Hrun. now rewrite IH.
Qed.

Lemma replace_slash_runs_idempotent (s : string) :
  replace_slash_runs (replace_slash_runs s) = replace_slash_runs s.
Proof. apply replace_slash_runs_fixed, replace_slash_runs_no_run. Qed.


(** ** The reference URL class satisfies the laws *)

Module HttpURLFacts.
Import HttpURL.

Lemma append_cons (c : ascii) (s rest : string) : String c s ++ rest = String c (s ++ rest).
Proof. reflexivity. Qed.

Lemma append_empty (s : string) : s ++ "" = s.
Proof. induction s as [|c s IH]; [reflexivity | now rewrite append_cons, IH]. Qed.

Lemma append_assoc (a b c : string) : (a ++ b) ++ c = a ++ b ++ c.
Proof.
  induction a as [|x a IH]; [reflexivity | now rewrite !append_cons, IH].
Qed.

Lemma has_char_app (c : ascii) (a b : string) :
  has_char c (a ++ b) = has_char c a || has_char c b.
Proof.
  induction a as [|x a IH]; [reflexivity|]. rewrite append_cons. simpl.
  now rewrite IH, orb_assoc.
Qed.

Lemma split_at_found (c : ascii) (a b : string) :
  has_char c a = false -> split_at c (a ++ String c b) = (a, Some b).
Proof.
  induction a as [|x a IH]; [|rewrite append_cons]; simpl.
  - intros _. change ("" ++ String c b) with (String c b). simpl.
    now rewrite Ascii.eqb_refl.
  - intros [Hx Ha]%orb_false_iff. now rewrite Hx, IH.
Qed.

Lemma split_at_absent (c : ascii) (a : string) :
  has_char c a = false -> split_at c a = (a, None).
Proof.
  induction a as [|x a IH]; simpl; [reflexivity|].
  intros [Hx Ha]%orb_false_iff. now rewrite Hx, IH.
Qed.

Lemma split_at_before_no_char (c : ascii) (s : string) :
  has_char c (fst (split_at c s)) = false.
Proof.
  induction s as [|x s IH]; simpl; [reflexivity|].
  destruct (Ascii.eqb x c) eqn:Hx; [reflexivity|].
  destruct (split_at c s) as [before rest]. simpl in *. now rewrite Hx.
Qed.

Lemma split_at_before_has_char (c d : ascii) (s : string) :
  has_char d s = false -> has_char d (fst (split_at c s)) = false.
Proof.
  induction s as [|x s IH]; simpl; [reflexivity|].
  intros [Hd Hs]%orb_false_iff.
  destruct (Ascii.eqb x c); [reflexivity|].
  destruct (split_at c s) as [before rest]. simpl in *. rewrite Hd. auto.
Qed.

Lemma split_at_after_has_char (c d : ascii) (s after : string) :
  has_char d s = false -> snd (split_at c s) = Some after -> has_char d after = false.
Proof.
  induction s as [|x s IH]; simpl; [discriminate|].
  intros [Hd Hs]%orb_false_iff.
  destruct (Ascii.eqb x c); simpl.
  - now intros [= <-].
  - destruct (split_at c s) as [before rest]. simpl in *. auto.
Qed.

Lemma strip_prefix_has_char (d : ascii) (p s rest : string) :
  strip_prefix p s = Some rest -> has_char d s = false -> has_char d rest = false.
Proof.
  revert s. induction p as [|a p IH]; intros s.
  - destruct s; simpl; now intros [= <-].
  - destruct s as [|b s]; simpl; [discriminate|].
    destruct (Ascii.eqb a b); [|discriminate].
    intros Hs [_ Hd]%orb_false_iff. eauto.
Qed.

Lemma encode_hash_no_hash (s : string) : has_char "#" (encode_hash s) = false.
Proof.
  induction s as [|c s IH]; [reflexivity|]. simpl.
  destruct (Ascii.eqb c "#") eqn:Hc; simpl; [exact IH | now rewrite Hc].
Qed.

Lemma encode_hash_fixed (s : string) : has_char "#" s = false -> encode_hash s = s.
Proof.
  induction s as [|c s IH]; [reflexivity|]. simpl.
  intros [Hc Hs]%orb_false_iff. now rewrite Hc, IH.
Qed.

Lemma replace_slash_runs_has_char (c : ascii) (s : string) :
  has_char c s = false -> has_char c (replace_slash_runs s) = false.
Proof.
  induction s as [|x s IH]; [reflexivity|]. simpl.
  intros [Hx Hs]%orb_false_iff.
  destruct (is_slash x && starts_with_slash s); simpl; [auto | now rewrite Hx, IH].
Qed.

Lemma strip_prefix_app (p s : string) : strip_prefix p (p ++ s) = Some s.
Proof.
  induction p as [|a p IH]; [now destruct s|].
  rewrite append_cons. simpl. now rewrite Ascii.eqb_refl.
Qed.

Lemma strip_prefix_Some (p s rest : string) : strip_prefix p s = Some rest -> s = p ++ rest.
Proof.
  revert s. induction p as [|a p IH]; intros s.
  - destruct s; simpl; now intros [= <-].
  - destruct s as [|b s]; simpl; [discriminate|].
    destruct (Ascii.eqb a b) eqn:Hab; [|discriminate].
    apply Ascii.eqb_eq in Hab. subst b. intros Hs. now rewrite (IH s Hs).
Qed.

Lemma all_lower_has_char (c : ascii) (s : string) :
  all_lower s = true -> is_lower c = false -> has_char c s = false.
Proof.
  intros Hs Hc. induction s as [|a s IH]; [reflexivity|]. simpl in *.
  apply andb_true_iff in Hs as [Ha Hs].
  destruct (Ascii.eqb a c) eqn:Hac; [|auto].
  apply Ascii.eqb_eq in Hac. congruence.
Qed.

Lemma is_scheme_has_char (c : ascii) (scheme : string) :
  is_scheme scheme = true -> is_lower c = false -> has_char c scheme = false.
Proof.
  unfold is_scheme. intros [[_ Hlower]%andb_true_iff _]%andb_true_iff.
  now apply all_lower_has_char.
Qed.

Lemma is_scheme_no_http_prefix (scheme p : string) :
  is_scheme scheme = true -> strip_prefix "http://" (scheme ++ ":" ++ p) = None.
Proof.
  intros Hscheme.
  destruct (strip_prefix "http://" (scheme ++ ":" ++ p)) as [rest|] eqn:Hstrip; [|reflexivity].
  apply strip_prefix_Some in Hstrip.
  assert (Hsplit : split_at ":" (scheme ++ ":" ++ p) = (scheme, Some p)).
  { apply split_at_found. now apply is_scheme_has_char. }
  rewrite Hstrip in Hsplit. simpl in Hsplit. injection Hsplit as <- _.
  discriminate.
Qed.

Lemma includes_char (c : ascii) (s : string) : includes s (String c "") = has_char c s.
Proof.
  induction s as [|a s IH]; [reflexivity|]. simpl. rewrite IH.
  destruct (Ascii.eqb_spec a c) as [->|Hne].
  - destruct (ascii_dec c c); [|contradiction]. now destruct s.
  - destruct (ascii_dec c a); [congruence | reflexivity].
Qed.

Lemma parse_well_formed (s : string) (u : t) : parse s = Normal u -> well_formed u.
Proof.
  unfold parse.
  pose proof (split_at_before_no_char "#" s) as Hmain.
  destruct (split_at "#" s) as [main frag]. simpl in Hmain.
  destruct (strip_prefix "http://" main) as [rest|] eqn:Hrest.
  - pose proof (strip_prefix_has_char "#" _ _ _ Hrest Hmain) as Hhash.
    pose proof (split_at_before_no_char "/" rest) as Hslash.
    pose proof (split_at_before_has_char "/" "#" rest Hhash) as Hh.
    pose proof (split_at_after_has_char "/" "#" rest) as Hp.
    destruct (split_at "/" rest) as [h p]. simpl in *.
    destruct (String.eqb h "") eqn:Hempty; [discriminate|].
    intros [= <-]. unfold well_formed. simpl.
    apply String.eqb_neq in Hempty.
    repeat split; try assumption.
    destruct p as [after|]; simpl; [now apply Hp | reflexivity].
  - pose proof (split_at_after_has_char ":" "#" main) as Hp.
    destruct (split_at ":" main) as [scheme [p|]]; [|discriminate]. simpl in Hp.
    destruct (is_scheme scheme) eqn:Hscheme; [|discriminate].
    destruct (starts_with_slash p) eqn:Hslash; [discriminate|].
    intros [= <-]. unfold well_formed. simpl. repeat split; auto.
Qed.

Lemma set_hash_well_formed (v : string) (u : t) : well_formed u -> well_formed (set_hash v u).
Proof. intros Hu. exact Hu. Qed.

Lemma set_pathname_well_formed (p : string) (u : t) :
  well_formed u -> well_formed (set_pathname p u).
Proof.
  intros Hu. unfold set_pathname. destruct (opaque u) eqn:Hopaque; [exact Hu|].
  destruct Hu as (_ & Hhttp). rewrite Hopaque in Hhttp. destruct Hhttp as (Hh & Hs & Hf & _).
  unfold well_formed. simpl. split.
  - destruct (starts_with_slash (encode_hash p)); simpl; apply encode_hash_no_hash.
  - repeat split; try assumption.
    destruct (starts_with_slash (encode_hash p)) eqn:Hp; [exact Hp | reflexivity].
Qed.

Lemma URL_object_well_formed (u : t) : @URL_object t api u -> well_formed u.
Proof.
  induction 1 as [s u Hs | u _ IH | u _ IH].
  - now apply parse_well_formed in Hs.
  - exact IH.
  - now apply set_pathname_well_formed.
Qed.

Lemma split_fragment (main : string) (f : option string) :
  has_char "#" main = false ->
  split_at "#" (main ++ match f with Some f' => String "#" f' | None => "" end) = (main, f).
Proof.
  intros Hmain. destruct f as [f'|].
  - now apply split_at_found.
  - rewrite append_empty. now apply split_at_absent.
Qed.

Lemma parse_toString (u : t) : well_formed u -> parse (toString u) = Normal u.
Proof.
  destruct u as [[scheme|] h p f]; unfold well_formed, toString, parse;
    cbn [opaque host path fragment].
  - intros (Hphash & Hscheme & -> & Hslash).
    assert (Hmain : has_char "#" (scheme ++ ":" ++ p) = false).
    { rewrite !has_char_app, Hphash, (is_scheme_has_char "#" scheme Hscheme eq_refl).
      reflexivity. }
    rewrite <- append_assoc.
    replace ((scheme ++ ":") ++ p) with (scheme ++ ":" ++ p) by now rewrite append_assoc.
    rewrite (split_fragment _ f Hmain), (is_scheme_no_http_prefix scheme p Hscheme).
    change (":" ++ p) with (String ":" p).
    rewrite (split_at_found ":" scheme p (is_scheme_has_char ":" scheme Hscheme eq_refl)).
    now rewrite Hscheme, Hslash.
  - intros (Hphash & Hh & Hslash & Hhash & Hp).
    assert (Hmain : has_char "#" ("http://" ++ h ++ p) = false).
    { now rewrite !has_char_app, Hhash, Hphash. }
    rewrite <- append_assoc.
    replace (("http://" ++ h) ++ p) with ("http://" ++ h ++ p) by now rewrite append_assoc.
    rewrite (split_fragment _ f Hmain), strip_prefix_app.
    destruct p as [|c p']; [discriminate|]. simpl in Hp.
    apply Ascii.eqb_eq in Hp. subst c.
    rewrite (split_at_found "/" h p' Hslash).
    destruct (String.eqb h "") eqn:Hempty.
    + apply String.eqb_eq in Hempty. contradiction.
    + reflexivity.
Qed.

Lemma toString_cleared_no_hash (u : t) :
  well_formed u -> fragment u = None -> has_char "#" (toString u) = false.
Proof.
  destruct u as [[scheme|] h p f]; unfold well_formed, toString;
    cbn [opaque host path fragment]; intros Hu ->.
  - destruct Hu as (Hphash & Hscheme & _ & _).
    rewrite !has_char_app, Hphash, (is_scheme_has_char "#" scheme Hscheme eq_refl).
    reflexivity.
  - destruct Hu as (Hphash & _ & _ & Hhash & _).
    rewrite !has_char_app, Hhash, Hphash. reflexivity.
Qed.

Lemma set_own_pathname (u : t) : well_formed u -> set_pathname (path u) u = u.
Proof.
  destruct u as [[scheme|] h p f]; [reflexivity|].
  unfold well_formed, set_pathname. cbn [opaque host path fragment].
  intros (Hphash & _ & _ & _ & Hp). rewrite (encode_hash_fixed p Hphash), Hp. reflexivity.
Qed.

Lemma laws : @URLLaws t api.
Proof.
  split.
  - intros u Hu. apply parse_toString, URL_object_well_formed, Hu.
  - intros u Hu. simpl. rewrite includes_char. apply toString_cleared_no_hash.
    + apply set_pathname_well_formed, set_hash_well_formed, URL_object_well_formed, Hu.
    + unfold set_pathname, set_hash. simpl. now destruct (opaque u).
  - intros u Hu. simpl. unfold set_pathname, set_hash. simpl. now destruct (opaque u).
  - intros u Hu. apply set_own_pathname, URL_object_well_formed, Hu.
  - intros u Hu. simpl.
    pose proof (URL_object_well_formed u Hu) as Hwf.
    unfold set_pathname. destruct (opaque u) eqn:Hopaque; [now left|]. right. simpl.
    destruct Hwf as (Hphash & Hhttp). rewrite Hopaque in Hhttp.
    destruct Hhttp as (_ & _ & _ & Hp).
    rewrite encode_hash_fixed by now apply replace_slash_runs_has_char.
    rewrite replace_slash_runs_starts, Hp. apply replace_slash_runs_no_run.
Qed.

End HttpURLFacts.

(** ** URL normalization *)

Section Normalization.
Context {U : Type} `{URLApi U}.

Lemma normalizeUrl_unparsable (url message : string) :
  URL_new url = Throw message -> normalizeUrl url = Normal url.
Proof. unfold normalizeUrl. now intros ->. Qed.

Lemma normalizeUrl_normal (url : string) : exists normalized, normalizeUrl url = Normal normalized.
Proof. unfold normalizeUrl. destruct (URL_new url); eauto. Qed.

(** What the two assignments of [normalizeUrl] leave, for a URL class that
    keeps the laws [URLLaws]: an object that the next [normalizeUrl] would
    not change. *)
Lemma normalized_object `{!URLLaws U} (urlObj : U) :
  URL_object urlObj ->
  let cleared := URL_set_hash "" urlObj in
  let final := URL_set_pathname (replace_slash_runs (URL_pathname cleared)) cleared in
  URL_new (URL_toString final) = Normal final
  /\ URL_set_hash "" final = final
  /\ URL_set_pathname (replace_slash_runs (URL_pathname final)) final = final
  /\ (no_slash_run (URL_pathname final) = true \/ final = cleared).
Proof.
  intros Hobj cleared final.
  assert (Hcleared : URL_object cleared) by now constructor.
  assert (Hfinal : URL_object final) by now constructor.
  split; [exact (URL_reparse final Hfinal)|].
  split; [exact (URL_clear_hash_again urlObj Hobj)|].
  destruct (URL_set_collapsed_pathname cleared Hcleared) as [Hsame | Hnorun];
    fold final in Hsame || fold final in Hnorun.
  - split; [|now right]. rewrite Hsame. exact Hsame.
  - split; [|now left]. rewrite (replace_slash_runs_fixed _ Hnorun).
    exact (URL_set_own_pathname final Hfinal).
Qed.


(** C8.  Normalizing twice is normalizing once, for a URL class that keeps
    the laws [URLLaws]. *)
Theorem normalizeUrl_idempotent `{!URLLaws U} (url : string) :
  exists normalized,
    normalizeUrl url = Normal normalized /\ normalizeUrl normalized = Normal normalized.
Proof.
  unfold normalizeUrl at 1.
  destruct (URL_new url) as [urlObj|message] eqn:Hparse.
  - eexists. split; [reflexivity|].
    assert (Hobj : URL_object urlObj) by (econstructor; eassumption).
    destruct (normalized_object urlObj Hobj) as (Hagain & Hhash & Hpath & _).
    unfold normalizeUrl. rewrite Hagain, Hhash, Hpath. reflexivity.
  - exists url. split; [reflexivity|]. now rewrite (normalizeUrl_unparsable url message).
Qed.

End Normalization.



(** Witness of C8: the reference class, on a URL with a fragment and with
    slash runs. *)
Lemma normalizeUrl_idempotent_witness :
  exists normalized,
    @normalizeUrl _ HttpURL.api "http://example.com//a///b#top" = Normal normalized
    /\ @normalizeUrl _ HttpURL.api normalized = Normal normalized.
Proof. exact (@normalizeUrl_idempotent _ HttpURL.api HttpURLFacts.laws _). Defined.

(** ** Maps *)

Section MapFacts.
Context {K V : Type} `{EqDecision K}.
Implicit Types (m : JSMap K V) (k : K) (v : V).

Lemma Map_get_None m k : Map_get k m = None <-> k ∉ Map_keys m.
Proof.
  induction m as [|[k' v'] m IH]; simpl.
  - split; [intros _; apply not_elem_of_nil | reflexivity].
  - rewrite not_elem_of_cons. destruct (decide (k' = k)) as [->|Hne].
    + split; [discriminate | intros [Hk _]; contradiction].
    + rewrite IH. split; [intros Hk; split; [congruence | exact Hk] | now intros [_ Hk]].
Qed.

Lemma Map_get_Some_key m k v : Map_get k m = Some v -> k ∈ Map_keys m.
Proof.
  intros Hget. destruct (decide (k ∈ Map_keys m)) as [|Hnot]; [assumption|].
  apply Map_get_None in Hnot. congruence.
Qed.



Lemma Map_get_set m k k' v :
  Map_get k' (Map_set k v m) = if decide (k = k') then Some v else Map_get k' m.
Proof.
  induction m as [|[k0 v0] m IH]; simpl.
  - reflexivity.
  - destruct (decide (k0 = k)) as [->|Hne]; simpl.
    + destruct (decide (k = k')); reflexivity.
    + rewrite IH. destruct (decide (k0 = k')) as [->|]; [|reflexivity].
      now rewrite decide_False.
Qed.

Lemma Map_keys_set_old m k v : k ∈ Map_keys m -> Map_keys (Map_set k v m) = Map_keys m.
Proof.
  induction m as [|[k0 v0] m IH]; simpl.
  - intros Hin. now apply elem_of_nil in Hin.
  - destruct (decide (k0 = k)) as [->|Hne]; simpl; [reflexivity|].
    intros [->|Hin]%elem_of_cons; [contradiction|]. now rewrite IH.
Qed.

Lemma Map_keys_set_new m k v :
  k ∉ Map_keys m -> Map_keys (Map_set k v m) = (Map_keys m ++ [k])%list.
Proof.
  induction m as [|[k0 v0] m IH]; simpl; [reflexivity|].
  intros [Hne Hnot]%not_elem_of_cons.
  rewrite decide_False by congruence. simpl. now rewrite IH.
Qed.

Lemma Map_keys_set_elem_of m k k' v :
  k' ∈ Map_keys (Map_set k v m) <-> k' = k \/ k' ∈ Map_keys m.
Proof.
  destruct (decide (k ∈ Map_keys m)) as [Hin|Hnot].
  - rewrite Map_keys_set_old by assumption.
    split; [now right | intros [->|]; assumption].
  - rewrite Map_keys_set_new by assumption.
    rewrite elem_of_app, list_elem_of_singleton. tauto.
Qed.

Lemma Map_set_NoDup m k v : NoDup (Map_keys m) -> NoDup (Map_keys (Map_set k v m)).
Proof.
  intros Hnodup. destruct (decide (k ∈ Map_keys m)) as [Hin|Hnot].
  - now rewrite Map_keys_set_old.
  - rewrite Map_keys_set_new by assumption.
    apply NoDup_app. split; [exact Hnodup|]. split.
    + intros x Hx ->%list_elem_of_singleton. contradiction.
    + apply NoDup_singleton.
Qed.

Lemma Map_size_keys m : Map_size m = length (Map_keys m).
Proof. unfold Map_size, Map_keys. now rewrite length_map. Qed.

Lemma Map_keys_delete_elem_of m k k' :
  k' ∈ Map_keys (Map_delete k m) -> k' ∈ Map_keys m.
Proof.
  induction m as [|[k0 v0] m IH]; simpl; [auto|].
  destruct (decide (k0 = k)) as [->|Hne]; simpl.
  - apply list_elem_of_further.
  - rewrite !elem_of_cons. intros [->|Hin]; [now left | right; auto].
Qed.

Lemma Map_delete_NoDup m k : NoDup (Map_keys m) -> NoDup (Map_keys (Map_delete k m)).
Proof.
  induction m as [|[k0 v0] m IH]; simpl; [auto|].
  intros [Hfresh Hnodup]%NoDup_cons.
  destruct (decide (k0 = k)) as [->|Hne]; simpl; [assumption|].
  apply NoDup_cons. split; [|auto].
  intros Hin. apply Hfresh. eapply Map_keys_delete_elem_of, Hin.
Qed.

Lemma Map_get_delete m k k' :
  NoDup (Map_keys m) ->
  Map_get k' (Map_delete k m) = if decide (k = k') then None else Map_get k' m.
Proof.
  induction m as [|[k0 v0] m IH]; simpl.
  - intros _. now destruct (decide (k = k')).
  - intros [Hfresh Hnodup]%NoDup_cons.
    destruct (decide (k0 = k)) as [->|Hne]; simpl.
    + destruct (decide (k = k')) as [<-|]; [|reflexivity].
      now apply Map_get_None.
    + rewrite IH by assumption. destruct (decide (k0 = k')) as [->|]; [|reflexivity].
      now rewrite decide_False by congruence.
Qed.

End MapFacts.

(** ** The crawler *)

Section CrawlerFacts.
Context {U : Type} `{URLApi U} (env : Env).

(** *** Admission to the frontier *)

Lemma shouldProcessUrl_admissible (url : string) (baseUrlObj : U)
    (options : SpiderCrawlOptions.t) (this : SpiderCrawl) :
  shouldProcessUrl url baseUrlObj options this = true
  <-> admissible url baseUrlObj options (visitedUrls this).
Proof.
  unfold shouldProcessUrl, admissible.
  destruct (bool_decide (url ∈ visitedUrls this)) eqn:Hvisited.
  { apply bool_decide_eq_true in Hvisited. split; [discriminate | now intros [Hnot _]]. }
  apply bool_decide_eq_false in Hvisited.
  destruct (URL_new url) as [urlObj|message].
  2: { split; [discriminate | intros (_ & u & Hu & _); discriminate]. }
  set (excl := default [] (SpiderCrawlOptions.excludePatterns options)).
  set (incl := default [] (SpiderCrawlOptions.includePatterns options)).
  assert (Hexcl : existsb (includes url) excl = false
                  <-> forall pattern, In pattern excl -> ~ is_substring pattern url).
  { rewrite <- not_true_iff_false, existsb_exists. split.
    - intros Hnone pattern Hin Hsub. apply Hnone. exists pattern.
      split; [exact Hin | now apply includes_is_substring].
    - intros Hnone (pattern & Hin & Hinc). apply (Hnone pattern Hin).
      now apply includes_is_substring. }
  assert (Hincl : (0 <? Z.of_nat (length incl)) && negb (existsb (includes url) incl) = false
                  <-> incl = [] \/ exists pattern, In pattern incl /\ is_substring pattern url).
  { rewrite andb_false_iff, negb_false_iff, existsb_exists. split.
    - intros [Hlen | (pattern & Hin & Hinc)].
      + left. destruct incl; [reflexivity | discriminate].
      + right. exists pattern. split; [exact Hin | now apply includes_is_substring].
    - intros [-> | (pattern & Hin & Hsub)]; [now left | right].
      exists pattern. split; [exact Hin | now apply includes_is_substring]. }
  assert (Hdom : truthy (SpiderCrawlOptions.sameDomain options)
                 && negb (String.eqb (URL_hostname urlObj) (URL_hostname baseUrlObj)) = false
                 <-> truthy (SpiderCrawlOptions.sameDomain options) = false
                     \/ URL_hostname urlObj = URL_hostname baseUrlObj).
  { now rewrite andb_false_iff, negb_false_iff, String.eqb_eq. }
  split.
  - intros Hok. split; [exact Hvisited|]. exists urlObj. split; [reflexivity|].
    destruct (truthy _ && negb _) eqn:Hd; [discriminate|].
    destruct (existsb (includes url) excl) eqn:He; [discriminate|].
    destruct ((0 <? _) && negb _) eqn:Hi; [discriminate|].
    split; [now apply Hdom|]. split; [now apply Hexcl | now apply Hincl].
  - intros (_ & u & [= <-] & Hd & He & Hi).
    apply Hdom in Hd. apply Hexcl in He. apply Hincl in Hi.
    now rewrite Hd, He, Hi.
Qed.

(** [shouldProcessUrl] reads [visitedUrls] only. *)
Lemma shouldProcessUrl_visited (url : string) (baseUrlObj : U)
    (options : SpiderCrawlOptions.t) (this that : SpiderCrawl) :
  visitedUrls this = visitedUrls that ->
  shouldProcessUrl url baseUrlObj options this = shouldProcessUrl url baseUrlObj options that.
Proof. unfold shouldProcessUrl. now intros ->. Qed.

(** *** [processUrl] after its [await] *)

Lemma enqueue_loop (links : list LinkData.t) (baseUrlObj : U)
    (options : SpiderCrawlOptions.t) (this : SpiderCrawl) :
  for_of links (fun link =>
    (let! newUrl := lift (normalizeUrl (LinkData.url link)) in
     let! wanted := gets (shouldProcessUrl newUrl baseUrlObj options) in
     if wanted : bool then modify (queue_push newUrl) else ret tt)%method) this
  = (Normal tt,
     with_queue (queue this ++ admitted_links links baseUrlObj options this)%list this).
Proof.
  revert this. induction links as [|link links IH]; intros this; simpl.
  - unfold ret, with_queue. rewrite app_nil_r. now destruct this.
  - unfold bind at 1. unfold bind at 1, lift.
    destruct (normalizeUrl_normal (LinkData.url link)) as [newUrl ->].
    unfold bind at 1, gets.
    destruct (shouldProcessUrl newUrl baseUrlObj options this) eqn:Hwanted.
    + unfold modify. rewrite IH. f_equal. unfold with_queue. simpl.
      assert (Hsame : admitted_links links baseUrlObj options (queue_push newUrl this)
                      = admitted_links links baseUrlObj options this).
      { unfold admitted_links. apply flat_map_ext. intros link'.
        destruct (normalizeUrl (LinkData.url link')); [|reflexivity].
        now rewrite (shouldProcessUrl_visited _ _ _ _ this). }
      rewrite Hsame, <- app_assoc. reflexivity.
    + unfold ret. rewrite IH. reflexivity.
Qed.


Lemma processUrl_resume_state (url : string) (baseUrlObj : U)
    (options : SpiderCrawlOptions.t) (awaited : completion CrawlResult.t)
    (this : SpiderCrawl) :
  processUrl_resume url baseUrlObj options awaited this
  = (Normal tt,
     match awaited with
     | Normal result =>
         match CrawlResult.success result, CrawlResult.data result with
         | true, Some links =>
             with_queue (queue this ++ admitted_links links baseUrlObj options this)%list
                        (linkMap_set url links this)
         | _, _ => this
         end
     | Throw _ => this
     end).
Proof.
  unfold processUrl_resume, try_catch, bind at 1, lift.
  destruct awaited as [result|message]; [|reflexivity].
  destruct (CrawlResult.success result); [|reflexivity].
  destruct (CrawlResult.data result) as [links|]; [|reflexivity].
  unfold bind at 1. unfold modify at 1. rewrite enqueue_loop. reflexivity.
Qed.

(** A fetch that yields no links leaves every field as it is. *)
Lemma processUrl_resume_failed (url : string) (baseUrlObj : U)
    (options : SpiderCrawlOptions.t) (this : SpiderCrawl) :
  fetch_ok env url = false ->
  processUrl_resume url baseUrlObj options (webCrawl_crawl env url) this = (Normal tt, this).
Proof.
  unfold fetch_ok. rewrite processUrl_resume_state.
  destruct (webCrawl_crawl env url) as [result|]; [|reflexivity].
  destruct (CrawlResult.success result); [|reflexivity].
  destruct (CrawlResult.data result); [|reflexivity].
  cbn [andb]. intros Hnone%bool_decide_eq_false. exfalso. apply Hnone. eauto.
Qed.

Lemma processUrl_resume_fetched (url : string) (baseUrlObj : U)
    (options : SpiderCrawlOptions.t) (this : SpiderCrawl) :
  fetch_ok env url = true ->
  exists links,
    processUrl_resume url baseUrlObj options (webCrawl_crawl env url) this
    = (Normal tt,
       with_queue (queue this ++ admitted_links links baseUrlObj options this)%list
                  (linkMap_set url links this)).
Proof.
  unfold fetch_ok. rewrite processUrl_resume_state.
  destruct (webCrawl_crawl env url) as [result|]; [|discriminate].
  destruct (CrawlResult.success result); [|discriminate].
  destruct (CrawlResult.data result) as [links|]; [eauto|].
  cbn [andb]. intros [? ?]%bool_decide_eq_true. discriminate.
Qed.

(** What a run of continuations does to the fields the invariants speak of. *)
Lemma resume_loop (urls : list string) (baseUrlObj : U)
    (options : SpiderCrawlOptions.t) (this : SpiderCrawl) :
  exists this',
    for_of urls (fun url =>
      processUrl_resume url baseUrlObj options (webCrawl_crawl env url)) this
    = (Normal tt, this')
    /\ visitedUrls this' = visitedUrls this
    /\ trace this' = trace this
    /\ (NoDup (Map_keys (linkMap this)) -> NoDup (Map_keys (linkMap this')))
    /\ (forall url, url ∈ Map_keys (linkMap this')
                    <-> url ∈ Map_keys (linkMap this)
                        \/ (url ∈ urls /\ fetch_ok env url = true)).
Proof.
  revert this. induction urls as [|url urls IH]; intros this; simpl.
  - exists this. do 3 (split; [reflexivity|]). split; [auto|].
    intros url. split; [now left|].
    intros [Hin | [Hin _]]; [assumption | now apply elem_of_nil in Hin].
  - unfold bind.
    destruct (fetch_ok env url) eqn:Hok.
    + destruct (processUrl_resume_fetched url baseUrlObj options this Hok) as [links ->].
      destruct (IH (with_queue (queue this ++ admitted_links links baseUrlObj options this)%list
                               (linkMap_set url links this)))
        as (this' & -> & Hvisited & Htrace & Hnodup & Hkeys).
      exists this'. simpl in *. do 3 (split; [assumption || reflexivity|]).
      split; [intros Hn; now apply Hnodup, Map_set_NoDup|].
      intros url'. rewrite Hkeys, Map_keys_set_elem_of, elem_of_cons. split.
      * intros [[->|Hin] | [Hin Hf]]; auto.
      * intros [Hin | [[->|Hin] Hf]]; auto.
    + rewrite (processUrl_resume_failed url baseUrlObj options this Hok).
      destruct (IH this) as (this' & -> & Hvisited & Htrace & Hnodup & Hkeys).
      exists this'. do 3 (split; [assumption || reflexivity|]).
      split; [assumption|].
      intros url'. rewrite Hkeys, elem_of_cons. split.
      * intros [Hin | [Hin Hf]]; auto.
      * intros [Hin | [[->|Hin] Hf]]; auto. congruence.
Qed.

End CrawlerFacts.

(** *** The gate and the batch *)

#[local] Set Warnings "-clear-no-such-hyp".

Section BatchFacts.
Context {U : Type} `{URLApi U} (env : Env).

Lemma trace_of_app (urls urls' : list string) :
  trace_of (urls ++ urls') = (trace_of urls ++ trace_of urls')%list.
Proof. unfold trace_of. apply flat_map_app. Qed.

(** The gate either skips the URL and changes nothing, or lets the URL in:
    the URL was not visited, the visited set was below the budget, the URL
    is inserted and its fetch is called. *)
Lemma processUrl_begin_cases (url : string) (options : SpiderCrawlOptions.t)
    (this : SpiderCrawl) :
  (processUrl_begin url options this = (Normal false, this)
   /\ ((url ∈ visitedUrls this) \/ page_budget options <= Z.of_nat (size (visitedUrls this))))
  \/ (exists this',
        processUrl_begin url options this = (Normal true, this')
        /\ (url ∉ visitedUrls this)
        /\ Z.of_nat (size (visitedUrls this)) < page_budget options
        /\ visitedUrls this' = visitedUrls this ∪ {[url]}
        /\ trace this' = (trace this ++ [Added url; Fetched url])%list
        /\ linkMap this' = linkMap this
        /\ queue this' = queue this).
Proof.
  unfold processUrl_begin, page_budget. rewrite at_least_ceiling.
  destruct (bool_decide (url ∈ visitedUrls this)) eqn:Hvisited; simpl.
  - left. split; [reflexivity|]. left. now apply bool_decide_eq_true in Hvisited.
  - apply bool_decide_eq_false in Hvisited.
    destruct (Z.of_nat (size (visitedUrls this)) >=? _) eqn:Hfull.
    + left. split; [reflexivity|]. right. lia.
    + right. eexists. split; [reflexivity|]. simpl. repeat split; [assumption | lia].
Qed.

(** The batch up to the [await]: the URLs in flight are pairwise distinct,
    none was visited before, all of them are visited now, and the trace
    grew by their insertions and fetches. *)
Lemma begin_batch_state (batch : list string) (options : SpiderCrawlOptions.t)
    (this : SpiderCrawl) :
  exists inFlight this',
    begin_batch batch options this = (Normal inFlight, this')
    /\ NoDup inFlight
    /\ (forall url, url ∈ inFlight -> (url ∉ visitedUrls this) /\ (url ∈ batch))
    /\ visitedUrls this' = visitedUrls this ∪ list_to_set inFlight
    /\ trace this' = (trace this ++ trace_of inFlight)%list
    /\ linkMap this' = linkMap this
    /\ queue this' = queue this
    /\ (inFlight <> [] -> Z.of_nat (size (visitedUrls this')) <= page_budget options).
Proof.
  revert this. induction batch as [|url batch IH]; intros this; simpl.
  - exists [], this. split; [reflexivity|]. split; [constructor|].
    split; [intros url Hin; now apply elem_of_nil in Hin|].
    split; [simpl; set_solver|]. split; [simpl; now rewrite app_nil_r|].
    repeat split; congruence.
  - unfold bind at 1.
    destruct (processUrl_begin_cases url options this)
      as [[-> Hskip] | (mid & -> & Hfresh & Hroom & Hvisited & Htrace & Hmap & Hqueue)].
    + destruct (IH this) as (inFlight & this' & Hrun & Hnodup & Hin & Hv & Ht & Hm & Hq & Hb).
      unfold bind at 1. rewrite Hrun. exists inFlight, this'.
      split; [reflexivity|]. split; [assumption|].
      split; [intros u Hu; destruct (Hin u Hu); split; [assumption | now apply list_elem_of_further]|].
      repeat split; assumption.
    + destruct (IH mid) as (inFlight & this' & Hrun & Hnodup & Hin & Hv & Ht & Hm & Hq & Hb).
      unfold bind at 1. rewrite Hrun. exists (url :: inFlight), this'.
      split; [reflexivity|].
      split.
      { apply NoDup_cons. split; [|assumption].
        intros Hu. destruct (Hin url Hu) as [Hnot _]. apply Hnot. rewrite Hvisited. set_solver. }
      split.
      { intros u [->|Hu]%elem_of_cons.
        - split; [assumption | apply list_elem_of_here].
        - destruct (Hin u Hu) as [Hnot Hbatch]. split; [|now apply list_elem_of_further].
          intros Hold. apply Hnot. rewrite Hvisited. set_solver. }
      split; [rewrite Hv, Hvisited; simpl; set_solver|].
      split; [rewrite Ht, Htrace; simpl; now rewrite <- app_assoc|].
      split; [congruence|]. split; [congruence|].
      intros _. destruct inFlight as [|u inFlight]; [|apply Hb; discriminate].
      rewrite Hv, Hvisited. simpl. rewrite union_empty_r_L.
      rewrite size_union by set_solver. rewrite size_singleton. lia.
Qed.


Lemma processBatch_state (depth : Z) (batch : list string) (baseUrlObj : U)
    (options : SpiderCrawlOptions.t) (this : SpiderCrawl) :
  exists inFlight this',
    processBatch env depth batch baseUrlObj options this = (Normal tt, this')
    /\ NoDup inFlight
    /\ (forall url, url ∈ inFlight -> (url ∉ visitedUrls this) /\ (url ∈ batch))
    /\ visitedUrls this' = visitedUrls this ∪ list_to_set inFlight
    /\ trace this' = (trace this ++ trace_of inFlight)%list
    /\ (inFlight <> [] -> Z.of_nat (size (visitedUrls this')) <= page_budget options)
    /\ (NoDup (Map_keys (linkMap this)) -> NoDup (Map_keys (linkMap this')))
    /\ (forall url, url ∈ Map_keys (linkMap this')
                    <-> (url ∈ Map_keys (linkMap this))
                        \/ ((url ∈ settle_order env depth inFlight)
                            /\ fetch_ok env url = true)).
Proof.
  unfold processBatch, bind.
  destruct (begin_batch_state batch options this)
    as (inFlight & mid & -> & Hnodup & Hin & Hv & Ht & Hm & Hq & Hb).
  destruct (resume_loop env (settle_order env depth inFlight) baseUrlObj options mid)
    as (this' & -> & Hv' & Ht' & Hn' & Hk').
  exists inFlight, this'. split; [reflexivity|]. split; [assumption|].
  split; [assumption|]. split; [congruence|]. split; [congruence|].
  split; [rewrite Hv'; assumption|]. rewrite Hm in Hn', Hk'. split; assumption.
Qed.

(** One batch keeps the dedup invariant and only adds to the visited set. *)
Lemma processBatch_dedup (depth : Z) (batch : list string) (baseUrlObj : U)
    (options : SpiderCrawlOptions.t) (this : SpiderCrawl) :
  dedup_invariant options this ->
  exists this',
    processBatch env depth batch baseUrlObj options this = (Normal tt, this')
    /\ dedup_invariant options this'
    /\ visitedUrls this ⊆ visitedUrls this'
    /\ (size (visitedUrls this) <= size (visitedUrls this'))%nat.
Proof.
  intros ((urls & Hnodup & Htrace & Hvisited) & Hkeys & Hbudget).
  destruct (processBatch_state depth batch baseUrlObj options this)
    as (inFlight & this' & Hrun & Hfresh & Hin & Hv & Ht & Hb & Hn & _).
  exists this'. split; [assumption|].
  assert (Hsub : visitedUrls this ⊆ visitedUrls this') by (rewrite Hv; set_solver).
  split; [|split; [assumption | now apply subseteq_size]].
  split; [|split; [auto|]].
  - exists (urls ++ inFlight)%list. split; [|split].
    + apply NoDup_app. split; [assumption|]. split; [|assumption].
      intros url Hold Hnew. destruct (Hin url Hnew) as [Hnot _].
      apply Hnot. rewrite Hvisited. now apply elem_of_list_to_set.
    + now rewrite Ht, Htrace, trace_of_app.
    + rewrite Hv, Hvisited. now rewrite list_to_set_app_L.
  - destruct inFlight as [|url inFlight].
    + rewrite Hv. simpl. now rewrite union_empty_r_L.
    + assert (url :: inFlight <> []) as Hne by discriminate. specialize (Hb Hne). lia.
Qed.

(** If every fetch in flight settles, one batch keeps the link map at the
    visited URLs whose fetch yielded links. *)
Lemma processBatch_links (depth : Z) (batch : list string) (baseUrlObj : U)
    (options : SpiderCrawlOptions.t) (this : SpiderCrawl) :
  settles_all env -> links_invariant env this ->
  links_invariant env (snd (processBatch env depth batch baseUrlObj options this)).
Proof.
  intros Hsettle Hlinks.
  destruct (processBatch_state depth batch baseUrlObj options this)
    as (inFlight & this' & -> & Hfresh & Hin & Hv & Ht & Hb & Hn & Hk).
  simpl. intros url. rewrite Hk, Hv, (Hlinks url), elem_of_union, elem_of_list_to_set.
  rewrite (Hsettle depth inFlight). tauto.
Qed.


(** *** The loop and the run *)

Lemma processQueue_loop_turn (baseUrlObj : U) (options : SpiderCrawlOptions.t)
    (turns : nat) (depth : Z) (maxDepth : number) (this : SpiderCrawl) :
  processQueue_loop env (S turns) depth maxDepth baseUrlObj options this
  = if (0 <? Z.of_nat (length (queue this))) && (depth <? Qceiling maxDepth) then
      match processBatch env depth (queue this) baseUrlObj options (queue_clear this) with
      | (Normal _, mid) =>
          processQueue_loop env turns (depth + 1) maxDepth baseUrlObj options mid
      | (Throw message, mid) => (Throw message, mid)
      end
    else (Normal tt, this).
Proof. rewrite <- is_below_ceiling. reflexivity. Qed.

(** The loop keeps what every batch keeps, and it returns. *)
Lemma processQueue_loop_keeps (P : SpiderCrawl -> Prop) (baseUrlObj : U)
    (options : SpiderCrawlOptions.t) :
  (forall this, P this -> P (queue_clear this)) ->
  (forall depth batch this,
     P this -> P (snd (processBatch env depth batch baseUrlObj options this))) ->
  forall turns depth maxDepth this,
    P this ->
    exists this',
      processQueue_loop env turns depth maxDepth baseUrlObj options this = (Normal tt, this')
      /\ P this'.
Proof.
  intros Hclear Hbatch. induction turns as [|turns IH]; intros depth maxDepth this HP.
  - now exists this.
  - rewrite processQueue_loop_turn.
    destruct ((0 <? Z.of_nat (length (queue this))) && (depth <? Qceiling maxDepth)).
    + specialize (Hbatch depth (queue this) (queue_clear this) (Hclear this HP)).
      destruct (processBatch_state depth (queue this) baseUrlObj options (queue_clear this))
        as (inFlight & mid & Hrun & _).
      rewrite Hrun in *. simpl in Hbatch. now apply IH.
    + now exists this.
Qed.

(** [maxDepth - depth] turns are all the loop takes: more turns change
    nothing. *)
Lemma processQueue_loop_turns_enough (baseUrlObj : U) (options : SpiderCrawlOptions.t)
    (turns more : nat) (depth : Z) (maxDepth : number) (this : SpiderCrawl) :
  (Z.to_nat (Qceiling maxDepth - depth) <= turns)%nat ->
  processQueue_loop env (turns + more) depth maxDepth baseUrlObj options this
  = processQueue_loop env turns depth maxDepth baseUrlObj options this.
Proof.
  revert depth this. induction turns as [|turns IH]; intros depth this Hturns.
  - destruct more as [|more]; [reflexivity|].
    change (0 + S more)%nat with (S more). rewrite processQueue_loop_turn.
    replace (depth <? Qceiling maxDepth) with false by lia. now rewrite andb_false_r.
  - change (S turns + more)%nat with (S (turns + more)). rewrite !processQueue_loop_turn.
    destruct ((0 <? Z.of_nat (length (queue this))) && (depth <? Qceiling maxDepth)); [|reflexivity].
    destruct (processBatch env depth (queue this) baseUrlObj options (queue_clear this))
      as [[[]|message] mid]; [|reflexivity].
    apply IH. lia.
Qed.

Lemma crawl_invalid (url message : string) (options : SpiderCrawlOptions.argument)
    (this : SpiderCrawl) :
  URL_new url = Throw message ->
  crawl env url options this = (Normal (failed_result url message), reset this).
Proof.
  intros Hparse. unfold crawl, try_catch, bind at 1. unfold modify at 1.
  unfold bind at 1, lift. rewrite (normalizeUrl_unparsable url message Hparse).
  unfold bind at 1. now rewrite Hparse.
Qed.

(** A run from a start URL that parses: the result the caller gets, read
    off the fields the loop leaves. *)
Lemma crawl_valid (P : SpiderCrawl -> Prop) (url baseUrl : string) (baseUrlObj : U)
    (options : SpiderCrawlOptions.argument) (this : SpiderCrawl) :
  normalizeUrl url = Normal baseUrl ->
  URL_new baseUrl = Normal baseUrlObj ->
  let finalOptions := SpiderCrawlOptions.spread SpiderCrawlOptions.defaultOptions options in
  (forall this, P this -> P (queue_clear this)) ->
  (forall depth batch this,
     P this -> P (snd (processBatch env depth batch baseUrlObj finalOptions this))) ->
  P (queue_push baseUrl (reset this)) ->
  exists this',
    crawl env url options this
    = (Normal {| SpiderCrawlResult.success := true;
                 SpiderCrawlResult.linkMap := linkMap this';
                 SpiderCrawlResult.totalPages := size (visitedUrls this');
                 SpiderCrawlResult.totalLinks := getTotalLinks this';
                 SpiderCrawlResult.error := None;
                 SpiderCrawlResult.baseUrl := baseUrl |}, this')
    /\ P this'.
Proof.
  intros Hnorm Hparse finalOptions Hclear Hbatch Hstart.
  unfold crawl, try_catch, bind at 1. unfold modify at 1.
  unfold bind at 1, lift. rewrite Hnorm. unfold bind at 1. rewrite Hparse.
  unfold bind at 1. unfold modify at 1. unfold bind at 1. unfold processQueue.
  destruct (processQueue_loop_keeps P baseUrlObj finalOptions Hclear Hbatch
              (Z.to_nat (Qceiling (number_or (SpiderCrawlOptions.maxDepth finalOptions) 3))) 0
              (number_or (SpiderCrawlOptions.maxDepth finalOptions) 3)
              (queue_push baseUrl (reset this)) Hstart) as (this' & Hrun & HP).
  fold finalOptions. rewrite Hrun. exists this'. split; [reflexivity | assumption].
Qed.

End BatchFacts.

(** *** The next frontier *)

Section Frontier.
Context {U : Type} `{URLApi U} (env : Env).

Lemma elem_of_flat_map {A B : Type} (f : A -> list B) (l : list A) (y : B) :
  y ∈ flat_map f l <-> exists x, x ∈ l /\ y ∈ f x.
Proof.
  rewrite list_elem_of_In, in_flat_map. split; intros (x & Hx & Hy); exists x.
  - now rewrite !list_elem_of_In.
  - now rewrite <- !list_elem_of_In.
Qed.

Lemma admitted_links_visited (links : list LinkData.t) (baseUrlObj : U)
    (options : SpiderCrawlOptions.t) (this that : SpiderCrawl) :
  visitedUrls this = visitedUrls that ->
  admitted_links links baseUrlObj options this = admitted_links links baseUrlObj options that.
Proof.
  intros Hsame. unfold admitted_links. apply flat_map_ext. intros link.
  destruct (normalizeUrl (LinkData.url link)); [|reflexivity].
  now rewrite (shouldProcessUrl_visited _ _ _ _ that Hsame).
Qed.

Lemma elem_of_admitted_links (links : list LinkData.t) (baseUrlObj : U)
    (options : SpiderCrawlOptions.t) (this : SpiderCrawl) (newUrl : string) :
  newUrl ∈ admitted_links links baseUrlObj options this
  <-> exists link, link ∈ links
                   /\ normalizeUrl (LinkData.url link) = Normal newUrl
                   /\ admissible newUrl baseUrlObj options (visitedUrls this).
Proof.
  unfold admitted_links. rewrite elem_of_flat_map. split.
  - intros (link & Hlink & Hnew). exists link.
    destruct (normalizeUrl (LinkData.url link)) as [candidate|];
      [|now apply elem_of_nil in Hnew].
    destruct (shouldProcessUrl candidate baseUrlObj options this) eqn:Hwanted;
      [|now apply elem_of_nil in Hnew].
    apply list_elem_of_singleton in Hnew as ->.
    split; [assumption|]. split; [reflexivity|]. now apply shouldProcessUrl_admissible.
  - intros (link & Hlink & Hnorm & Hadm). exists link. split; [assumption|].
    rewrite Hnorm. apply shouldProcessUrl_admissible in Hadm. rewrite Hadm.
    now apply list_elem_of_singleton.
Qed.

(** One continuation appends the admitted links of its page to the queue
    and leaves the visited set alone. *)
Lemma processUrl_resume_queue (url : string) (baseUrlObj : U)
    (options : SpiderCrawlOptions.t) (this : SpiderCrawl) :
  exists next,
    processUrl_resume url baseUrlObj options (webCrawl_crawl env url) this = (Normal tt, next)
    /\ visitedUrls next = visitedUrls this
    /\ queue next
       = (queue this ++ admitted_links (page_links env url) baseUrlObj options this)%list.
Proof.
  rewrite processUrl_resume_state. unfold page_links.
  destruct (webCrawl_crawl env url) as [result|message].
  - destruct (CrawlResult.success result).
    + destruct (CrawlResult.data result) as [links|]; eexists; (split; [reflexivity|]);
        simpl; split; try reflexivity. now rewrite app_nil_r.
    + eexists. split; [reflexivity|]. split; [reflexivity|]. simpl. now rewrite app_nil_r.
  - eexists. split; [reflexivity|]. split; [reflexivity|]. simpl. now rewrite app_nil_r.
Qed.

Lemma resume_loop_queue (urls : list string) (baseUrlObj : U)
    (options : SpiderCrawlOptions.t) (this : SpiderCrawl) :
  exists final,
    for_of urls (fun url =>
      processUrl_resume url baseUrlObj options (webCrawl_crawl env url)) this
    = (Normal tt, final)
    /\ visitedUrls final = visitedUrls this
    /\ queue final
       = (queue this
          ++ flat_map (fun url => admitted_links (page_links env url) baseUrlObj options this)
                      urls)%list.
Proof.
  revert this. induction urls as [|url urls IH]; intros this; simpl.
  - exists this. split; [reflexivity|]. split; [reflexivity|]. now rewrite app_nil_r.
  - unfold bind.
    destruct (processUrl_resume_queue url baseUrlObj options this)
      as (next & -> & Hvisited & Hqueue).
    destruct (IH next) as (final & -> & Hvisited' & Hqueue').
    exists final. split; [reflexivity|]. split; [congruence|].
    rewrite Hqueue', Hqueue, <- app_assoc. f_equal. f_equal.
    apply flat_map_ext. intros page. now apply admitted_links_visited.
Qed.

(** The frontier after a batch: what was on the queue, and the admissible
    normalized links of the pages fetched in the batch, judged against the
    visited set as the batch leaves it. *)
Lemma next_frontier (depth : Z) (batch : list string) (baseUrlObj : U)
    (options : SpiderCrawlOptions.t) (this : SpiderCrawl) :
  settles_all env ->
  let after := snd (processBatch env depth batch baseUrlObj options this) in
  forall newUrl,
    newUrl ∈ queue after
    <-> (newUrl ∈ queue this)
        \/ exists page link,
             ((page ∈ visitedUrls after) /\ (page ∉ visitedUrls this))
             /\ link ∈ page_links env page
             /\ normalizeUrl (LinkData.url link) = Normal newUrl
             /\ admissible newUrl baseUrlObj options (visitedUrls after).
Proof.
  intros Hsettle after newUrl. subst after. unfold processBatch, bind.
  destruct (begin_batch_state batch options this)
    as (inFlight & mid & -> & _ & Hin & Hv & _ & _ & Hq & _).
  destruct (resume_loop_queue (settle_order env depth inFlight) baseUrlObj options mid)
    as (final & -> & Hv' & Hq').
  simpl. rewrite Hq', Hq, elem_of_app, elem_of_flat_map, Hv'.
  assert (Hflight : forall page, page ∈ inFlight
                                 <-> (page ∈ visitedUrls mid) /\ (page ∉ visitedUrls this)).
  { intros page. rewrite Hv, elem_of_union, elem_of_list_to_set. split.
    - intros Hpage. split; [now right | now apply Hin].
    - intros [[Hold | Hnew] Hnot]; [contradiction | assumption]. }
  split.
  - intros [Hold | (page & Hpage & Hnew)]; [now left | right].
    rewrite (Hsettle depth inFlight) in Hpage.
    apply elem_of_admitted_links in Hnew as (link & Hlink & Hnorm & Hadm).
    exists page, link. split; [now apply Hflight|]. split; [assumption|]. now split.
  - intros [Hold | (page & link & Hpage & Hlink & Hnorm & Hadm)]; [now left | right].
    exists page. split; [rewrite (Hsettle depth inFlight); now apply Hflight|].
    apply elem_of_admitted_links. exists link. split; [assumption|]. now split.
Qed.

End Frontier.

(** *** Admission and failure *)

Section AdmissionAndFailure.
Context {U : Type} `{URLApi U} (env : Env).

Lemma crawl_unparsable_base (url baseUrl message : string) (options : SpiderCrawlOptions.argument)
    (this : SpiderCrawl) :
  normalizeUrl url = Normal baseUrl ->
  URL_new baseUrl = Throw message ->
  crawl env url options this = (Normal (failed_result url message), reset this).
Proof.
  intros Hnorm Hparse. unfold crawl, try_catch, bind at 1. unfold modify at 1.
  unfold bind at 1, lift. rewrite Hnorm. unfold bind at 1. now rewrite Hparse.
Qed.

(** C5.  A link discovered in a batch is admitted to the next frontier
    exactly if its normalized URL is admissible: not in the visited set,
    parsable, on the start URL's host unless [sameDomain] is off, free of
    every exclude pattern, and, if there are include patterns, holding one
    of them.  This holds for the queue after the continuation of one page,
    and, if every fetch in flight settles, for the queue after a whole
    batch, with the visited set as the dispatch of the batch leaves it.
    [shouldProcessUrl] decides admissibility, and it refuses a URL that
    does not parse. *)
Theorem frontier_admission (baseUrlObj : U) (options : SpiderCrawlOptions.t)
    (this : SpiderCrawl) :
  (forall url links,
     let this' := snd (processUrl_resume url baseUrlObj options (page_with links) this) in
     forall newUrl,
       newUrl ∈ queue this'
       <-> (newUrl ∈ queue this)
           \/ exists link, link ∈ links
                           /\ normalizeUrl (LinkData.url link) = Normal newUrl
                           /\ admissible newUrl baseUrlObj options (visitedUrls this))
  /\ (forall depth batch,
        settles_all env ->
        let after := snd (processBatch env depth batch baseUrlObj options this) in
        forall newUrl,
          newUrl ∈ queue after
          <-> (newUrl ∈ queue this)
              \/ exists page link,
                   ((page ∈ visitedUrls after) /\ (page ∉ visitedUrls this))
                   /\ link ∈ page_links env page
                   /\ normalizeUrl (LinkData.url link) = Normal newUrl
                   /\ admissible newUrl baseUrlObj options (visitedUrls after))
  /\ (forall newUrl,
        shouldProcessUrl newUrl baseUrlObj options this = true
        <-> admissible newUrl baseUrlObj options (visitedUrls this))
  /\ (forall newUrl message,
        URL_new newUrl = Throw message ->
        shouldProcessUrl newUrl baseUrlObj options this = false).
Proof.
  split; [|split; [|split]].
  - intros url links this' newUrl. subst this'.
    rewrite processUrl_resume_state. simpl.
    now rewrite elem_of_app, elem_of_admitted_links.
  - intros depth batch Hsettle. now apply next_frontier.
  - intros newUrl. apply shouldProcessUrl_admissible.
  - intros newUrl message Hparse. unfold shouldProcessUrl. rewrite Hparse.
    now destruct (bool_decide _).
Qed.

(** C6.  A page whose fetch fails leaves no trace but its URL in the
    visited set: [processUrl] returns normally, the link map and the queue
    are as before.  The run goes on: if every fetch in flight settles, each
    page of the batch whose fetch yields links gets its entry whatever
    becomes of the others, and from a start URL that parses [crawl] returns
    [success = true] whatever the fetches do.  A start URL that does not
    parse makes [crawl] return [success = false] with the parser's message,
    an empty link map and both totals zero. *)
Theorem crawl_failure_semantics :
  (forall url baseUrlObj options this,
     url ∉ visitedUrls this ->
     Z.of_nat (size (visitedUrls this)) < page_budget options ->
     fetch_ok env url = false ->
     exists this',
       processUrl env url baseUrlObj options this = (Normal tt, this')
       /\ linkMap this' = linkMap this
       /\ queue this' = queue this
       /\ url ∈ visitedUrls this')
  /\ (forall depth batch baseUrlObj options this,
        settles_all env ->
        let after := snd (processBatch env depth batch baseUrlObj options this) in
        forall page,
          page ∈ visitedUrls after -> page ∉ visitedUrls this ->
          fetch_ok env page = true ->
          page ∈ Map_keys (linkMap after))
  /\ (forall url baseUrl baseUrlObj options this,
        normalizeUrl url = Normal baseUrl ->
        URL_new baseUrl = Normal baseUrlObj ->
        exists result this',
          crawl env url options this = (Normal result, this')
          /\ SpiderCrawlResult.success result = true
          /\ SpiderCrawlResult.error result = None)
  /\ (forall url message options this,
        URL_new url = Throw message ->
        crawl env url options this
        = (Normal {| SpiderCrawlResult.success := false;
                     SpiderCrawlResult.linkMap := [];
                     SpiderCrawlResult.totalPages := 0;
                     SpiderCrawlResult.totalLinks := 0;
                     SpiderCrawlResult.error := Some message;
                     SpiderCrawlResult.baseUrl := url |},
           reset this)).
Proof.
  split; [|split; [|split]].
  - intros url baseUrlObj options this Hfresh Hroom Hfailed.
    unfold processUrl, bind.
    destruct (processUrl_begin_cases url options this)
      as [[_ [Hin | Hfull]] | (mid & -> & _ & _ & Hvisited & _ & Hmap & Hqueue)];
      [contradiction | lia |].
    rewrite (processUrl_resume_failed env url baseUrlObj options mid Hfailed).
    exists mid. split; [reflexivity|]. split; [assumption|]. split; [assumption|].
    rewrite Hvisited. set_solver.
  - intros depth batch baseUrlObj options this Hsettle after page Hnow Hbefore Hok.
    subst after.
    destruct (processBatch_state env depth batch baseUrlObj options this)
      as (inFlight & this' & Hrun & _ & _ & Hv & _ & _ & _ & Hkeys).
    rewrite Hrun in Hnow |- *. cbn [snd] in Hnow |- *.
    apply Hkeys. right. split; [|assumption].
    rewrite (Hsettle depth inFlight).
    rewrite Hv, elem_of_union, elem_of_list_to_set in Hnow.
    destruct Hnow as [Hold | Hnew]; [contradiction | assumption].
  - intros url baseUrl baseUrlObj options this Hnorm Hparse.
    destruct (crawl_valid env (fun _ => True) url baseUrl baseUrlObj options this Hnorm Hparse)
      as (this' & Hrun & _); try (intros; exact I).
    eexists _, this'. split; [exact Hrun|]. split; reflexivity.
  - intros url message options this Hparse.
    exact (crawl_unparsable_base url url message options this
             (normalizeUrl_unparsable url message Hparse) Hparse).
Qed.

End AdmissionAndFailure.

(** Witness of C6: the start URL ["nope"] is no URL of the reference class. *)
Lemma crawl_failure_semantics_witness :
  @crawl _ HttpURL.api unreachable_site "nope" SpiderCrawlOptions.empty new_SpiderCrawl
  = (Normal (failed_result "nope" "Invalid URL"), reset new_SpiderCrawl).
Proof.
  apply (proj2 (proj2 (proj2 (@crawl_failure_semantics _ HttpURL.api unreachable_site)))).
  reflexivity.
Defined.

(** *** Counting pages *)

Section PageCount.
Context {U : Type} `{URLApi U} (env : Env).

(** The link map of a run is within its visited set, and fills it exactly
    if no fetch failed. *)
Lemma links_within_visited (this : SpiderCrawl) :
  NoDup (Map_keys (linkMap this)) ->
  links_invariant env this ->
  (Map_size (linkMap this) <= size (visitedUrls this))%nat
  /\ (Map_size (linkMap this) = size (visitedUrls this)
      <-> forall url, url ∈ visitedUrls this -> fetch_ok env url = true).
Proof.
  intros Hnodup Hlinks. rewrite Map_size_keys.
  assert (Hsub : Map_keys (linkMap this) ⊆+ elements (visitedUrls this)).
  { apply NoDup_submseteq; [assumption|].
    intros url Hin. apply elem_of_elements. now apply Hlinks in Hin as [Hin _]. }
  split; [exact (submseteq_length _ _ Hsub)|]. split.
  - intros Hsize url Hin.
    assert (Hperm : Map_keys (linkMap this) ≡ₚ elements (visitedUrls this)).
    { apply submseteq_length_Permutation; [assumption|].
      unfold size, set_size in Hsize. simpl in Hsize. lia. }
    apply elem_of_elements in Hin. rewrite <- Hperm in Hin. now apply Hlinks in Hin.
  - intros Hall. apply Permutation_length, NoDup_Permutation;
      [assumption | apply NoDup_elements |].
    intros url. rewrite elem_of_elements, (Hlinks url). split; [tauto|].
    intros Hin. split; [assumption | now apply Hall].
Qed.

(** C1, amended.  If every fetch in flight settles, a run that succeeds
    reports as [totalPages] the size of the visited set, which counts the
    URLs whose fetch failed too.  The link map it returns has an entry
    exactly for the visited URLs whose fetch yielded links; so it has at
    most [totalPages] entries, and [totalPages] entries exactly if no fetch
    of the run failed. *)
Theorem totalPages_is_visited_size (url : string) (options : SpiderCrawlOptions.argument)
    (this this' : SpiderCrawl) (result : SpiderCrawlResult.t) :
  settles_all env ->
  crawl env url options this = (Normal result, this') ->
  SpiderCrawlResult.success result = true ->
  SpiderCrawlResult.totalPages result = size (visitedUrls this')
  /\ SpiderCrawlResult.linkMap result = linkMap this'
  /\ (forall page, page ∈ Map_keys (SpiderCrawlResult.linkMap result)
                   <-> (page ∈ visitedUrls this') /\ fetch_ok env page = true)
  /\ (Map_size (SpiderCrawlResult.linkMap result) <= SpiderCrawlResult.totalPages result)%nat
  /\ (Map_size (SpiderCrawlResult.linkMap result) = SpiderCrawlResult.totalPages result
      <-> forall page, page ∈ visitedUrls this' -> fetch_ok env page = true).
Proof.
  intros Hsettle Hrun Hsuccess.
  destruct (normalizeUrl_normal url) as [baseUrl Hnorm].
  destruct (URL_new baseUrl) as [baseUrlObj|message] eqn:Hparse.
  2: { rewrite (crawl_unparsable_base env url baseUrl message options this Hnorm Hparse) in Hrun.
       injection Hrun as <- <-. discriminate. }
  set (finalOptions := SpiderCrawlOptions.spread SpiderCrawlOptions.defaultOptions options).
  destruct (crawl_valid env
              (fun st => links_invariant env st /\ NoDup (Map_keys (linkMap st)))
              url baseUrl baseUrlObj options this Hnorm Hparse)
    as (final & Hrun' & Hlinks & Hnodup).
  - intros st Hst. exact Hst.
  - fold finalOptions. intros depth batch st [Hl Hn]. split; [now apply processBatch_links|].
    destruct (processBatch_state env depth batch baseUrlObj finalOptions st)
      as (inFlight & st' & -> & _ & _ & _ & _ & _ & Hkeep & _). now apply Hkeep.
  - split; [|constructor]. intros page. simpl. split.
    + intros Hin. now apply elem_of_nil in Hin.
    + intros [Hin _]. now apply not_elem_of_empty in Hin.
  - rewrite Hrun' in Hrun. injection Hrun as <- <-. simpl.
    split; [reflexivity|]. split; [reflexivity|]. split; [exact Hlinks|].
    now apply links_within_visited.
Qed.

(** C4, amended.  At the end of every run the trace is, for pairwise
    distinct URLs, one insertion into the visited set followed at once by
    the fetch of the same URL; these URLs are the visited set; no key is
    twice in the link map; and the visited set is within the page budget
    [maxPages || 100].  Every batch keeps all of this, and it only adds to
    the visited set. *)
Theorem dedup_and_budget (url : string) (options : SpiderCrawlOptions.argument)
    (this : SpiderCrawl) :
  let finalOptions := SpiderCrawlOptions.spread SpiderCrawlOptions.defaultOptions options in
  let this' := snd (crawl env url options this) in
  ((exists urls, NoDup urls /\ trace this' = trace_of urls
                 /\ visitedUrls this' = list_to_set urls)
   /\ NoDup (Map_keys (linkMap this'))
   /\ Z.of_nat (size (visitedUrls this')) <= Z.max 0 (page_budget finalOptions))
  /\ (forall depth batch baseUrlObj opts before,
        dedup_invariant opts before ->
        exists after,
          processBatch env depth batch baseUrlObj opts before = (Normal tt, after)
          /\ dedup_invariant opts after
          /\ visitedUrls before ⊆ visitedUrls after
          /\ (size (visitedUrls before) <= size (visitedUrls after))%nat).
Proof.
  intros finalOptions this'. split; [|intros; now apply processBatch_dedup].
  assert (Hstart : forall opts baseUrl,
             dedup_invariant opts (queue_push baseUrl (reset this))).
  { intros opts baseUrl. split; [|split]; simpl.
    - exists []. split; [constructor|]. split; reflexivity.
    - constructor.
    - change (0 <= Z.max 0 (page_budget opts)). lia. }
  change (dedup_invariant finalOptions this'). subst this'.
  destruct (normalizeUrl_normal url) as [baseUrl Hnorm].
  destruct (URL_new baseUrl) as [baseUrlObj|message] eqn:Hparse.
  - destruct (crawl_valid env (dedup_invariant finalOptions)
                url baseUrl baseUrlObj options this Hnorm Hparse)
      as (final & -> & Hfinal); [| |apply Hstart|exact Hfinal].
    + intros st Hst. exact Hst.
    + fold finalOptions. intros depth batch st Hst.
      destruct (processBatch_dedup env depth batch baseUrlObj finalOptions st Hst)
        as (st' & -> & Hst' & _). exact Hst'.
  - rewrite (crawl_unparsable_base env url baseUrl message options this Hnorm Hparse).
    exact (Hstart finalOptions "").
Qed.

End PageCount.

(** *** The crawler on the example site *)

Lemma small_site_settles : settles_all small_site.
Proof. intros depth urls. simpl. symmetry. apply Permutation_rev. Qed.

(** Counterexample to C1 as stated: on the example site the fetch of [/a]
    fails; the run reports three pages and returns a link map of two
    entries. *)
Lemma totalPages_counts_failed_fetches :
  ~ (forall (env : Env) (url : string) (options : SpiderCrawlOptions.argument)
            (this this' : SpiderCrawl) (result : SpiderCrawlResult.t),
       @crawl _ HttpURL.api env url options this = (Normal result, this') ->
       SpiderCrawlResult.success result = true ->
       SpiderCrawlResult.totalPages result = Map_size (SpiderCrawlResult.linkMap result)).
Proof.
  intros Hall.
  specialize (Hall small_site "http://example.com/" SpiderCrawlOptions.empty new_SpiderCrawl).
  destruct (@crawl _ HttpURL.api small_site "http://example.com/" SpiderCrawlOptions.empty
              new_SpiderCrawl) as [[result|message] this'] eqn:Hrun.
  - specialize (Hall this' result eq_refl).
    vm_compute in Hrun. injection Hrun as <- <-.
    specialize (Hall eq_refl). vm_compute in Hall. discriminate.
  - vm_compute in Hrun. discriminate.
Qed.

(** Witness of C1, amended: the run on the example site. *)
Lemma totalPages_is_visited_size_witness :
  let run := @crawl _ HttpURL.api small_site "http://example.com/" SpiderCrawlOptions.empty
               new_SpiderCrawl in
  exists result,
    fst run = Normal result
    /\ SpiderCrawlResult.totalPages result = size (visitedUrls (snd run))
    /\ (Map_size (SpiderCrawlResult.linkMap result) <= SpiderCrawlResult.totalPages result)%nat.
Proof.
  cbv zeta.
  destruct (@crawl _ HttpURL.api small_site "http://example.com/" SpiderCrawlOptions.empty
              new_SpiderCrawl) as [outcome this'] eqn:Hrun.
  destruct outcome as [result|message]; [|vm_compute in Hrun; discriminate].
  assert (Hsuccess : SpiderCrawlResult.success result = true).
  { vm_compute in Hrun. now injection Hrun as <- _. }
  exists result. split; [reflexivity|].
  destruct (@totalPages_is_visited_size _ HttpURL.api small_site _ _ _ _ _
              small_site_settles Hrun Hsuccess) as (Hpages & _ & _ & Hsize & _).
  split; assumption.
Defined.

(** Counterexample to C4 as stated: with [maxPages: 0] the gate compares
    with [0 || 100], and the run on the example site visits three URLs. *)
Lemma visited_exceeds_zero_maxPages :
  ~ (forall (env : Env) (url : string) (options : SpiderCrawlOptions.argument)
            (this : SpiderCrawl) (maxPages : number),
       SpiderCrawlOptions.own_maxPages options = Some (Some maxPages) ->
       Qle (inject_Z (Z.of_nat (size (visitedUrls
                                        (snd (@crawl _ HttpURL.api env url options this))))))
           maxPages).
Proof.
  intros Hall.
  specialize (Hall small_site "http://example.com/"
                {| SpiderCrawlOptions.own_maxDepth := None;
                   SpiderCrawlOptions.own_maxPages := Some (Some (inject_Z 0));
                   SpiderCrawlOptions.own_sameDomain := None;
                   SpiderCrawlOptions.own_excludePatterns := None;
                   SpiderCrawlOptions.own_includePatterns := None;
                   SpiderCrawlOptions.own_delay := None |}
                new_SpiderCrawl (inject_Z 0) eq_refl).
  vm_compute in Hall. now apply Hall.
Qed.

(** The same with a budget that is no integer: with [maxPages: 2.5] the
    gate is still open at two URLs, and the run visits three. *)
Lemma visited_exceeds_fractional_maxPages :
  let options :=
    {| SpiderCrawlOptions.own_maxDepth := None;
       SpiderCrawlOptions.own_maxPages := Some (Some (Qmake 5 2));
       SpiderCrawlOptions.own_sameDomain := None;
       SpiderCrawlOptions.own_excludePatterns := None;
       SpiderCrawlOptions.own_includePatterns := None;
       SpiderCrawlOptions.own_delay := None |} in
  size (visitedUrls (snd (@crawl _ HttpURL.api small_site "http://example.com/" options
                            new_SpiderCrawl))) = 3%nat
  /\ page_budget (SpiderCrawlOptions.spread SpiderCrawlOptions.defaultOptions options) = 3.
Proof. split; vm_compute; reflexivity. Qed.

(** *** The filtered views *)

(** What a filtered view holds for a page, given what the link map holds. *)
Lemma filtered_links_get (keep : LinkData.t -> bool) (this : SpiderCrawl) (page : string) :
  NoDup (Map_keys (linkMap this)) ->
  Map_get page (filtered_links keep this)
  = match Map_get page (linkMap this) with
    | Some links =>
        match List.filter keep links with
        | [] => None
        | kept => Some kept
        end
    | None => None
    end.
Proof.
  unfold filtered_links.
  assert (Hgen : forall (m acc : JSMap string (list LinkData.t)),
             NoDup (Map_keys m) ->
             (forall url, url ∈ Map_keys m -> url ∉ Map_keys acc) ->
             Map_get page
               (fold_left
                  (fun filteredMap '(url, links) =>
                     let kept := List.filter keep links in
                     if 0 <? Z.of_nat (length kept) then Map_set url kept filteredMap
                     else filteredMap) m acc)
             = match Map_get page m with
               | Some links =>
                   match List.filter keep links with
                   | [] => Map_get page acc
                   | kept => Some kept
                   end
               | None => Map_get page acc
               end).
  { induction m as [|[url links] m IH]; intros acc Hnodup Hfresh; simpl in *; [reflexivity|].
    apply NoDup_cons in Hnodup as [Hurl Hnodup].
    assert (Hacc : url ∉ Map_keys acc) by (apply Hfresh, list_elem_of_here).
    destruct (List.filter keep links) as [|link kept] eqn:Hkept; simpl.
    - rewrite IH; [|assumption|intros u Hu; apply Hfresh; now apply list_elem_of_further].
      destruct (decide (url = page)) as [->|Hne]; [|reflexivity].
      apply Map_get_None in Hurl. now rewrite Hurl, Hkept.
    - rewrite IH; [|assumption|].
      + rewrite Map_get_set.
        destruct (decide (url = page)) as [->|Hne]; [|reflexivity].
        apply Map_get_None in Hurl. now rewrite Hurl, Hkept.
      + intros u Hu. rewrite Map_keys_set_elem_of. intros [->|Hin]; [contradiction|].
        revert Hin. apply Hfresh. now apply list_elem_of_further. }
  intros Hnodup. rewrite Hgen; [|assumption|intros url _; apply not_elem_of_nil].
  destruct (Map_get page (linkMap this)) as [links|]; [|reflexivity].
  now destruct (List.filter keep links).
Qed.

(** C10.  In the internal view a page is mapped to those of its links that
    are internal, in their order, and it is no key of the view if none of
    its links is internal; likewise for the external view. *)
Theorem filtered_views (this : SpiderCrawl) (page : string) :
  NoDup (Map_keys (linkMap this)) ->
  Map_get page (getInternalLinks this)
  = match Map_get page (linkMap this) with
    | Some links =>
        match List.filter (fun link => LinkData.isInternal link) links with
        | [] => None
        | internalLinks => Some internalLinks
        end
    | None => None
    end
  /\ Map_get page (getExternalLinks this)
     = match Map_get page (linkMap this) with
       | Some links =>
           match List.filter (fun link => negb (LinkData.isInternal link)) links with
           | [] => None
           | externalLinks => Some externalLinks
           end
       | None => None
       end.
Proof.
  intros Hnodup. unfold getInternalLinks, getExternalLinks.
  split; now apply filtered_links_get.
Qed.

(** Witness of C10: a page whose links are all external is no key of the
    internal view, and is a key of the external one. *)
Lemma filtered_views_witness :
  Map_get "http://example.com/docs" (getInternalLinks after_two_pages) = None
  /\ Map_get "http://example.com/docs" (getExternalLinks after_two_pages)
     = Map_get "http://example.com/docs" (linkMap after_two_pages).
Proof.
  assert (Hnodup : NoDup (Map_keys (linkMap after_two_pages))).
  { simpl. repeat constructor; rewrite ?elem_of_cons, ?elem_of_nil; intuition discriminate. }
  destruct (filtered_views after_two_pages "http://example.com/docs" Hnodup) as [-> ->].
  split; reflexivity.
Defined.

(** ** The tab pool *)

Section PoolLifecycle.
Import PuppeteerController.

Lemma getTab_once_Got (w : World) (this after : t) (page : Page) :
  getTab_once w this = (Normal (Got page), after) -> getTab w this = (Normal page, after).
Proof. intros Honce. unfold getTab, bind. now rewrite Honce. Qed.

Lemma getTab_once_Throw (w : World) (this after : t) (message : string) :
  getTab_once w this = (Throw message, after) -> getTab w this = (Throw message, after).
Proof. intros Honce. unfold getTab, bind. now rewrite Honce. Qed.

(** With an empty table and room for a tab, [getTab] opens a page,
    configures it and registers it under the URL the page shows. *)
Lemma getTab_empty_table (w : World) (this : t) (b : Browser) (page : Page) :
  browser this = Some b ->
  tabs this = [] ->
  0 < maxTabs this ->
  browser_newPage w = Normal page ->
  configure w = Normal tt ->
  let opened :=
    {| page_id := page_id page; page_url := page_url page;
       on_close := (on_close page ++ [page_url page])%list |} in
  getTab w this
  = (Normal opened,
     {| browser := Some {| pages := (pages b ++ [opened])%list |};
        tabs := [(page_url page,
                  {| TabInfo.id := page_url page; TabInfo.url := page_url page;
                     TabInfo.inUse := true;
                     TabInfo.createdAt := clock w; TabInfo.lastUsed := clock w |})];
        maxTabs := maxTabs this |}).
Proof.
  intros Hbrowser Htabs Hroom Hpage Hconfigure. cbv zeta. apply getTab_once_Got.
  destruct this as [running table capacity]. simpl in *. subst running table.
  unfold getTab_once, bind, initialize, createNewTab, ret. simpl.
  apply Z.ltb_lt in Hroom. change (Z.of_nat 0) with 0. now rewrite Hroom, Hpage, Hconfigure.
Qed.

(** C2, amended.  [close] on a running pool drops the browser and empties
    the table.  The pool has no closed state: the next [getTab] starts the
    browser again.  What becomes of that call is decided by the browser
    alone: it rejects if the launch fails, the pool staying closed; it
    rejects if the page cannot be opened, or if the configuration of the
    page fails, which leaves the page open and unregistered; otherwise it
    opens a page, registers it as the one tab in use, and hands it out.
    (With a capacity that is not positive the call waits for a tab.) *)
Theorem close_then_getTab_restarts (w : World) (this : t) (running : Browser) :
  browser this = Some running ->
  (browser (close this) = None /\ tabs (close this) = [])
  /\ match puppeteer_launch w with
     | Throw message =>
         getTab w (close this)
         = (Throw ("Browser initialization failed: " ++ message), close this)
     | Normal b =>
         let started := with_browser (Some b) (close this) in
         if 0 <? maxTabs this then
           match browser_newPage w with
           | Throw message => getTab w (close this) = (Throw message, started)
           | Normal page =>
               match configure w with
               | Throw message =>
                   getTab w (close this)
                   = (Throw message,
                      with_browser (Some {| pages := (pages b ++ [page])%list |}) started)
               | Normal _ =>
                   exists opened after,
                     getTab w (close this) = (Normal opened, after)
                     /\ page_id opened = page_id page
                     /\ browser after = Some {| pages := (pages b ++ [opened])%list |}
                     /\ Map_keys (tabs after) = [page_url page]
                     /\ Map_get (page_url page) (tabs after)
                        = Some {| TabInfo.id := page_url page; TabInfo.url := page_url page;
                                  TabInfo.inUse := true;
                                  TabInfo.createdAt := clock w; TabInfo.lastUsed := clock w |}
               end
           end
         else getTab w (close this) = waitForAvailableTab w started
     end.
Proof.
  intros Hrunning. unfold close. rewrite Hrunning. split; [split; reflexivity|].
  destruct (puppeteer_launch w) as [b|message] eqn:Hlaunch.
  - cbv zeta. destruct (0 <? maxTabs this) eqn:Hroom.
    + destruct (browser_newPage w) as [page|message] eqn:Hpage.
      * destruct (configure w) as [[]|message] eqn:Hconfigure.
        -- eexists _, _. split.
           ++ apply getTab_once_Got.
              unfold getTab_once, bind, initialize, createNewTab, ret. simpl.
              rewrite Hlaunch. simpl. change (Z.of_nat 0) with 0.
              now rewrite Hroom, Hpage, Hconfigure.
           ++ simpl. repeat split. now rewrite decide_True.
        -- apply getTab_once_Throw.
           unfold getTab_once, bind, initialize, createNewTab, ret. simpl.
           rewrite Hlaunch. simpl. change (Z.of_nat 0) with 0.
           now rewrite Hroom, Hpage, Hconfigure.
      * apply getTab_once_Throw.
        unfold getTab_once, bind, initialize, createNewTab, ret. simpl.
        rewrite Hlaunch. simpl. change (Z.of_nat 0) with 0.
        now rewrite Hroom, Hpage.
    + unfold getTab, getTab_once, bind, initialize. simpl.
      rewrite Hlaunch. simpl. change (Z.of_nat 0) with 0. now rewrite Hroom.
  - apply getTab_once_Throw.
    unfold getTab_once, bind, initialize. simpl. now rewrite Hlaunch.
Qed.

End PoolLifecycle.

(** Counterexample to C2 as stated: after [close], [getTab] hands out a
    page. *)
Lemma getTab_after_close_succeeds :
  ~ (forall (w : World) (this : PuppeteerController.t),
       is_normal (fst (PuppeteerController.getTab w (PuppeteerController.close this))) = false).
Proof.
  intros Hall. specialize (Hall (chrome 5000 1) pool_after_one_fetch).
  vm_compute in Hall. discriminate.
Qed.

(** Witness of C2, amended: the pool of the example is closed and asked
    again; the browser starts, and the call hands out a new page, the one
    tab of the table. *)
Lemma close_then_getTab_restarts_witness :
  let closed := PuppeteerController.close pool_after_one_fetch in
  (PuppeteerController.browser closed = None /\ PuppeteerController.tabs closed = [])
  /\ exists opened after,
       PuppeteerController.getTab (chrome 5000 1) closed = (Normal opened, after)
       /\ page_id opened = 1%nat
       /\ Map_keys (PuppeteerController.tabs after) = ["about:blank"].
Proof.
  cbv zeta.
  destruct (close_then_getTab_restarts (chrome 5000 1) pool_after_one_fetch
              {| pages := [{| page_id := 0; page_url := "about:blank"; on_close := [] |};
                           {| page_id := 1; page_url := "https://example.com/";
                              on_close := ["about:blank"] |}] |} eq_refl)
    as [Hclosed (opened & after & Hrun & Hid & _ & Hkeys & _)].
  split; [exact Hclosed|]. exists opened, after.
  split; [exact Hrun|]. split; [exact Hid | exact Hkeys].
Defined.

(** C3 at the failing input.  A pool of capacity one is saturated by the
    fetch of one URL.  The page has navigated when it is released, so
    [releaseTab] finds no tab under the page's URL and changes nothing; the
    tab stays in use, and the next [getTab] waits and times out. *)
Lemma release_after_navigation_is_lost :
  let this := pool_after_one_fetch in
  (Z.of_nat (Map_size (PuppeteerController.tabs this)) = PuppeteerController.maxTabs this
   /\ PuppeteerController.first_idle (PuppeteerController.tabs this) = None)
  /\ (forall page now,
        page_now 1 this = Some page ->
        PuppeteerController.releaseTab now page this = this)
  /\ fst (PuppeteerController.getTab (chrome 5000 2) this)
     = Throw "Timeout waiting for available tab".
Proof.
  cbv zeta. split; [split; reflexivity|]. split.
  - intros page now. vm_compute. now intros [= <-].
  - vm_compute. reflexivity.
Qed.

(** *** Cleaning up old tabs *)

Section Cleanup.
Import PuppeteerController.

Lemma find_page_Some (url : string) (b : Browser) (page : Page) :
  find_page url b = Some page -> page ∈ pages b /\ page_url page = url.
Proof.
  unfold find_page. intros [Hin Heq]%find_some.
  split; [now apply list_elem_of_In | now apply String.eqb_eq].
Qed.

Lemma find_page_is_Some (url : string) (b : Browser) (page : Page) :
  page ∈ pages b -> page_url page = url -> is_Some (find_page url b).
Proof.
  intros Hin Hurl. unfold find_page.
  destruct (List.find _ (pages b)) as [found|] eqn:Hfind; [eauto|].
  apply list_elem_of_In in Hin. apply (find_none _ _ Hfind) in Hin.
  apply String.eqb_neq in Hin. contradiction.
Qed.

Lemma Map_get_delete_all {V : Type} (ks : list string) (m : JSMap string V) (k : string) :
  NoDup (Map_keys m) ->
  NoDup (Map_keys (fold_left (fun m tabId => Map_delete tabId m) ks m))
  /\ (k ∈ ks -> Map_get k (fold_left (fun m tabId => Map_delete tabId m) ks m) = None)
  /\ (k ∉ ks -> Map_get k (fold_left (fun m tabId => Map_delete tabId m) ks m)
                = Map_get k m).
Proof.
  revert m. induction ks as [|k0 ks IH]; intros m Hnodup; simpl.
  - split; [assumption|]. split; [|reflexivity].
    intros Hin. now apply elem_of_nil in Hin.
  - destruct (IH (Map_delete k0 m) (Map_delete_NoDup m k0 Hnodup)) as (Hn & Hin & Hout).
    split; [assumption|]. split.
    + intros [->|Hks]%elem_of_cons; [|auto].
      destruct (decide (k0 ∈ ks)) as [Hks|Hks]; [auto|].
      rewrite Hout, Map_get_delete by assumption. now rewrite decide_True.
    + intros [Hne Hks]%not_elem_of_cons.
      rewrite Hout, Map_get_delete by assumption. now rewrite decide_False by congruence.
Qed.





(** [closeTab] by the cases of [page.close()]: the browser has the page
    and the call resolves; or the call rejects, because the world has it
    so or because the browser has the page no more, and the rejection is
    swallowed. *)
Lemma closeTab_cases (w : World) (page : Page) (this : t) (b : Browser) :
  browser this = Some b ->
  (exists open,
     List.find (fun p => Nat.eqb (page_id p) (page_id page)) (pages b) = Some open
     /\ page_close w = Normal tt
     /\ closeTab w page this
        = {| browser :=
               Some {| pages := List.filter
                                  (fun p => negb (Nat.eqb (page_id p) (page_id page)))
                                  (pages b) |};
             tabs := fold_left (fun m tabId => Map_delete tabId m) (on_close open)
                               (Map_delete (page_url page) (tabs this));
             maxTabs := maxTabs this |})
  \/ ((List.find (fun p => Nat.eqb (page_id p) (page_id page)) (pages b) = None
       \/ exists message, page_close w = Throw message)
      /\ closeTab w page this = with_tabs (Map_delete (page_url page) (tabs this)) this).
Proof.
  intros Hb. unfold closeTab, try_catch, close_page. cbn [browser with_tabs tabs maxTabs].
  rewrite Hb.
  destruct (List.find _ (pages b)) as [open|] eqn:Hfind.
  - destruct (page_close w) as [[]|message] eqn:Hclose.
    + left. exists open. repeat split.
    + right. split; [right; now exists message | reflexivity].
  - right. split; [now left | reflexivity].
Qed.


Section CleanupLoop.
Variable w : World.
Hypothesis Hpages : browser_pages w = Normal tt.










End CleanupLoop.

End Cleanup.


(** C9 at the failing input.  The one tab of the example pool is idle and
    was last used more than thirty minutes ago.  Its pages have navigated
    since they were registered, so no page of the browser shows the tab's
    id: [cleanupOldTabs] finds no page to close, and leaves the tab, and the
    two pages, as they are. *)
Lemma stale_tab_is_not_cleaned_up :
  let this := pool_with_stale_tab in
  let now := 1803001 in
  (exists tabInfo,
     PuppeteerController.tabs this = [("about:blank", tabInfo)]
     /\ TabInfo.inUse tabInfo = false
     /\ now - TabInfo.lastUsed tabInfo > 30 * 60 * 1000)
  /\ (exists b, PuppeteerController.browser this = Some b
                /\ length (pages b) = 2%nat
                /\ PuppeteerController.find_page "about:blank" b = None)
  /\ PuppeteerController.cleanupOldTabs (chrome now 2) now (Some (inject_Z 30)) this
     = (Normal tt, this).
Proof.
  cbv zeta. split; [|split].
  - eexists. split; [reflexivity|]. split; [reflexivity|]. reflexivity.
  - eexists. split; [reflexivity|]. split; reflexivity.
  - reflexivity.
Qed.


(** *** Reuse of a released tab *)

Section Reuse.
Import PuppeteerController.

Lemma first_idle_None_set (m : JSMap string TabInfo.t) (k : string) (tabInfo : TabInfo.t) :
  first_idle m = None ->
  k ∈ Map_keys m ->
  TabInfo.inUse tabInfo = false ->
  first_idle (Map_set k tabInfo m) = Some (k, tabInfo).
Proof.
  unfold first_idle. induction m as [|[k0 t0] m IH]; simpl.
  - intros _ Hin. now apply elem_of_nil in Hin.
  - destruct (negb (TabInfo.inUse t0)) eqn:Hbusy; [discriminate|].
    intros Hnone Hin Hidle. destruct (decide (k0 = k)) as [->|Hne]; simpl.
    + now rewrite Hidle.
    + rewrite Hbusy. apply IH; try assumption.
      apply elem_of_cons in Hin as [->|Hin]; [contradiction | assumption].
Qed.

(** Where the reuse of the specification holds: all tabs are in use, and
    the page that is released still shows the URL its tab is registered
    under.  Then the next [getTab], if the browser answers it with its
    pages, hands out a page of the browser at that URL; no page is opened,
    the table keeps its keys, and the tab is in use again. *)
Lemma release_then_getTab_reuses_page (w : World) (now : Z) (this : t) (b : Browser)
    (page : Page) (tabInfo : TabInfo.t) :
  browser_pages w = Normal tt ->
  browser this = Some b ->
  page ∈ pages b ->
  Map_get (page_url page) (tabs this) = Some tabInfo ->
  TabInfo.url tabInfo = page_url page ->
  first_idle (tabs this) = None ->
  exists found after,
    getTab w (releaseTab now page this) = (Normal found, after)
    /\ found ∈ pages b
    /\ page_url found = page_url page
    /\ browser after = Some b
    /\ Map_keys (tabs after) = Map_keys (tabs this)
    /\ Map_get (page_url page) (tabs after)
       = Some (mark_inUse (clock w) (mark_idle now tabInfo)).
Proof.
  intros Hpages Hbrowser Hpage Hget Hurl Hbusy.
  pose proof (Map_get_Some_key _ _ _ Hget) as Hkey.
  destruct (find_page_is_Some (page_url page) b page Hpage eq_refl) as [found Hfound].
  exists found. eexists. split.
  - apply getTab_once_Got.
    unfold releaseTab. rewrite Hget.
    unfold getTab_once, bind, initialize, with_tabs.
    cbn -[first_idle Map_set find_page]. rewrite Hbrowser. cbn [browser tabs maxTabs].
    rewrite (first_idle_None_set _ _ (mark_idle now tabInfo) Hbusy Hkey eq_refl).
    cbn [TabInfo.url mark_idle]. rewrite Hpages, Hurl, Hfound. reflexivity.
  - apply find_page_Some in Hfound as [Hin Hfurl]. cbn [browser tabs].
    split; [assumption|]. split; [assumption|]. split; [reflexivity|]. split.
    + assert (Hkeys : Map_keys (Map_set (page_url page) (mark_idle now tabInfo) (tabs this))
                      = Map_keys (tabs this)) by now apply Map_keys_set_old.
      rewrite Map_keys_set_old; [assumption | now rewrite Hkeys].
    + rewrite Map_get_set. now rewrite decide_True.
Qed.

End Reuse.

(** The lemma at work: the one tab of a pool of capacity one is released
    while its page is blank, and the next caller gets a blank page of the
    browser. *)
Lemma release_then_getTab_reuses_page_witness :
  let this := saturated_pool in
  let opened := {| page_id := 1; page_url := "about:blank"; on_close := ["about:blank"] |} in
  exists found after,
    PuppeteerController.getTab (chrome 2000 2)
      (PuppeteerController.releaseTab 1000 opened this) = (Normal found, after)
    /\ page_url found = "about:blank"
    /\ Map_keys (PuppeteerController.tabs after) = Map_keys (PuppeteerController.tabs this).
Proof.
  cbv zeta.
  destruct (release_then_getTab_reuses_page (chrome 2000 2) 1000
              saturated_pool
              {| pages := [blank_page 0;
                           {| page_id := 1; page_url := "about:blank";
                              on_close := ["about:blank"] |}] |}
              {| page_id := 1; page_url := "about:blank"; on_close := ["about:blank"] |}
              {| TabInfo.id := "about:blank"; TabInfo.url := "about:blank";
                 TabInfo.inUse := true; TabInfo.createdAt := 0; TabInfo.lastUsed := 0 |})
    as (found & after & Hrun & _ & Hurl & _ & Hkeys & _).
  - reflexivity.
  - reflexivity.
  - apply list_elem_of_further, list_elem_of_here.
  - reflexivity.
  - reflexivity.
  - reflexivity.
  - exists found, after. repeat split; assumption.
Defined.

(** Witness of C5: the first batch on the example site admits [/b], whose
    link carried a slash run and a fragment. *)
Lemma frontier_admission_witness :
  let start :=
    {| HttpURL.opaque := None; HttpURL.host := "example.com"; HttpURL.path := "/";
       HttpURL.fragment := None |} in
  let options := SpiderCrawlOptions.defaultOptions in
  let after :=
    snd (@processBatch _ HttpURL.api small_site 0 ["http://example.com/"] start options
           new_SpiderCrawl) in
  @admissible _ HttpURL.api "http://example.com/b" start options (visitedUrls after).
Proof.
  cbv zeta.
  destruct (proj1 (proj1 (proj2 (@frontier_admission _ HttpURL.api small_site
                                   {| HttpURL.opaque := None; HttpURL.host := "example.com";
                                      HttpURL.path := "/";
                                      HttpURL.fragment := None |}
                                   SpiderCrawlOptions.defaultOptions new_SpiderCrawl))
                     0 ["http://example.com/"] small_site_settles "http://example.com/b"))
    as [Hold | (page & link & _ & _ & _ & Hadmissible)].
  - vm_compute. apply list_elem_of_further, list_elem_of_here.
  - now apply elem_of_nil in Hold.
  - exact Hadmissible.
Defined.

(** ** The reach of a run *)

Section RunFacts.
Context {U : Type} `{URLApi U} (env : Env).

(** The fields a run leaves are those the loop leaves, started on the
    normalized start URL. *)
Lemma crawl_final_state (url baseUrl : string) (baseUrlObj : U)
    (options : SpiderCrawlOptions.argument) (this : SpiderCrawl) :
  normalizeUrl url = Normal baseUrl ->
  URL_new baseUrl = Normal baseUrlObj ->
  let finalOptions := SpiderCrawlOptions.spread SpiderCrawlOptions.defaultOptions options in
  let final := snd (processQueue env baseUrlObj finalOptions (queue_push baseUrl (reset this))) in
  crawl env url options this
  = (Normal {| SpiderCrawlResult.success := true;
               SpiderCrawlResult.linkMap := linkMap final;
               SpiderCrawlResult.totalPages := size (visitedUrls final);
               SpiderCrawlResult.totalLinks := getTotalLinks final;
               SpiderCrawlResult.error := None;
               SpiderCrawlResult.baseUrl := baseUrl |}, final).
Proof.
  intros Hnorm Hparse finalOptions final. subst final.
  unfold crawl, try_catch, bind at 1. unfold modify at 1.
  unfold bind at 1, lift. rewrite Hnorm. unfold bind at 1. rewrite Hparse.
  unfold bind at 1. unfold modify at 1. unfold bind at 1. unfold processQueue.
  destruct (processQueue_loop_keeps env (fun _ => True) baseUrlObj finalOptions
              (fun _ _ => I) (fun _ _ _ _ => I)
              (Z.to_nat (Qceiling (number_or (SpiderCrawlOptions.maxDepth finalOptions) 3))) 0
              (number_or (SpiderCrawlOptions.maxDepth finalOptions) 3)
              (queue_push baseUrl (reset this)) I) as (this' & Hrun & _).
  fold finalOptions. rewrite Hrun. reflexivity.
Qed.

(** The loop with the number of the turn in view: what holds before turn
    [d] and is carried over by the batch of turn [d] to turn [d + 1], holds
    for the turn at which the loop stops; and it stops on an empty queue or
    at [maxDepth]. *)
Lemma processQueue_loop_depth (P : nat -> SpiderCrawl -> Prop) (baseUrlObj : U)
    (options : SpiderCrawlOptions.t) (maxDepth : number) :
  (forall d this,
     P d this -> queue this <> [] -> Z.of_nat d < Qceiling maxDepth ->
     P (S d) (snd (processBatch env (Z.of_nat d) (queue this) baseUrlObj options
                     (queue_clear this)))) ->
  forall turns d this,
    P d this -> (Z.to_nat (Qceiling maxDepth - Z.of_nat d) <= turns)%nat ->
    exists final d',
      processQueue_loop env turns (Z.of_nat d) maxDepth baseUrlObj options this
      = (Normal tt, final)
      /\ P d' final /\ (queue final = [] \/ Qceiling maxDepth <= Z.of_nat d').
Proof.
  intros Hbatch. induction turns as [|turns IH]; intros d this HP Hturns.
  - exists this, d. split; [reflexivity|]. split; [assumption|]. right. lia.
  - rewrite processQueue_loop_turn.
    destruct ((0 <? Z.of_nat (length (queue this))) && (Z.of_nat d <? Qceiling maxDepth)) eqn:Hguard.
    + apply andb_true_iff in Hguard as [Hqueue Hdepth].
      assert (Hne : queue this <> []) by (destruct (queue this); [discriminate | discriminate]).
      specialize (Hbatch d this HP Hne ltac:(lia)).
      destruct (processBatch_state env (Z.of_nat d) (queue this) baseUrlObj options
                  (queue_clear this)) as (inFlight & mid & Hrun & _).
      rewrite Hrun in *. simpl in Hbatch.
      replace (Z.of_nat d + 1) with (Z.of_nat (S d)) by lia.
      apply IH; [assumption | lia].
    + exists this, d. split; [reflexivity|]. split; [assumption|].
      apply andb_false_iff in Hguard as [Hqueue | Hdepth].
      * left. destruct (queue this); [reflexivity | discriminate].
      * right. lia.
Qed.

(** The filters of [shouldProcessUrl] apart from the visited test. *)
Lemma admissible_unvisited (url : string) (baseUrlObj : U) (options : SpiderCrawlOptions.t)
    (visited : gset string) :
  admissible url baseUrlObj options visited
  <-> (url ∉ visited) /\ admissible url baseUrlObj options ∅.
Proof.
  unfold admissible. split.
  - intros [Hnew Hrest]. split; [assumption|]. split; [apply not_elem_of_empty | assumption].
  - intros [Hnew [_ Hrest]]. split; assumption.
Qed.

(** While the page budget has room at the end of the dispatch, the gate
    has let in every URL of the batch that was not visited. *)
Lemma begin_batch_room (batch : list string) (options : SpiderCrawlOptions.t)
    (this : SpiderCrawl) :
  let this' := snd (begin_batch batch options this) in
  Z.of_nat (size (visitedUrls this')) < page_budget options ->
  forall url, url ∈ batch -> url ∈ visitedUrls this'.
Proof.
  revert this. induction batch as [|url batch IH]; intros this this' Hroom u Hu.
  { now apply elem_of_nil in Hu. }
  subst this'. simpl in *. unfold bind at 1 in Hroom. unfold bind at 1.
  destruct (processUrl_begin_cases url options this)
    as [[Hskip Hwhy] | (mid & Hrun & _ & _ & Hvisited & _)]; rewrite ?Hskip, ?Hrun in *.
  - destruct (begin_batch_state batch options this)
      as (inFlight & this' & Hrest & _ & _ & Hv & _).
    specialize (IH this). rewrite Hrest in IH. unfold bind at 1 in Hroom. unfold bind at 1.
    rewrite Hrest in *. simpl in *.
    apply elem_of_cons in Hu as [->|Hu]; [|now apply IH].
    destruct Hwhy as [Hin | Hfull]; [rewrite Hv; set_solver|].
    assert (size (visitedUrls this) <= size (visitedUrls this'))%nat
      by (apply subseteq_size; rewrite Hv; set_solver).
    lia.
  - destruct (begin_batch_state batch options mid)
      as (inFlight & this' & Hrest & _ & _ & Hv & _).
    specialize (IH mid). rewrite Hrest in IH. unfold bind at 1 in Hroom. unfold bind at 1.
    rewrite Hrest in *. simpl in *.
    apply elem_of_cons in Hu as [->|Hu]; [|now apply IH].
    rewrite Hv, Hvisited. set_solver.
Qed.

(** One turn of the loop, if every fetch in flight settles: the visited
    set grows by URLs of the queue; the new queue holds the admissible
    normalized links of the pages fetched in this turn; and the whole queue
    was visited if the page budget has room at the end of the turn. *)
Lemma processBatch_turn (depth : Z) (baseUrlObj : U) (options : SpiderCrawlOptions.t)
    (this : SpiderCrawl) :
  settles_all env ->
  let after :=
    snd (processBatch env depth (queue this) baseUrlObj options (queue_clear this)) in
  visitedUrls this ⊆ visitedUrls after
  /\ (forall page, page ∈ visitedUrls after ->
                   (page ∈ visitedUrls this) \/ (page ∈ queue this))
  /\ (forall newUrl,
        newUrl ∈ queue after
        <-> exists page link,
              ((page ∈ visitedUrls after) /\ (page ∉ visitedUrls this))
              /\ link ∈ page_links env page
              /\ normalizeUrl (LinkData.url link) = Normal newUrl
              /\ admissible newUrl baseUrlObj options (visitedUrls after))
  /\ (Z.of_nat (size (visitedUrls after)) < page_budget options ->
      forall page, page ∈ queue this -> page ∈ visitedUrls after).
Proof.
  intros Hsettle after.
  pose proof (next_frontier env depth (queue this) baseUrlObj options (queue_clear this)
                Hsettle) as Hnext.
  fold after in Hnext. simpl in Hnext.
  assert (Hroom : Z.of_nat (size (visitedUrls after)) < page_budget options ->
                  forall page, page ∈ queue this -> page ∈ visitedUrls after).
  { pose proof (begin_batch_room (queue this) options (queue_clear this)) as Hall.
    subst after. unfold processBatch, bind in *.
    destruct (begin_batch_state (queue this) options (queue_clear this))
      as (inFlight & mid & Hbegin & _).
    rewrite Hbegin in *.
    destruct (resume_loop env (settle_order env depth inFlight) baseUrlObj options mid)
      as (final & Hresume & Hv & _).
    rewrite Hresume. simpl in *. rewrite Hv. exact Hall. }
  subst after.
  destruct (processBatch_state env depth (queue this) baseUrlObj options (queue_clear this))
    as (inFlight & after & Hrun & _ & Hin & Hv & _).
  rewrite Hrun in *. simpl in *.
  split; [rewrite Hv; set_solver|].
  split.
  { intros page. rewrite Hv, elem_of_union, elem_of_list_to_set.
    intros [Hold | Hnew]; [now left | right; now apply Hin]. }
  split; [|exact Hroom].
  intros newUrl. rewrite (Hnext newUrl). split.
  - intros [Hnil | Hfound]; [now apply elem_of_nil in Hnil | exact Hfound].
  - intros Hfound. now right.
Qed.

(** Soundness of the traversal.  If every fetch in flight settles, each
    URL a run visits lies fewer than [maxDepth || 3] links away from the
    normalized start URL, along links that the fetched pages hold and that
    pass the filters. *)
Theorem visited_pages_are_within_depth (url : string) (options : SpiderCrawlOptions.argument)
    (this : SpiderCrawl) (page : string) :
  settles_all env ->
  let finalOptions := SpiderCrawlOptions.spread SpiderCrawlOptions.defaultOptions options in
  page ∈ visitedUrls (snd (crawl env url options this)) ->
  exists baseUrl baseUrlObj n,
    normalizeUrl url = Normal baseUrl
    /\ URL_new baseUrl = Normal baseUrlObj
    /\ Z.of_nat n < depth_limit finalOptions
    /\ crawl_path env baseUrl baseUrlObj finalOptions n page.
Proof.
  intros Hsettle finalOptions Hpage.
  destruct (normalizeUrl_normal url) as [baseUrl Hnorm].
  destruct (URL_new baseUrl) as [baseUrlObj|message] eqn:Hparse.
  2: { rewrite (crawl_unparsable_base env url baseUrl message options this Hnorm Hparse)
         in Hpage.
       simpl in Hpage. now apply not_elem_of_empty in Hpage. }
  rewrite (crawl_final_state url baseUrl baseUrlObj options this Hnorm Hparse) in Hpage.
  cbn [snd] in Hpage. fold finalOptions in Hpage. unfold processQueue in Hpage.
  fold (depth_limit finalOptions) in Hpage.
  exists baseUrl, baseUrlObj.
  set (P := fun (d : nat) (st : SpiderCrawl) =>
              (forall p, p ∈ visitedUrls st ->
                 exists n, Z.of_nat n < depth_limit finalOptions
                           /\ crawl_path env baseUrl baseUrlObj finalOptions n p)
              /\ (forall p, p ∈ queue st ->
                    crawl_path env baseUrl baseUrlObj finalOptions d p)).
  destruct (processQueue_loop_depth P baseUrlObj finalOptions
              (number_or (SpiderCrawlOptions.maxDepth finalOptions) 3))
    with (turns := Z.to_nat (depth_limit finalOptions)) (d := 0%nat)
         (this := queue_push baseUrl (reset this))
    as (final & d' & Hrun & [Hvisited _] & _).
  - intros d st [Hv Hq] _ Hdepth.
    destruct (processBatch_turn (Z.of_nat d) baseUrlObj finalOptions st Hsettle)
      as (_ & Hgrow & Hnext & _).
    split.
    + intros p Hp. destruct (Hgrow p Hp) as [Hold | Hnew]; [now apply Hv|].
      exists d. split; [assumption | now apply Hq].
    + intros p Hp. apply Hnext in Hp as (from & link & [Hfrom Hfresh] & Hlink & Hn & Hadm).
      apply crawl_path_link with (page := from) (link := link); try assumption.
      * destruct (Hgrow from Hfrom) as [Hold | Hnew]; [contradiction | now apply Hq].
      * now apply admissible_unvisited in Hadm as [_ Hadm].
  - split.
    + intros p Hp. simpl in Hp. now apply not_elem_of_empty in Hp.
    + intros p Hp. simpl in Hp. apply list_elem_of_singleton in Hp as ->. constructor.
  - unfold depth_limit. lia.
  - change (Z.of_nat 0) with 0 in Hrun. rewrite Hrun in Hpage. simpl in Hpage.
    destruct (Hvisited page Hpage) as (n & Hn & Hpath).
    exists n. repeat split; assumption.
Qed.

(** Completeness of the traversal.  If every fetch in flight settles and
    the run ends with room in its page budget, it has visited every URL that
    lies fewer than [maxDepth || 3] links away from the normalized start
    URL, along links that the fetched pages hold and that pass the
    filters. *)
Theorem pages_within_depth_are_visited (url baseUrl : string) (baseUrlObj : U)
    (options : SpiderCrawlOptions.argument) (this : SpiderCrawl) :
  settles_all env ->
  normalizeUrl url = Normal baseUrl ->
  URL_new baseUrl = Normal baseUrlObj ->
  let finalOptions := SpiderCrawlOptions.spread SpiderCrawlOptions.defaultOptions options in
  let final := snd (crawl env url options this) in
  Z.of_nat (size (visitedUrls final)) < page_budget finalOptions ->
  forall n page,
    Z.of_nat n < depth_limit finalOptions ->
    crawl_path env baseUrl baseUrlObj finalOptions n page ->
    page ∈ visitedUrls final.
Proof.
  intros Hsettle Hnorm Hparse finalOptions final Hbudget. subst final.
  rewrite (crawl_final_state url baseUrl baseUrlObj options this Hnorm Hparse) in *.
  cbn [snd] in *. fold finalOptions in Hbudget |- *. unfold processQueue in *.
  fold (depth_limit finalOptions) in Hbudget |- *.
  set (closed := fun (st : SpiderCrawl) =>
                   forall page link newUrl,
                     page ∈ visitedUrls st ->
                     link ∈ page_links env page ->
                     normalizeUrl (LinkData.url link) = Normal newUrl ->
                     admissible newUrl baseUrlObj finalOptions ∅ ->
                     (newUrl ∈ visitedUrls st) \/ (newUrl ∈ queue st)).
  set (upto := fun (d : nat) (st : SpiderCrawl) =>
                 forall n page,
                   (n <= d)%nat ->
                   crawl_path env baseUrl baseUrlObj finalOptions n page ->
                   (page ∈ visitedUrls st) \/ (n = d /\ page ∈ queue st)).
  set (P := fun (d : nat) (st : SpiderCrawl) =>
              Z.of_nat (size (visitedUrls st)) < page_budget finalOptions ->
              closed st /\ upto d st).
  destruct (processQueue_loop_depth P baseUrlObj finalOptions
              (number_or (SpiderCrawlOptions.maxDepth finalOptions) 3))
    with (turns := Z.to_nat (depth_limit finalOptions)) (d := 0%nat)
         (this := queue_push baseUrl (reset this))
    as (final & d' & Hrun & Hfinal & Hstop).
  - intros d st HP _ _ Hroom.
    destruct (processBatch_turn (Z.of_nat d) baseUrlObj finalOptions st Hsettle)
      as (Hsub & Hgrow & Hnext & Hall).
    set (after := snd (processBatch env (Z.of_nat d) (queue st) baseUrlObj finalOptions
                         (queue_clear st))) in *.
    specialize (Hall Hroom).
    destruct HP as [Hclosed Hupto].
    { pose proof (subseteq_size _ _ Hsub). lia. }
    assert (Hclosed' : closed after).
    { intros page link newUrl Hpage Hlink Hn Hadm.
      destruct (decide (newUrl ∈ visitedUrls after)) as [Hseen | Hnew]; [now left|].
      destruct (decide (page ∈ visitedUrls st)) as [Hold | Hfresh].
      - destruct (Hclosed page link newUrl Hold Hlink Hn Hadm) as [Hv | Hq].
        + left. now apply Hsub.
        + left. now apply Hall.
      - right. apply Hnext. exists page, link.
        split; [now split|]. split; [assumption|]. split; [assumption|].
        apply admissible_unvisited. now split. }
    split; [exact Hclosed'|].
    assert (Hbelow : forall n page,
               (n <= d)%nat -> crawl_path env baseUrl baseUrlObj finalOptions n page ->
               page ∈ visitedUrls after).
    { intros n page Hn Hpath. destruct (Hupto n page Hn Hpath) as [Hv | [_ Hq]].
      - now apply Hsub.
      - now apply Hall. }
    intros n page Hn Hpath.
    destruct (decide (n = S d)) as [-> | Hless].
    + inversion Hpath as [|? from link ? Hfrom Hlink Hnormal Hadm]; subst.
      destruct (Hclosed' from link page (Hbelow d from (le_n d) Hfrom) Hlink Hnormal Hadm)
        as [Hv | Hq]; [now left | now right].
    + left. apply (Hbelow n page); [lia | assumption].
  - intros _. split.
    + intros page link newUrl Hpage. simpl in Hpage. now apply not_elem_of_empty in Hpage.
    + intros n page Hn Hpath. assert (n = 0)%nat as -> by lia.
      inversion Hpath; subst. right. split; [reflexivity|].
      simpl. apply list_elem_of_here.
  - unfold depth_limit. lia.
  - change (Z.of_nat 0) with 0 in Hrun. rewrite Hrun in *. cbn [snd] in *.
    destruct (Hfinal Hbudget) as [Hclosed Hupto].
    intros n page Hn Hpath.
    destruct Hstop as [Hempty | Hdeep].
    + induction Hpath as [|n from link newUrl Hfrom IH Hlink Hnormal Hadm].
      * destruct (Hupto 0%nat baseUrl (Nat.le_0_l d') (crawl_path_start env _ _ _))
          as [Hv | [_ Hq]]; [assumption|].
        rewrite Hempty in Hq. now apply elem_of_nil in Hq.
      * destruct (Hclosed from link newUrl (IH ltac:(lia)) Hlink Hnormal Hadm)
          as [Hv | Hq]; [assumption|].
        rewrite Hempty in Hq. now apply elem_of_nil in Hq.
    + unfold depth_limit in Hn.
      destruct (Hupto n page ltac:(lia) Hpath) as [Hv | [Heq _]]; [assumption | lia].
Qed.

End RunFacts.

(** Witness of the soundness of the traversal: on the example site the
    run visits [/b], one link away from the start URL. *)
Lemma visited_pages_are_within_depth_witness :
  exists baseUrl baseUrlObj n,
    @normalizeUrl _ HttpURL.api "http://example.com/" = Normal baseUrl
    /\ @URL_new _ HttpURL.api baseUrl = Normal baseUrlObj
    /\ Z.of_nat n
       < depth_limit (SpiderCrawlOptions.spread SpiderCrawlOptions.defaultOptions
                        SpiderCrawlOptions.empty)
    /\ @crawl_path _ HttpURL.api small_site baseUrl baseUrlObj
         (SpiderCrawlOptions.spread SpiderCrawlOptions.defaultOptions SpiderCrawlOptions.empty)
         n "http://example.com/b".
Proof.
  apply (@visited_pages_are_within_depth _ HttpURL.api small_site "http://example.com/"
           SpiderCrawlOptions.empty new_SpiderCrawl "http://example.com/b" small_site_settles).
  vm_compute. reflexivity.
Defined.

(** Witness of the completeness of the traversal: on the example site
    [/a] is one link away from the start URL, and the run visits it. *)
Lemma pages_within_depth_are_visited_witness :
  "http://example.com/a"
  ∈ visitedUrls (snd (@crawl _ HttpURL.api small_site "http://example.com/"
                        SpiderCrawlOptions.empty new_SpiderCrawl)).
Proof.
  apply (@pages_within_depth_are_visited _ HttpURL.api small_site "http://example.com/"
           "http://example.com/"
           {| HttpURL.opaque := None; HttpURL.host := "example.com"; HttpURL.path := "/";
              HttpURL.fragment := None |}
           SpiderCrawlOptions.empty new_SpiderCrawl small_site_settles eq_refl eq_refl)
    with (n := 1%nat).
  - vm_compute. reflexivity.
  - vm_compute. reflexivity.
  - apply crawl_path_link
      with (page := "http://example.com/") (link := link_to "http://example.com/a").
    + constructor.
    + vm_compute. apply list_elem_of_here.
    + reflexivity.
    + apply (shouldProcessUrl_admissible "http://example.com/a" _ _ new_SpiderCrawl).
      vm_compute. reflexivity.
Defined.

(** ** What the link map holds *)

Section LinkMapFacts.
Context {U : Type} `{URLApi U} (env : Env).

(** A continuation stores what the fetch of its URL yielded. *)
Lemma processUrl_resume_values (url : string) (baseUrlObj : U)
    (options : SpiderCrawlOptions.t) (this : SpiderCrawl) :
  (forall page links, Map_get page (linkMap this) = Some links ->
                      fetch_ok env page = true /\ links = page_links env page) ->
  forall page links,
    Map_get page
      (linkMap (snd (processUrl_resume url baseUrlObj options (webCrawl_crawl env url) this)))
    = Some links ->
    fetch_ok env page = true /\ links = page_links env page.
Proof.
  intros Hold page links. rewrite processUrl_resume_state. simpl.
  destruct (webCrawl_crawl env url) as [result|message] eqn:Hfetch; [|apply Hold].
  destruct (CrawlResult.success result) eqn:Hsuccess; [|apply Hold].
  destruct (CrawlResult.data result) as [found|] eqn:Hdata; [|apply Hold].
  simpl. rewrite Map_get_set.
  destruct (decide (url = page)) as [<-|Hne]; [|apply Hold].
  intros [= <-]. unfold fetch_ok, page_links. rewrite Hfetch, Hsuccess, Hdata.
  split; reflexivity.
Qed.

Lemma processBatch_values (depth : Z) (batch : list string) (baseUrlObj : U)
    (options : SpiderCrawlOptions.t) (this : SpiderCrawl) :
  (forall page links, Map_get page (linkMap this) = Some links ->
                      fetch_ok env page = true /\ links = page_links env page) ->
  forall page links,
    Map_get page (linkMap (snd (processBatch env depth batch baseUrlObj options this)))
    = Some links ->
    fetch_ok env page = true /\ links = page_links env page.
Proof.
  intros Hold. unfold processBatch, bind.
  destruct (begin_batch_state batch options this)
    as (inFlight & mid & -> & _ & _ & _ & _ & Hmap & _).
  rewrite <- Hmap in Hold. clear Hmap.
  generalize (settle_order env depth inFlight). intros urls.
  revert mid Hold. induction urls as [|url urls IH]; intros mid Hold; simpl.
  - exact Hold.
  - unfold bind.
    pose proof (processUrl_resume_values url baseUrlObj options mid Hold) as Hnext.
    rewrite processUrl_resume_state in *. simpl in Hnext. now apply IH.
Qed.

(** [getTotalLinks] adds up the lengths of the link lists. *)
Lemma getTotalLinks_count (this : SpiderCrawl) :
  getTotalLinks this = count_links (linkMap this).
Proof.
  unfold getTotalLinks, count_links, Map_values.
  assert (Hgen : forall (m : JSMap string (list LinkData.t)) (total : nat),
             fold_left (fun total links => (total + length links)%nat) (map snd m) total
             = (total + list_sum (map (fun entry => length (snd entry)) m))%nat).
  { induction m as [|[url links] m IH]; intros total; simpl; [lia|]. rewrite IH. lia. }
  now rewrite Hgen.
Qed.

(** The link map of a run, value by value.  If every fetch in flight
    settles, a run that succeeds returns a link map that maps each visited
    URL whose fetch yielded links to exactly these links, all of them and
    in their order, and that has no other key; [totalLinks] is the number
    of links it holds. *)
Theorem linkMap_records_fetched_links (url : string) (options : SpiderCrawlOptions.argument)
    (this this' : SpiderCrawl) (result : SpiderCrawlResult.t) :
  settles_all env ->
  crawl env url options this = (Normal result, this') ->
  SpiderCrawlResult.success result = true ->
  (forall page,
     Map_get page (SpiderCrawlResult.linkMap result)
     = if bool_decide (page ∈ visitedUrls this') && fetch_ok env page
       then Some (page_links env page) else None)
  /\ SpiderCrawlResult.totalLinks result = count_links (SpiderCrawlResult.linkMap result).
Proof.
  intros Hsettle Hrun Hsuccess.
  destruct (normalizeUrl_normal url) as [baseUrl Hnorm].
  destruct (URL_new baseUrl) as [baseUrlObj|message] eqn:Hparse.
  2: { rewrite (crawl_unparsable_base env url baseUrl message options this Hnorm Hparse) in Hrun.
       injection Hrun as <- <-. discriminate. }
  set (finalOptions := SpiderCrawlOptions.spread SpiderCrawlOptions.defaultOptions options).
  destruct (crawl_valid env
              (fun st => links_invariant env st
                         /\ forall page links,
                              Map_get page (linkMap st) = Some links ->
                              fetch_ok env page = true /\ links = page_links env page)
              url baseUrl baseUrlObj options this Hnorm Hparse)
    as (final & Hrun' & Hkeys & Hvalues).
  - intros st Hst. exact Hst.
  - fold finalOptions. intros depth batch st [Hk Hv].
    split; [now apply processBatch_links | now apply processBatch_values].
  - split.
    + intros page. simpl. split.
      * intros Hin. now apply elem_of_nil in Hin.
      * intros [Hin _]. now apply not_elem_of_empty in Hin.
    + intros page links. simpl. discriminate.
  - rewrite Hrun' in Hrun. injection Hrun as <- <-. simpl.
    split; [|apply getTotalLinks_count].
    intros page. destruct (Map_get page (linkMap final)) as [links|] eqn:Hget.
    + destruct (Hvalues page links Hget) as [Hok ->].
      apply Map_get_Some_key, Hkeys in Hget as [Hin _].
      now rewrite (bool_decide_eq_true_2 _ Hin), Hok.
    + apply Map_get_None in Hget.
      destruct (bool_decide (page ∈ visitedUrls final)) eqn:Hin; [|reflexivity].
      destruct (fetch_ok env page) eqn:Hok; [|reflexivity].
      exfalso. apply Hget, Hkeys. split; [now apply bool_decide_eq_true in Hin | assumption].
Qed.

End LinkMapFacts.

(** Witness of the link map of a run: the run on the example site. *)
Lemma linkMap_records_fetched_links_witness :
  let run := @crawl _ HttpURL.api small_site "http://example.com/" SpiderCrawlOptions.empty
               new_SpiderCrawl in
  exists result,
    fst run = Normal result
    /\ Map_get "http://example.com/b" (SpiderCrawlResult.linkMap result)
       = Some (page_links small_site "http://example.com/b")
    /\ Map_get "http://example.com/a" (SpiderCrawlResult.linkMap result) = None.
Proof.
  cbv zeta.
  destruct (@crawl _ HttpURL.api small_site "http://example.com/" SpiderCrawlOptions.empty
              new_SpiderCrawl) as [outcome this'] eqn:Hrun.
  destruct outcome as [result|message]; [|vm_compute in Hrun; discriminate].
  assert (Hsuccess : SpiderCrawlResult.success result = true).
  { vm_compute in Hrun. now injection Hrun as <- _. }
  exists result. split; [reflexivity|].
  destruct (@linkMap_records_fetched_links _ HttpURL.api small_site _ _ _ _ _
              small_site_settles Hrun Hsuccess) as [Hget _].
  rewrite !Hget.
  assert (Hstate : this' = snd (@crawl _ HttpURL.api small_site "http://example.com/"
                                  SpiderCrawlOptions.empty new_SpiderCrawl))
    by now rewrite Hrun.
  rewrite Hstate. split; vm_compute; reflexivity.
Defined.

(** ** The views and the reports *)

Lemma Map_set_new {K V : Type} `{EqDecision K} (m : JSMap K V) (k : K) (v : V) :
  k ∉ Map_keys m -> Map_set k v m = (m ++ [(k, v)])%list.
Proof.
  induction m as [|[k0 v0] m IH]; simpl; [reflexivity|].
  intros [Hne Hnot]%not_elem_of_cons.
  rewrite decide_False by congruence. now rewrite IH.
Qed.

(** A filtered view is the link map with each list filtered and the pages
    dropped whose list came out empty, in the order of the link map. *)
Lemma filtered_links_list (keep : LinkData.t -> bool) (this : SpiderCrawl) :
  NoDup (Map_keys (linkMap this)) ->
  filtered_links keep this
  = flat_map (fun entry =>
                match List.filter keep (snd entry) with
                | [] => []
                | kept => [(fst entry, kept)]
                end) (linkMap this).
Proof.
  unfold filtered_links.
  assert (Hgen : forall (m acc : JSMap string (list LinkData.t)),
             NoDup (Map_keys m) ->
             (forall url, url ∈ Map_keys m -> url ∉ Map_keys acc) ->
             fold_left
               (fun filteredMap '(url, links) =>
                  let kept := List.filter keep links in
                  if 0 <? Z.of_nat (length kept) then Map_set url kept filteredMap
                  else filteredMap) m acc
             = (acc ++ flat_map (fun entry =>
                                   match List.filter keep (snd entry) with
                                   | [] => []
                                   | kept => [(fst entry, kept)]
                                   end) m)%list).
  { induction m as [|[url links] m IH]; intros acc Hnodup Hfresh; simpl in *.
    { now rewrite app_nil_r. }
    apply NoDup_cons in Hnodup as [Hurl Hnodup].
    assert (Hacc : url ∉ Map_keys acc) by (apply Hfresh, list_elem_of_here).
    destruct (List.filter keep links) as [|link kept] eqn:Hkept; simpl.
    - apply IH; [assumption|]. intros u Hu. apply Hfresh. now apply list_elem_of_further.
    - rewrite IH; [|assumption|].
      + rewrite (Map_set_new acc url _ Hacc), <- app_assoc. reflexivity.
      + intros u Hu. rewrite Map_keys_set_elem_of. intros [->|Hin]; [contradiction|].
        revert Hin. apply Hfresh. now apply list_elem_of_further. }
  intros Hnodup. rewrite Hgen; [reflexivity | assumption |].
  intros url _. apply not_elem_of_nil.
Qed.

Lemma count_filtered_links (keep : LinkData.t -> bool) (m : JSMap string (list LinkData.t)) :
  count_links (flat_map (fun entry =>
                           match List.filter keep (snd entry) with
                           | [] => []
                           | kept => [(fst entry, kept)]
                           end) m)
  = list_sum (map (fun entry => length (List.filter keep (snd entry))) m).
Proof.
  unfold count_links. induction m as [|[url links] m IH]; simpl; [reflexivity|].
  rewrite map_app, list_sum_app, IH.
  destruct (List.filter keep links); simpl; lia.
Qed.

Lemma keys_filtered_links (keep : LinkData.t -> bool) (m : JSMap string (list LinkData.t)) :
  sublist (Map_keys (flat_map (fun entry =>
                                 match List.filter keep (snd entry) with
                                 | [] => []
                                 | kept => [(fst entry, kept)]
                                 end) m))
          (Map_keys m).
Proof.
  unfold Map_keys. induction m as [|[url links] m IH]; simpl; [constructor|].
  rewrite map_app. destruct (List.filter keep links); simpl.
  - now apply sublist_cons.
  - now apply sublist_skip.
Qed.

(** The two views split the link map: every link is in exactly one of
    them, so their link counts add up to [getTotalLinks]; and each view
    lists its pages in the order of the link map. *)
Theorem views_split_the_links (this : SpiderCrawl) :
  NoDup (Map_keys (linkMap this)) ->
  getTotalLinks this
  = (count_links (getInternalLinks this) + count_links (getExternalLinks this))%nat
  /\ sublist (Map_keys (getInternalLinks this)) (Map_keys (linkMap this))
  /\ sublist (Map_keys (getExternalLinks this)) (Map_keys (linkMap this)).
Proof.
  intros Hnodup. unfold getInternalLinks, getExternalLinks.
  rewrite !filtered_links_list by assumption.
  split; [|split; apply keys_filtered_links].
  rewrite getTotalLinks_count, !count_filtered_links. unfold count_links.
  induction (linkMap this) as [|[url links] m IH]; simpl; [reflexivity|].
  apply NoDup_cons in Hnodup as [_ Hnodup]. rewrite (IH Hnodup).
  pose proof (filter_length (fun link => LinkData.isInternal link) links). lia.
Qed.

(** Witness of the split: the crawler after a run over two pages. *)
Lemma views_split_the_links_witness :
  getTotalLinks after_two_pages
  = (count_links (getInternalLinks after_two_pages)
     + count_links (getExternalLinks after_two_pages))%nat.
Proof.
  apply (views_split_the_links after_two_pages).
  simpl. repeat constructor; rewrite ?elem_of_cons, ?elem_of_nil; intuition discriminate.
Defined.

Section StatsFacts.
Context {U : Type} `{URLApi U} (env : Env).

Lemma uniqueDomains_loop (urls : list string) (domains : gset string) (d : string) :
  d ∈ fold_left
        (fun domains url =>
           match URL_new url with
           | Normal urlObj => domains ∪ {[URL_hostname urlObj]}
           | Throw _ => domains
           end) urls domains
  <-> (d ∈ domains)
      \/ exists url urlObj,
           url ∈ urls /\ URL_new url = Normal urlObj /\ URL_hostname urlObj = d.
Proof.
  revert domains. induction urls as [|url urls IH]; intros domains; simpl.
  - split; [now left|]. intros [Hd | (url & urlObj & Hin & _)]; [assumption|].
    now apply elem_of_nil in Hin.
  - rewrite IH. split.
    + intros [Hd | (u & urlObj & Hin & Hparse & Hhost)].
      * destruct (URL_new url) as [urlObj|] eqn:Hparse; [|now left].
        apply elem_of_union in Hd as [Hd | ->%elem_of_singleton]; [now left | right].
        exists url, urlObj. split; [apply list_elem_of_here | now split].
      * right. exists u, urlObj. split; [now apply list_elem_of_further | now split].
    + intros [Hd | (u & urlObj & [->|Hin]%elem_of_cons & Hparse & Hhost)].
      * left. destruct (URL_new url); [|assumption]. apply elem_of_union. now left.
      * left. rewrite Hparse. apply elem_of_union. right. now apply elem_of_singleton.
      * right. exists u, urlObj. now split.
Qed.

Lemma uniqueDomains_loop_size (urls : list string) (domains : gset string) :
  (size (fold_left
           (fun domains url =>
              match URL_new url with
              | Normal urlObj => domains ∪ {[URL_hostname urlObj]}
              | Throw _ => domains
              end) urls domains)
   <= size domains + length urls)%nat.
Proof.
  revert domains. induction urls as [|url urls IH]; intros domains; simpl; [lia|].
  etransitivity; [apply IH|].
  destruct (URL_new url) as [urlObj|]; [|lia].
  pose proof (size_union_alt domains {[URL_hostname urlObj]}) as Hsize.
  assert (size ({[URL_hostname urlObj]} ∖ domains) <= 1)%nat.
  { etransitivity; [apply subseteq_size, subseteq_difference_l; reflexivity|].
    now rewrite size_singleton. }
  lia.
Qed.

(** [getStats]: the domains are the host names of the visited URLs that
    parse, so there are no more domains than visited URLs; a visited URL
    that does not parse is skipped; and with nothing visited the average
    is [0]. *)
Theorem stats_domains_of_visited (this : SpiderCrawl) :
  (forall d, d ∈ Stats.uniqueDomains (getStats this)
             <-> exists url urlObj,
                   url ∈ visitedUrls this
                   /\ URL_new url = Normal urlObj /\ URL_hostname urlObj = d)
  /\ (size (Stats.uniqueDomains (getStats this)) <= Stats.visitedUrls (getStats this))%nat
  /\ (Stats.visitedUrls (getStats this) = 0%nat ->
      Stats.averageLinksPerPage (getStats this) = QArith_base.Qmake 0 1).
Proof.
  split; [|split].
  - intros d. simpl. unfold uniqueDomains. rewrite uniqueDomains_loop. split.
    + intros [Hd | (url & urlObj & Hin & Hrest)]; [now apply not_elem_of_empty in Hd|].
      exists url, urlObj. split; [now apply elem_of_elements | assumption].
    + intros (url & urlObj & Hin & Hrest). right.
      exists url, urlObj. split; [now apply elem_of_elements | assumption].
  - simpl. unfold uniqueDomains.
    etransitivity; [apply uniqueDomains_loop_size|]. now rewrite size_empty.
  - simpl. intros ->. reflexivity.
Qed.

Lemma processBatch_queue_admissible (depth : Z) (batch : list string) (baseUrlObj : U)
    (options : SpiderCrawlOptions.t) (this : SpiderCrawl) (newUrl : string) :
  newUrl ∈ queue (snd (processBatch env depth batch baseUrlObj options this)) ->
  (newUrl ∈ queue this) \/ admissible newUrl baseUrlObj options ∅.
Proof.
  unfold processBatch, bind.
  destruct (begin_batch_state batch options this)
    as (inFlight & mid & -> & _ & _ & _ & _ & _ & Hq & _).
  destruct (resume_loop_queue env (settle_order env depth inFlight) baseUrlObj options mid)
    as (final & -> & _ & Hq').
  simpl. rewrite Hq', Hq, elem_of_app, elem_of_flat_map.
  intros [Hold | (page & _ & Hnew)]; [now left | right].
  apply elem_of_admitted_links in Hnew as (link & _ & _ & Hadm).
  now apply admissible_unvisited in Hadm as [_ Hadm].
Qed.

(** A run stays in scope, whatever the fetches do: each URL it visits is
    the normalized start URL or passes the filters. *)
Lemma crawl_scope (url baseUrl : string) (baseUrlObj : U)
    (options : SpiderCrawlOptions.argument) (this : SpiderCrawl) :
  normalizeUrl url = Normal baseUrl ->
  URL_new baseUrl = Normal baseUrlObj ->
  let finalOptions := SpiderCrawlOptions.spread SpiderCrawlOptions.defaultOptions options in
  forall page,
    page ∈ visitedUrls (snd (crawl env url options this)) ->
    page = baseUrl \/ admissible page baseUrlObj finalOptions ∅.
Proof.
  intros Hnorm Hparse finalOptions page Hpage.
  rewrite (crawl_final_state env url baseUrl baseUrlObj options this Hnorm Hparse) in Hpage.
  cbn [snd] in Hpage. fold finalOptions in Hpage. unfold processQueue in Hpage.
  set (P := fun (_ : nat) (st : SpiderCrawl) =>
              forall p, (p ∈ visitedUrls st) \/ (p ∈ queue st) ->
                        p = baseUrl \/ admissible p baseUrlObj finalOptions ∅).
  destruct (processQueue_loop_depth env P baseUrlObj finalOptions
              (number_or (SpiderCrawlOptions.maxDepth finalOptions) 3))
    with (turns := Z.to_nat (Qceiling (number_or (SpiderCrawlOptions.maxDepth finalOptions) 3)))
         (d := 0%nat) (this := queue_push baseUrl (reset this))
    as (final & d' & Hrun & Hfinal & _).
  - intros d st HP _ _ p [Hv | Hq].
    + destruct (processBatch_state env (Z.of_nat d) (queue st) baseUrlObj finalOptions
                  (queue_clear st)) as (inFlight & after & Hrun & _ & Hin & Hvisited & _).
      rewrite Hrun in Hv. simpl in Hv, Hvisited.
      rewrite Hvisited, elem_of_union, elem_of_list_to_set in Hv.
      destruct Hv as [Hold | Hnew]; [apply HP; now left|].
      apply HP. right. now apply Hin.
    + apply processBatch_queue_admissible in Hq as [Hnil | Hadm]; [|now right].
      simpl in Hnil. now apply elem_of_nil in Hnil.
  - intros p [Hv | Hq]; simpl in *.
    + now apply not_elem_of_empty in Hv.
    + left. now apply list_elem_of_singleton in Hq.
  - lia.
  - change (Z.of_nat 0) with 0 in Hrun. rewrite Hrun in Hpage. simpl in Hpage.
    apply Hfinal. now left.
Qed.

(** The domain restriction is on exactly for a caller who passes
    [sameDomain: true] or no [sameDomain] at all: a property that is
    present wins over the default, also when it is [undefined] or
    [null]. *)
Lemma sameDomain_on (options : SpiderCrawlOptions.argument) :
  truthy (SpiderCrawlOptions.sameDomain
            (SpiderCrawlOptions.spread SpiderCrawlOptions.defaultOptions options)) = true
  <-> SpiderCrawlOptions.own_sameDomain options = None
      \/ SpiderCrawlOptions.own_sameDomain options = Some (Some true).
Proof.
  simpl. destruct (SpiderCrawlOptions.own_sameDomain options) as [[[]|]|]; simpl;
    split; intros Hon; try tauto; try discriminate;
    destruct Hon as [Hon | Hon]; discriminate.
Qed.

(** [getStats] after a run that succeeded: it reports the page count and
    the link count that the run returned; and if the run was started with
    [sameDomain: true] or without the property, the only domain it can
    report is the host name of the start URL.  (With [sameDomain] present
    and [false], [undefined] or [null] the restriction is off:
    [sameDomain_on].) *)
Theorem stats_after_crawl (url : string) (options : SpiderCrawlOptions.argument)
    (this this' : SpiderCrawl) (result : SpiderCrawlResult.t) :
  crawl env url options this = (Normal result, this') ->
  SpiderCrawlResult.success result = true ->
  Stats.visitedUrls (getStats this') = SpiderCrawlResult.totalPages result
  /\ Stats.totalLinks (getStats this') = SpiderCrawlResult.totalLinks result
  /\ (SpiderCrawlOptions.own_sameDomain options = None
      \/ SpiderCrawlOptions.own_sameDomain options = Some (Some true) ->
      exists baseUrlObj,
        URL_new (SpiderCrawlResult.baseUrl result) = Normal baseUrlObj
        /\ Stats.uniqueDomains (getStats this') ⊆ {[URL_hostname baseUrlObj]}).
Proof.
  intros Hrun Hsuccess.
  destruct (normalizeUrl_normal url) as [baseUrl Hnorm].
  destruct (URL_new baseUrl) as [baseUrlObj|message] eqn:Hparse.
  2: { rewrite (crawl_unparsable_base env url baseUrl message options this Hnorm Hparse) in Hrun.
       injection Hrun as <- <-. discriminate. }
  pose proof (crawl_scope url baseUrl baseUrlObj options this Hnorm Hparse) as Hscope.
  rewrite (crawl_final_state env url baseUrl baseUrlObj options this Hnorm Hparse) in Hrun, Hscope.
  injection Hrun as <- <-. cbn [snd] in Hscope.
  set (final := snd (processQueue env baseUrlObj _ _)) in *.
  split; [reflexivity|]. split; [reflexivity|].
  intros Hsame. exists baseUrlObj. split; [exact Hparse|].
  intros d Hd. apply elem_of_singleton.
  simpl in Hd. unfold uniqueDomains in Hd.
  apply uniqueDomains_loop in Hd as [Hd | (page & urlObj & Hin & Hobj & <-)];
    [now apply not_elem_of_empty in Hd|].
  apply elem_of_elements in Hin.
  destruct (Hscope page Hin) as [-> | (_ & urlObj' & Hobj' & [Hoff | Hhost] & _)].
  - congruence.
  - apply sameDomain_on in Hsame. congruence.
  - congruence.
Qed.

End StatsFacts.

(** Witness of the report after a run: the run on the example site. *)
Lemma stats_after_crawl_witness :
  let run := @crawl _ HttpURL.api small_site "http://example.com/" SpiderCrawlOptions.empty
               new_SpiderCrawl in
  exists result,
    fst run = Normal result
    /\ Stats.visitedUrls (@getStats _ HttpURL.api (snd run))
       = SpiderCrawlResult.totalPages result
    /\ Stats.totalLinks (@getStats _ HttpURL.api (snd run))
       = SpiderCrawlResult.totalLinks result
    /\ Stats.uniqueDomains (@getStats _ HttpURL.api (snd run)) ⊆ {["example.com"]}.
Proof.
  cbv zeta.
  destruct (@crawl _ HttpURL.api small_site "http://example.com/" SpiderCrawlOptions.empty
              new_SpiderCrawl) as [outcome this'] eqn:Hrun.
  destruct outcome as [result|message]; [|vm_compute in Hrun; discriminate].
  assert (Hsuccess : SpiderCrawlResult.success result = true).
  { vm_compute in Hrun. now injection Hrun as <- _. }
  assert (Hbase : SpiderCrawlResult.baseUrl result = "http://example.com/").
  { vm_compute in Hrun. now injection Hrun as <- _. }
  exists result. split; [reflexivity|].
  destruct (@stats_after_crawl _ HttpURL.api small_site _ _ _ _ _ Hrun Hsuccess)
    as (Hpages & Hlinks & Hdomains).
  split; [assumption|]. split; [assumption|].
  destruct (Hdomains (or_introl eq_refl)) as (baseUrlObj & Hparse & Hsub).
  rewrite Hbase in Hparse. vm_compute in Hparse. injection Hparse as <-. exact Hsub.
Defined.

(** ** The export *)

(** [exportLinkMap] is the link map as an object: a page is a property of
    the object exactly if it is a key of the link map, with the same links;
    save for a page named [__proto__], which the object never has as a
    property. *)
Theorem exportLinkMap_lookup (this : SpiderCrawl) (url : string) :
  NoDup (Map_keys (linkMap this)) ->
  exportLinkMap this !! url
  = if decide (url = "__proto__") then None else Map_get url (linkMap this).
Proof.
  unfold exportLinkMap.
  assert (Hgen : forall (m : JSMap string (list LinkData.t))
                        (acc : gmap string (list LinkData.t)),
             NoDup (Map_keys m) ->
             fold_left (fun exportData '(page, links) => Object_set page links exportData)
                       m acc !! url
             = if decide (url = "__proto__") then acc !! url
               else match Map_get url m with
                    | Some links => Some links
                    | None => acc !! url
                    end).
  { induction m as [|[page links] m IH]; intros acc Hnodup; simpl.
    { now destruct (decide (url = "__proto__")). }
    apply NoDup_cons in Hnodup as [Hfresh Hnodup]. rewrite (IH _ Hnodup).
    destruct (decide (url = "__proto__")) as [->|Hurl].
    - unfold Object_set. destruct (decide (page = "__proto__")) as [->|Hpage]; [reflexivity|].
      now rewrite lookup_insert_ne.
    - destruct (decide (page = url)) as [->|Hne].
      + apply Map_get_None in Hfresh. simpl in Hfresh. rewrite Hfresh.
        unfold Object_set. rewrite decide_False by assumption. now rewrite lookup_insert_eq.
      + destruct (Map_get url m); [reflexivity|].
        unfold Object_set. destruct (decide (page = "__proto__")); [reflexivity|].
        now rewrite lookup_insert_ne. }
  intros Hnodup. rewrite (Hgen _ _ Hnodup), lookup_empty.
  destruct (decide (url = "__proto__")); [reflexivity|].
  now destruct (Map_get url (linkMap this)).
Qed.

(** Witness of the export: the crawler after a run over two pages. *)
Lemma exportLinkMap_lookup_witness :
  exportLinkMap after_two_pages !! "http://example.com/docs"
  = Map_get "http://example.com/docs" (linkMap after_two_pages).
Proof.
  rewrite (exportLinkMap_lookup after_two_pages "http://example.com/docs").
  - reflexivity.
  - simpl. repeat constructor; rewrite ?elem_of_cons, ?elem_of_nil; intuition discriminate.
Defined.

(** ** What [getTab] hands out, and how it fails *)

Section PoolFacts.
Import PuppeteerController.

(** [getTab] down to the wait, on a pool whose browser runs. *)
Lemma getTab_once_running (w : Answers) (this : t) (b : Browser) :
  browser this = Some b ->
  getTab_once w this
  = match first_idle (tabs this) with
    | Some (tabId, tabInfo) =>
        let this := with_tabs (Map_set tabId (mark_inUse (clock w) tabInfo) (tabs this)) this in
        match browser_pages w with
        | Throw message => (Throw message, this)
        | Normal _ =>
            match find_page (TabInfo.url tabInfo) b with
            | Some page => (Normal (Got page), this)
            | None =>
                match createNewTab w this with
                | (Normal page, after) => (Normal (Got page), after)
                | (Throw message, after) => (Throw message, after)
                end
            end
        end
    | None =>
        if Z.of_nat (Map_size (tabs this)) <? maxTabs this
        then match createNewTab w this with
             | (Normal page, after) => (Normal (Got page), after)
             | (Throw message, after) => (Throw message, after)
             end
        else (Normal MustWait, this)
    end.
Proof.
  intros Hb. unfold getTab_once, bind at 1, initialize. rewrite Hb, Hb.
  destruct (first_idle (tabs this)) as [[tabId tabInfo]|]; [|reflexivity].
  cbv zeta. destruct (browser_pages w); [|reflexivity].
  destruct (find_page (TabInfo.url tabInfo) b); reflexivity.
Qed.

(** [getTab] down to the wait, on a pool without a browser. *)
Lemma getTab_once_launch (w : Answers) (this : t) :
  browser this = None ->
  getTab_once w this
  = match puppeteer_launch w with
    | Normal b => getTab_once w (with_browser (Some b) this)
    | Throw message => (Throw ("Browser initialization failed: " ++ message), this)
    end.
Proof.
  intros Hb. destruct (puppeteer_launch w) as [b|message] eqn:Hlaunch.
  - rewrite (getTab_once_running w (with_browser (Some b) this) b eq_refl).
    unfold getTab_once, bind at 1, initialize. rewrite Hb, Hlaunch. cbn [browser with_browser].
    destruct (first_idle (tabs (with_browser (Some b) this))) as [[tabId tabInfo]|];
      [|reflexivity].
    cbv zeta. destruct (browser_pages w); [|reflexivity].
    destruct (find_page (TabInfo.url tabInfo) b); reflexivity.
  - unfold getTab_once, bind at 1, initialize. now rewrite Hb, Hlaunch.
Qed.

(** The configuration fails with the failure of one of its three calls. *)
Lemma configure_Throw (w : Answers) (message : string) :
  configure w = Throw message ->
  page_setViewport w = Throw message
  \/ page_setUserAgent w = Throw message
  \/ page_setRequestInterception w = Throw message.
Proof.
  unfold configure. destruct (page_setViewport w); [|now left].
  destruct (page_setUserAgent w); [|now right; left]. intros ->. now right; right.
Qed.

(** [createNewTab] on a running pool: the page cannot be opened, and
    nothing has changed; or the page is open but its configuration fails,
    and the page is not registered; or the page is open, configured and
    registered as a tab in use. *)
Lemma createNewTab_cases (w : Answers) (this : t) (b : Browser) :
  browser this = Some b ->
  (exists message, browser_newPage w = Throw message
                   /\ createNewTab w this = (Throw message, this))
  \/ (exists fresh message,
        browser_newPage w = Normal fresh
        /\ configure w = Throw message
        /\ createNewTab w this
           = (Throw message, with_browser (Some {| pages := (pages b ++ [fresh])%list |}) this))
  \/ (exists fresh,
        browser_newPage w = Normal fresh
        /\ configure w = Normal tt
        /\ createNewTab w this
           = (Normal {| page_id := page_id fresh; page_url := page_url fresh;
                        on_close := (on_close fresh ++ [page_url fresh])%list |},
              {| browser :=
                   Some {| pages :=
                             (pages b
                              ++ [{| page_id := page_id fresh; page_url := page_url fresh;
                                     on_close := (on_close fresh ++ [page_url fresh])%list |}])%list
                        |};
                 tabs := Map_set (page_url fresh)
                           {| TabInfo.id := page_url fresh; TabInfo.url := page_url fresh;
                              TabInfo.inUse := true;
                              TabInfo.createdAt := clock w; TabInfo.lastUsed := clock w |}
                           (tabs this);
                 maxTabs := maxTabs this |})).
Proof.
  intros Hb. unfold createNewTab. rewrite Hb.
  destruct (browser_newPage w) as [fresh|message].
  - destruct (configure w) as [[]|message].
    + right. right. now exists fresh.
    + right. left. now exists fresh, message.
  - left. now exists message.
Qed.

Lemma createNewTab_handed_out (w : Answers) (this after : t) (b : Browser) (page : Page) :
  browser this = Some b ->
  createNewTab w this = (Normal page, after) ->
  handed_out page after.
Proof.
  intros Hb Hnew.
  destruct (createNewTab_cases w this b Hb)
    as [(message & _ & Hrun) | [(fresh & message & _ & _ & Hrun) | (fresh & _ & _ & Hrun)]];
    rewrite Hrun in Hnew; [discriminate | discriminate |].
  injection Hnew as <- <-. eexists _, (page_url fresh), _. cbn [browser tabs pages].
  split; [reflexivity|]. split; [apply elem_of_app; right; apply list_elem_of_here|].
  split; [rewrite Map_get_set; now rewrite decide_True|]. split; reflexivity.
Qed.

(** The failures of [createNewTab] on a running pool. *)
Lemma createNewTab_Throw (w : Answers) (this after : t) (message : string) :
  browser this <> None ->
  createNewTab w this = (Throw message, after) ->
  browser_newPage w = Throw message
  \/ (is_normal (browser_newPage w) = true /\ configure w = Throw message).
Proof.
  intros Hb Hnew. destruct (browser this) as [b|] eqn:Hbrowser; [|congruence].
  destruct (createNewTab_cases w this b Hbrowser)
    as [(failure & Hpage & Hrun) | [(fresh & failure & Hpage & Hconfigure & Hrun)
                                   | (fresh & _ & _ & Hrun)]];
    rewrite Hrun in Hnew; [| |discriminate]; injection Hnew as <- _.
  - now left.
  - right. now rewrite Hpage.
Qed.

Lemma getTab_once_handed_out (w : Answers) (this after : t) (page : Page) :
  getTab_once w this = (Normal (Got page), after) -> handed_out page after.
Proof.
  assert (Hrunning : forall st b, browser st = Some b ->
                       getTab_once w st = (Normal (Got page), after) ->
                       handed_out page after).
  { intros st b Hb. rewrite (getTab_once_running w st b Hb).
    destruct (first_idle (tabs st)) as [[tabId tabInfo]|].
    - cbv zeta. destruct (browser_pages w); [|discriminate].
      destruct (find_page (TabInfo.url tabInfo) b) as [found|] eqn:Hfind.
      + intros [= <- <-]. apply find_page_Some in Hfind as [Hin Hurl].
        exists b, tabId, (mark_inUse (clock w) tabInfo). cbn [browser tabs with_tabs].
        split; [assumption|]. split; [assumption|].
        split; [rewrite Map_get_set; now rewrite decide_True|]. split; [reflexivity|].
        now rewrite Hurl.
      + destruct (createNewTab w _) as [[opened|message] st'] eqn:Hnew; [|discriminate].
        intros [= <- <-]. eapply createNewTab_handed_out; [|exact Hnew]. exact Hb.
    - destruct (Z.of_nat (Map_size (tabs st)) <? maxTabs st); [|discriminate].
      destruct (createNewTab w st) as [[opened|message] st'] eqn:Hnew; [|discriminate].
      intros [= <- <-]. eapply createNewTab_handed_out; [|exact Hnew]. exact Hb. }
  destruct (browser this) as [b|] eqn:Hb; [now apply (Hrunning this b)|].
  rewrite (getTab_once_launch w this Hb).
  destruct (puppeteer_launch w) as [b|]; [|discriminate].
  now apply (Hrunning _ b).
Qed.

(** A page that a wait resolves with is the page that one of its polls has
    obtained. *)
Lemma poll_handed_out (found : list (Answers * (option Browser * JSMap string TabInfo.t)))
    (this after : t) (page : Page) :
  poll found this = (Normal page, after) -> handed_out page after.
Proof.
  revert this. induction found as [|[w [b m]] found IH]; intros this; [discriminate|].
  cbn [poll].
  destruct (getTab_once w _) as [[[obtained|]|message] mid] eqn:Honce.
  - intros [= <- <-]. now apply getTab_once_handed_out in Honce.
  - apply IH.
  - apply IH.
Qed.

(** A wait rejects in one way. *)
Lemma poll_timeout (found : list (Answers * (option Browser * JSMap string TabInfo.t)))
    (this after : t) (message : string) :
  poll found this = (Throw message, after) ->
  message = "Timeout waiting for available tab".
Proof.
  revert this. induction found as [|[w [b m]] found IH]; intros this.
  - now intros [= <- _].
  - cbn [poll].
    destruct (getTab_once w _) as [[[obtained|]|failure] mid]; [discriminate | apply IH..].
Qed.

(** What [getTab] hands out is an open page of the browser, and the table
    has a tab in use whose URL is the URL the page shows: on each of its
    paths, the reuse of an idle tab, the new tab, and the wait, whose page
    is the page a poll has obtained in one of these two ways. *)
Theorem getTab_hands_out_open_page (w : World) (this after : t) (page : Page) :
  getTab w this = (Normal page, after) -> handed_out page after.
Proof.
  unfold getTab, bind.
  destruct (getTab_once w this) as [[[found|]|message] mid] eqn:Honce; [| |discriminate].
  - intros [= <- <-]. now apply getTab_once_handed_out in Honce.
  - apply poll_handed_out.
Qed.

(** The ways in which [getTab] rejects.
    - The browser does not start: the pool is left as it was.
    - An idle tab was found, and marked in use, but [browser.pages()]
      rejects.
    - The browser cannot open a page.
    - The page was opened, but one of the three calls that configure it
      rejects.
    - The table was full with every tab in use when the call came, and the
      wait for a tab ran out. *)
Theorem getTab_failures (w : World) (this after : t) (message : string) :
  getTab w this = (Throw message, after) ->
  (exists reason,
     puppeteer_launch w = Throw reason /\ browser this = None
     /\ message = "Browser initialization failed: " ++ reason /\ after = this)
  \/ (browser_pages w = Throw message /\ first_idle (tabs this) <> None)
  \/ browser_newPage w = Throw message
  \/ (is_normal (browser_newPage w) = true
      /\ (page_setViewport w = Throw message
          \/ page_setUserAgent w = Throw message
          \/ page_setRequestInterception w = Throw message))
  \/ (message = "Timeout waiting for available tab"
      /\ first_idle (tabs this) = None
      /\ maxTabs this <= Z.of_nat (Map_size (tabs this))).
Proof.
  assert (Hnew : forall st failure st',
             createNewTab w st = (Throw failure, st') ->
             browser st <> None ->
             browser_newPage w = Throw failure
             \/ (is_normal (browser_newPage w) = true
                 /\ (page_setViewport w = Throw failure
                     \/ page_setUserAgent w = Throw failure
                     \/ page_setRequestInterception w = Throw failure))).
  { intros st failure st' Hfail Hb.
    destruct (createNewTab_Throw w st st' failure Hb Hfail) as [Hpage | [Hpage Hconfigure]];
      [now left | right].
    split; [assumption | now apply configure_Throw]. }
  assert (Hrunning : forall st b, browser st = Some b ->
             tabs st = tabs this -> maxTabs st = maxTabs this ->
             match getTab_once w st with
             | (Normal (Got _), _) => True
             | (Normal MustWait, _) =>
                 first_idle (tabs this) = None
                 /\ maxTabs this <= Z.of_nat (Map_size (tabs this))
             | (Throw failure, _) =>
                 (browser_pages w = Throw failure /\ first_idle (tabs this) <> None)
                 \/ browser_newPage w = Throw failure
                 \/ (is_normal (browser_newPage w) = true
                     /\ (page_setViewport w = Throw failure
                         \/ page_setUserAgent w = Throw failure
                         \/ page_setRequestInterception w = Throw failure))
             end).
  { intros st b Hb Htabs Hmax. rewrite (getTab_once_running w st b Hb), Htabs, Hmax.
    destruct (first_idle (tabs this)) as [[tabId tabInfo]|].
    - cbv zeta. destruct (browser_pages w) as [[]|failure]; [|left; now split].
      destruct (find_page (TabInfo.url tabInfo) b); [exact I|].
      destruct (createNewTab w _) as [[opened|failure] st'] eqn:Hfail; [exact I|].
      right. apply (Hnew _ _ _ Hfail). cbn [browser with_tabs]. congruence.
    - destruct (Z.of_nat (Map_size (tabs this)) <? maxTabs this) eqn:Hroom.
      + destruct (createNewTab w st) as [[opened|failure] st'] eqn:Hfail; [exact I|].
        right. apply (Hnew _ _ _ Hfail). congruence.
      + split; [reflexivity | lia]. }
  unfold getTab, bind.
  destruct (browser this) as [b|] eqn:Hb.
  - specialize (Hrunning this b Hb eq_refl eq_refl).
    destruct (getTab_once w this) as [[[found|]|failure] mid]; [discriminate| |].
    + intros Hwait%poll_timeout. do 4 right. now split.
    + intros [= <- _]. right. destruct Hrunning as [H | [H | H]]; tauto.
  - rewrite (getTab_once_launch w this Hb).
    destruct (puppeteer_launch w) as [b|reason] eqn:Hlaunch.
    + specialize (Hrunning (with_browser (Some b) this) b eq_refl eq_refl eq_refl).
      destruct (getTab_once w _) as [[[found|]|failure] mid]; [discriminate| |].
      * intros Hwait%poll_timeout. do 4 right. now split.
      * intros [= <- _]. right. destruct Hrunning as [H | [H | H]]; tauto.
    + intros [= <- <-]. left. now exists reason.
Qed.

End PoolFacts.

(** Witness of what [getTab] hands out, on the path of the wait: the pool
    is saturated, the caller waits, and the second poll finds the tab
    released and obtains a page at the URL of the tab. *)
Lemma getTab_hands_out_open_page_witness :
  let w := chrome_while_released 2000 2 1000 in
  fst (PuppeteerController.getTab_once w saturated_pool) = Normal PuppeteerController.MustWait
  /\ fst (PuppeteerController.getTab w saturated_pool) = Normal (blank_page 0)
  /\ handed_out (blank_page 0) (snd (PuppeteerController.getTab w saturated_pool)).
Proof.
  cbv zeta. split; [reflexivity|]. split; [reflexivity|].
  apply (getTab_hands_out_open_page (chrome_while_released 2000 2 1000) saturated_pool).
  reflexivity.
Defined.

(** A world in which the page that [newPage] opens cannot be configured:
    the request interception is refused. *)
Lemma getTab_failures_witness :
  let w :=
    {| answers :=
         {| clock := 0;
            puppeteer_launch := Normal {| pages := [blank_page 0] |};
            browser_pages := Normal tt;
            browser_newPage := Normal (blank_page 1);
            page_setViewport := Normal tt;
            page_setUserAgent := Normal tt;
            page_setRequestInterception :=
              Throw "Protocol error (Fetch.enable): Target closed";
            page_close := Normal tt |};
       polls := fun _ _ => [] |} in
  fst (PuppeteerController.getTab w (PuppeteerController.new None))
  = Throw "Protocol error (Fetch.enable): Target closed"
  /\ page_setRequestInterception w = Throw "Protocol error (Fetch.enable): Target closed".
Proof.
  cbv zeta. split; [reflexivity|].
  destruct (getTab_failures
              {| answers :=
                   {| clock := 0;
                      puppeteer_launch := Normal {| pages := [blank_page 0] |};
                      browser_pages := Normal tt;
                      browser_newPage := Normal (blank_page 1);
                      page_setViewport := Normal tt;
                      page_setUserAgent := Normal tt;
                      page_setRequestInterception :=
                        Throw "Protocol error (Fetch.enable): Target closed";
                      page_close := Normal tt |};
                 polls := fun _ _ => [] |}
              (PuppeteerController.new None) _ "Protocol error (Fetch.enable): Target closed"
              eq_refl)
    as [(reason & Hlaunch & _) | [[Hpages _] | [Hpage | [[_ [Hview | [Hagent | Hrequest]]]
                                                        | [Htimeout _]]]]];
    try discriminate.
  exact Hrequest.
Defined.

(** ** The table: statistics, release, close *)

Section TableFacts.
Import PuppeteerController.

Lemma first_idle_None_count (m : JSMap string TabInfo.t) :
  first_idle m = None
  <-> length (List.filter (fun tabInfo => negb (TabInfo.inUse tabInfo)) (Map_values m)) = 0%nat.
Proof.
  unfold first_idle, Map_values. induction m as [|[k tabInfo] m IH]; simpl; [tauto|].
  destruct (negb (TabInfo.inUse tabInfo)); simpl; [|exact IH].
  split; discriminate.
Qed.

(** [getTabStats]: the total is the size of the table, and it is the sum
    of the tabs in use and the tabs available; a tab is available exactly
    if [getTab] would reuse it; and on a running pool [getTab] has to wait
    exactly if no tab is available and the total has reached [maxTabs]. *)
Theorem getTabStats_counts (this : t) :
  let total := fst (fst (getTabStats this)) in
  let inUse := snd (fst (getTabStats this)) in
  let available := snd (getTabStats this) in
  total = Map_size (tabs this)
  /\ total = (inUse + available)%nat
  /\ available
     = length (List.filter (fun tabInfo => negb (TabInfo.inUse tabInfo))
                           (Map_values (tabs this)))
  /\ (available = 0%nat <-> first_idle (tabs this) = None)
  /\ (forall w b,
        browser this = Some b ->
        fst (getTab_once w this) = Normal MustWait
        <-> available = 0%nat /\ maxTabs this <= Z.of_nat total).
Proof.
  cbn [getTabStats fst snd].
  pose proof (filter_length TabInfo.inUse (Map_values (tabs this))) as Hsplit.
  assert (Hsize : Map_size (tabs this) = length (Map_values (tabs this))).
  { unfold Map_size, Map_values. now rewrite length_map. }
  assert (Hidle : (Map_size (tabs this)
                   - length (List.filter TabInfo.inUse (Map_values (tabs this))))%nat
                  = length (List.filter (fun tabInfo => negb (TabInfo.inUse tabInfo))
                                        (Map_values (tabs this)))) by lia.
  split; [reflexivity|]. split; [lia|]. split; [exact Hidle|].
  rewrite Hidle. split; [symmetry; apply first_idle_None_count|].
  intros w b Hb. rewrite (getTab_once_running w this b Hb), <- first_idle_None_count.
  destruct (first_idle (tabs this)) as [[tabId tabInfo]|].
  - cbv zeta. split; [|now intros [? _]].
    destruct (browser_pages w); [|discriminate].
    destruct (find_page (TabInfo.url tabInfo) b); [discriminate|].
    now destruct (createNewTab w _) as [[opened|message] st'].
  - destruct (Z.of_nat (Map_size (tabs this)) <? maxTabs this) eqn:Hroom.
    + split; [|lia]. now destruct (createNewTab w this) as [[opened|message] st'].
    + split; [|reflexivity]. intros _. split; [reflexivity | lia].
Qed.

Lemma Map_set_twice {V : Type} (m : JSMap string V) (k : string) (v v' : V) :
  Map_set k v' (Map_set k v m) = Map_set k v' m.
Proof.
  induction m as [|[k0 v0] m IH]; simpl.
  - now rewrite decide_True.
  - destruct (decide (k0 = k)) as [->|Hne]; simpl.
    + now rewrite decide_True.
    + rewrite decide_False by assumption. now rewrite IH.
Qed.

(** [releaseTab] touches one entry at most, the one under the URL the page
    shows: it marks it idle and stamps it.  The browser, the capacity, the
    keys and every other entry stay; if no tab is registered under that
    URL nothing changes at all; and a second release only moves the
    stamp. *)
Theorem releaseTab_frame (now : Z) (page : Page) (this : t) :
  let after := releaseTab now page this in
  browser after = browser this
  /\ maxTabs after = maxTabs this
  /\ Map_keys (tabs after) = Map_keys (tabs this)
  /\ Map_get (page_url page) (tabs after)
     = mark_idle now <$> Map_get (page_url page) (tabs this)
  /\ (forall k, k <> page_url page -> Map_get k (tabs after) = Map_get k (tabs this))
  /\ (Map_get (page_url page) (tabs this) = None -> after = this)
  /\ (forall later, releaseTab later page after = releaseTab later page this).
Proof.
  cbv zeta. unfold releaseTab.
  destruct (Map_get (page_url page) (tabs this)) as [tabInfo|] eqn:Hget.
  - cbn [browser maxTabs tabs with_tabs].
    split; [reflexivity|]. split; [reflexivity|].
    split; [apply Map_keys_set_old; eapply Map_get_Some_key; eassumption|].
    split; [rewrite Map_get_set; now rewrite decide_True|].
    split; [intros k Hk; rewrite Map_get_set; now rewrite decide_False by congruence|].
    split; [discriminate|].
    intros later. rewrite Map_get_set, decide_True by reflexivity.
    unfold with_tabs. cbn [browser maxTabs tabs]. now rewrite Map_set_twice.
  - rewrite Hget. repeat split; reflexivity.
Qed.

(** [closeTab page] on a running pool never throws, and it always deletes
    the entry under the URL the page shows.  If the browser has the page
    and [page.close()] resolves, the page leaves the browser and the
    entries under the ids that the close listeners of the page hold are
    gone too; every other entry stays.  If the browser has the page no
    more, or [page.close()] rejects, the rejection is caught: no listener
    runs, and nothing but the one entry has changed. *)
Theorem closeTab_effect (w : World) (page : Page) (this : t) (b : Browser) :
  browser this = Some b ->
  NoDup (Map_keys (tabs this)) ->
  let after := closeTab w page this in
  maxTabs after = maxTabs this
  /\ NoDup (Map_keys (tabs after))
  /\ Map_get (page_url page) (tabs after) = None
  /\ match List.find (fun p => Nat.eqb (page_id p) (page_id page)) (pages b), page_close w with
     | Some open, Normal _ =>
         (exists b', browser after = Some b'
                     /\ forall p, p ∈ pages b' <-> (p ∈ pages b) /\ page_id p <> page_id page)
         /\ (forall k, k ∈ on_close open -> Map_get k (tabs after) = None)
         /\ (forall k, k ∉ on_close open -> k <> page_url page ->
                       Map_get k (tabs after) = Map_get k (tabs this))
     | _, _ =>
         browser after = browser this
         /\ (forall k, k <> page_url page -> Map_get k (tabs after) = Map_get k (tabs this))
     end.
Proof.
  intros Hb Hnodup after.
  pose proof (Map_delete_NoDup (tabs this) (page_url page) Hnodup) as Hdel.
  assert (Hurl : Map_get (page_url page) (Map_delete (page_url page) (tabs this)) = None).
  { rewrite Map_get_delete by assumption. now rewrite decide_True. }
  assert (Hother : forall k, k <> page_url page ->
             Map_get k (Map_delete (page_url page) (tabs this)) = Map_get k (tabs this)).
  { intros k Hne. rewrite Map_get_delete by assumption. now rewrite decide_False. }
  assert (Hcaught : closeTab w page this = with_tabs (Map_delete (page_url page) (tabs this)) this
                    -> browser after = browser this
                       /\ (forall k, k <> page_url page ->
                                     Map_get k (tabs after) = Map_get k (tabs this))).
  { subst after. intros ->. now split. }
  destruct (closeTab_cases w page this b Hb)
    as [(open & Hfind & Hclose & Hrun) | ([Hfind | [message Hclose]] & Hrun)].
  - rewrite Hfind, Hclose. subst after. rewrite Hrun. cbn [browser tabs maxTabs].
    split; [reflexivity|].
    split; [exact (proj1 (Map_get_delete_all (on_close open) _ "" Hdel))|].
    split.
    { destruct (Map_get_delete_all (on_close open) _ (page_url page) Hdel)
        as (_ & Hlisten & Hout).
      destruct (decide (page_url page ∈ on_close open)); [auto | now rewrite Hout]. }
    split.
    { eexists. split; [reflexivity|]. intros p. cbn [pages].
      rewrite !list_elem_of_In, filter_In, negb_true_iff, Nat.eqb_neq. tauto. }
    split.
    + intros k Hk. now apply (Map_get_delete_all (on_close open) _ k Hdel).
    + intros k Hk Hne.
      destruct (Map_get_delete_all (on_close open) _ k Hdel) as (_ & _ & Hout).
      rewrite Hout by assumption. auto.
  - rewrite Hfind. specialize (Hcaught Hrun). subst after. rewrite Hrun in *.
    cbn [tabs maxTabs with_tabs]. tauto.
  - rewrite Hclose. specialize (Hcaught Hrun). subst after. rewrite Hrun in *.
    cbn [tabs maxTabs with_tabs].
    destruct (List.find _ (pages b)); tauto.
Qed.

(** If every page the browser opens shows the same URL when it is opened
    (puppeteer's pages are opened at [about:blank]) and the capacity is two
    or more, the capacity never holds a caller back: all tabs are
    registered under that URL, so the table never has more than one entry,
    and [getTab] never comes to wait. *)
Theorem getTab_never_waits (w : World) (blank : string) (this : t) :
  (forall k, k ∈ Map_keys (tabs this) -> k = blank) ->
  NoDup (Map_keys (tabs this)) ->
  (forall fresh, browser_newPage w = Normal fresh -> page_url fresh = blank) ->
  2 <= maxTabs this ->
  let outcome := fst (getTab_once w this) in
  let after := snd (getTab_once w this) in
  outcome <> Normal MustWait
  /\ (forall k, k ∈ Map_keys (tabs after) -> k = blank)
  /\ NoDup (Map_keys (tabs after))
  /\ (Map_size (tabs after) <= 1)%nat
  /\ maxTabs after = maxTabs this.
Proof.
  intros Hkeys Hnodup Hblank Hcap outcome after.
  assert (Hsmall : forall m : JSMap string TabInfo.t,
             (forall k, k ∈ Map_keys m -> k = blank) -> NoDup (Map_keys m) ->
             (Map_size m <= 1)%nat).
  { intros m Hall Hn. rewrite Map_size_keys.
    destruct (Map_keys m) as [|k [|k' ks]]; simpl; [lia | lia |].
    exfalso. apply NoDup_cons in Hn as [Hfresh _]. apply Hfresh.
    rewrite (Hall k) by apply list_elem_of_here.
    rewrite (Hall k') by apply list_elem_of_further, list_elem_of_here.
    apply list_elem_of_here. }
  assert (Hset : forall (m : JSMap string TabInfo.t) k tabInfo,
             (forall k', k' ∈ Map_keys m -> k' = blank) -> k = blank ->
             forall k', k' ∈ Map_keys (Map_set k tabInfo m) -> k' = blank).
  { intros m k tabInfo Hall -> k'. rewrite Map_keys_set_elem_of. intros [->|Hin]; auto. }
  assert (Hnew : forall st b,
             browser st = Some b ->
             (forall k, k ∈ Map_keys (tabs st) -> k = blank) -> NoDup (Map_keys (tabs st)) ->
             let st' := snd (createNewTab w st) in
             (forall k, k ∈ Map_keys (tabs st') -> k = blank)
             /\ NoDup (Map_keys (tabs st')) /\ maxTabs st' = maxTabs st).
  { intros st b Hb Hall Hn.
    destruct (createNewTab_cases w st b Hb)
      as [(message & _ & ->) | [(fresh & message & _ & _ & ->) | (fresh & Hfresh & _ & ->)]].
    - now split.
    - now split.
    - cbn [snd tabs maxTabs]. split; [|split; [now apply Map_set_NoDup | reflexivity]].
      apply Hset; [assumption | now apply Hblank]. }
  assert (Hrunning : forall st b,
             browser st = Some b -> tabs st = tabs this -> maxTabs st = maxTabs this ->
             fst (getTab_once w st) <> Normal MustWait
             /\ (forall k, k ∈ Map_keys (tabs (snd (getTab_once w st))) -> k = blank)
             /\ NoDup (Map_keys (tabs (snd (getTab_once w st))))
             /\ maxTabs (snd (getTab_once w st)) = maxTabs this).
  { intros st b Hb Htabs Hmax. rewrite (getTab_once_running w st b Hb).
    rewrite Htabs, Hmax.
    destruct (first_idle (tabs this)) as [[tabId tabInfo]|] eqn:Hidle.
    - cbv zeta.
      assert (HtabId : tabId = blank).
      { apply Hkeys. unfold first_idle in Hidle. apply find_some in Hidle as [Hin _].
        apply list_elem_of_In in Hin. change tabId with (fst (tabId, tabInfo)).
        now apply list_elem_of_fmap_2. }
      set (marked := with_tabs (Map_set tabId (mark_inUse (clock w) tabInfo) (tabs this)) st).
      assert (Hmarked : (forall k, k ∈ Map_keys (tabs marked) -> k = blank)
                        /\ NoDup (Map_keys (tabs marked))).
      { split; [now apply Hset | now apply Map_set_NoDup]. }
      destruct (browser_pages w).
      2:{ cbn [fst snd]. split; [discriminate|]. split; [apply Hmarked|].
          split; [apply Hmarked | exact Hmax]. }
      destruct (find_page (TabInfo.url tabInfo) b).
      + cbn [fst snd]. split; [discriminate|]. split; [apply Hmarked|].
        split; [apply Hmarked | exact Hmax].
      + destruct (Hnew marked b Hb (proj1 Hmarked) (proj2 Hmarked)) as (Hk & Hn & Hm).
        destruct (createNewTab w marked) as [[opened|message] st'];
          cbn [fst snd] in *; (split; [discriminate|]); (split; [assumption|]);
          (split; [assumption|]); rewrite Hm; exact Hmax.
    - assert (Hroom : (Z.of_nat (Map_size (tabs this)) <? maxTabs this) = true).
      { pose proof (Hsmall _ Hkeys Hnodup). lia. }
      rewrite Hroom.
      destruct (Hnew st b Hb) as (Hk & Hn & Hm); [now rewrite Htabs..|].
      destruct (createNewTab w st) as [[opened|message] st'];
        cbn [fst snd] in *; (split; [discriminate|]); (split; [assumption|]);
        (split; [assumption|]); rewrite Hm; exact Hmax. }
  subst outcome after.
  assert (Hall : fst (getTab_once w this) <> Normal MustWait
                 /\ (forall k, k ∈ Map_keys (tabs (snd (getTab_once w this))) -> k = blank)
                 /\ NoDup (Map_keys (tabs (snd (getTab_once w this))))
                 /\ maxTabs (snd (getTab_once w this)) = maxTabs this).
  { destruct (browser this) as [b|] eqn:Hb; [now apply (Hrunning this b)|].
    rewrite (getTab_once_launch w this Hb).
    destruct (puppeteer_launch w) as [b|reason].
    - now apply (Hrunning (with_browser (Some b) this) b).
    - cbn [fst snd]. split; [discriminate|]. now split. }
  destruct Hall as (Hout & Hk & Hn & Hm).
  split; [assumption|]. split; [assumption|]. split; [assumption|].
  split; [now apply Hsmall | assumption].
Qed.

End TableFacts.

(** Witness of the effect of [closeTab]: the idle tab of the example and
    its page are closed. *)
Lemma closeTab_effect_witness :
  let page := {| page_id := 1; page_url := "about:blank"; on_close := ["about:blank"] |} in
  let after := PuppeteerController.closeTab (chrome 2000 2) page pool_with_idle_tab in
  Map_get "about:blank" (PuppeteerController.tabs after) = None
  /\ exists b', PuppeteerController.browser after = Some b'
                /\ forall p, p ∈ pages b'
                             <-> (p ∈ [blank_page 0; page]) /\ page_id p <> page_id page.
Proof.
  cbv zeta.
  destruct (closeTab_effect (chrome 2000 2)
              {| page_id := 1; page_url := "about:blank"; on_close := ["about:blank"] |}
              pool_with_idle_tab
              {| pages := [blank_page 0;
                           {| page_id := 1; page_url := "about:blank";
                              on_close := ["about:blank"] |}] |}
              eq_refl)
    as (_ & _ & Hurl & Hcase).
  { vm_compute. repeat constructor. apply not_elem_of_nil. }
  split; [exact Hurl | exact (proj1 Hcase)].
Defined.

(** Witness that the capacity holds nobody back: a pool of capacity ten
    whose one tab is in use is asked for a second page. *)
Lemma getTab_never_waits_witness :
  fst (PuppeteerController.getTab_once (chrome 10 2)
         (snd (PuppeteerController.getTab (chrome 0 1) (PuppeteerController.new None))))
  <> Normal PuppeteerController.MustWait.
Proof.
  refine (proj1 (getTab_never_waits (chrome 10 2) "about:blank"
                   (snd (PuppeteerController.getTab (chrome 0 1) (PuppeteerController.new None)))
                   _ _ _ _)).
  - vm_compute. intros k Hk. now apply list_elem_of_singleton in Hk.
  - vm_compute. repeat constructor. apply not_elem_of_nil.
  - intros fresh [= <-]. reflexivity.
  - vm_compute. discriminate.
Defined.

(** ** The text of a page *)

Lemma line_feed_is_white_space (c : ascii) :
  is_line_feed c = true -> is_white_space c = true /\ Ascii.eqb c " " = false.
Proof.
  unfold is_line_feed. intros Hc%Nat.eqb_eq.
  rewrite <- (ascii_nat_embedding c), Hc. split; reflexivity.
Qed.

Lemma replace_white_space_runs_starts (s : string) :
  starts_with_white_space (replace_white_space_runs s) = starts_with_white_space s.
Proof.
  induction s as [|c s IH]; [reflexivity|]. simpl.
  destruct (is_white_space c) eqn:Hc; [|simpl; exact Hc].
  destruct (starts_with_white_space s) eqn:Hs; [exact IH | reflexivity].
Qed.

Lemma replace_white_space_runs_single_spaced (s : string) :
  single_spaced (replace_white_space_runs s) = true.
Proof.
  induction s as [|c s IH]; [reflexivity|]. simpl.
  destruct (is_white_space c) eqn:Hc.
  - destruct (starts_with_white_space s) eqn:Hs; [exact IH|].
    cbn [single_spaced]. rewrite replace_white_space_runs_starts, Hs, IH. reflexivity.
  - cbn [single_spaced]. now rewrite Hc, IH.
Qed.

Lemma replace_white_space_runs_fixed (s : string) :
  single_spaced s = true -> replace_white_space_runs s = s.
Proof.
  induction s as [|c s IH]; [reflexivity|]. cbn [single_spaced replace_white_space_runs].
  destruct (is_white_space c).
  - intros [[Hc Hs]%andb_true_iff Hrest]%andb_true_iff.
    apply negb_true_iff in Hs. apply Ascii.eqb_eq in Hc. rewrite Hs, IH by assumption.
    now subst c.
  - intros Hrest. simpl in Hrest. now rewrite IH.
Qed.

Lemma replace_white_space_runs_keeps_others (s : string) :
  without_white_space (replace_white_space_runs s) = without_white_space s.
Proof.
  induction s as [|c s IH]; [reflexivity|]. simpl.
  destruct (is_white_space c) eqn:Hc.
  - destruct (starts_with_white_space s); [exact IH|]. simpl. exact IH.
  - simpl. now rewrite Hc, IH.
Qed.

(** A text whose white space is single spaces has no line feed, so the
    rule for blank lines finds nothing to replace. *)
Lemma replace_blank_lines_from_fixed (fuel : nat) (s : string) :
  single_spaced s = true -> replace_blank_lines_from fuel s = s.
Proof.
  revert s. induction fuel as [|fuel IH]; intros s; [reflexivity|].
  destruct s as [|c s]; [reflexivity|]. cbn [single_spaced replace_blank_lines_from].
  intros [Hc Hrest]%andb_true_iff.
  destruct (is_line_feed c) eqn:Hfeed.
  - apply line_feed_is_white_space in Hfeed as [Hspace Hnot].
    rewrite Hspace, Hnot in Hc. discriminate.
  - now rewrite IH.
Qed.

Lemma trimStart_single_spaced (s : string) :
  single_spaced s = true -> single_spaced (trimStart s) = true.
Proof.
  induction s as [|c s IH]; [reflexivity|]. intros Hs. simpl.
  destruct (is_white_space c); [|exact Hs].
  apply IH. cbn [single_spaced] in Hs. now apply andb_true_iff in Hs as [_ Hs].
Qed.

Lemma trimStart_starts (s : string) : starts_with_white_space (trimStart s) = false.
Proof.
  induction s as [|c s IH]; [reflexivity|]. simpl.
  destruct (is_white_space c) eqn:Hc; [exact IH | exact Hc].
Qed.

Lemma trimStart_fixed (s : string) : starts_with_white_space s = false -> trimStart s = s.
Proof. destruct s as [|c s]; [reflexivity|]. simpl. now intros ->. Qed.

Lemma trimStart_keeps_others (s : string) :
  without_white_space (trimStart s) = without_white_space s.
Proof.
  induction s as [|c s IH]; [reflexivity|]. simpl.
  destruct (is_white_space c) eqn:Hc; [exact IH|]. simpl. now rewrite Hc.
Qed.

(** [trimEnd] keeps the head of the text, unless nothing is left. *)
Lemma trimEnd_starts (s : string) :
  starts_with_white_space (trimEnd s) = true -> starts_with_white_space s = true.
Proof.
  destruct s as [|c s]; [discriminate|]. simpl.
  destruct (is_white_space c && String.eqb (trimEnd s) ""); [discriminate | auto].
Qed.

Lemma trimEnd_single_spaced (s : string) :
  single_spaced s = true -> single_spaced (trimEnd s) = true.
Proof.
  induction s as [|c s IH]; [reflexivity|]. cbn [single_spaced trimEnd].
  intros [Hc Hs]%andb_true_iff. cbv zeta.
  destruct (is_white_space c && String.eqb (trimEnd s) ""); [reflexivity|].
  cbn [single_spaced]. rewrite (IH Hs), andb_true_r.
  destruct (is_white_space c); [|reflexivity].
  apply andb_true_iff in Hc as [Hc Hnext]. rewrite Hc. simpl.
  destruct (starts_with_white_space (trimEnd s)) eqn:Hkept; [|reflexivity].
  apply trimEnd_starts in Hkept. now rewrite Hkept in Hnext.
Qed.

Lemma trimEnd_ends (s : string) : ends_with_white_space (trimEnd s) = false.
Proof.
  induction s as [|c s IH]; [reflexivity|]. cbn [trimEnd]. cbv zeta.
  destruct (is_white_space c) eqn:Hc; simpl.
  - destruct (trimEnd s) as [|a kept] eqn:Hkept; [reflexivity|]. exact IH.
  - destruct (trimEnd s) as [|a kept] eqn:Hkept; [exact Hc | exact IH].
Qed.

Lemma trimEnd_fixed (s : string) : ends_with_white_space s = false -> trimEnd s = s.
Proof.
  induction s as [|c s IH]; [reflexivity|]. cbn [trimEnd]. cbv zeta.
  destruct s as [|a s].
  - simpl. now intros ->.
  - intros Hend. change (ends_with_white_space (String a s) = false) in Hend.
    rewrite (IH Hend). simpl. now rewrite andb_false_r.
Qed.

Lemma trimEnd_keeps_others (s : string) :
  without_white_space (trimEnd s) = without_white_space s.
Proof.
  induction s as [|c s IH]; [reflexivity|]. cbn [trimEnd]. cbv zeta. simpl.
  destruct (is_white_space c) eqn:Hc; simpl.
  - destruct (String.eqb (trimEnd s) "") eqn:Hkept.
    + apply String.eqb_eq in Hkept. rewrite <- IH, Hkept. reflexivity.
    + simpl. now rewrite Hc.
  - now rewrite Hc, IH.
Qed.

Lemma trim_starts (s : string) : starts_with_white_space (trim s) = false.
Proof.
  unfold trim. destruct (starts_with_white_space (trimEnd (trimStart s))) eqn:Hs; [|reflexivity].
  apply trimEnd_starts in Hs. now rewrite trimStart_starts in Hs.
Qed.

Lemma trim_fixed (s : string) :
  starts_with_white_space s = false -> ends_with_white_space s = false -> trim s = s.
Proof. intros Hs He. unfold trim. rewrite (trimStart_fixed s Hs). now apply trimEnd_fixed. Qed.

(** The text that [extractText] returns, and [extractLLMText] as its
    [text]: it is the text of the body with every run of white space turned
    into one space and the ends trimmed; the rule for blank lines comes
    after all line feeds are gone and replaces nothing.  So all white space
    of the result is single spaces between other characters, which are
    those of the body in their order; and cleaning a cleaned text changes
    nothing. *)
Theorem clean_text_normal_form (text : string) :
  WebCrawl.clean_text text = trim (replace_white_space_runs text)
  /\ single_spaced (WebCrawl.clean_text text) = true
  /\ starts_with_white_space (WebCrawl.clean_text text) = false
  /\ ends_with_white_space (WebCrawl.clean_text text) = false
  /\ without_white_space (WebCrawl.clean_text text) = without_white_space text
  /\ WebCrawl.clean_text (WebCrawl.clean_text text) = WebCrawl.clean_text text.
Proof.
  assert (Hclean : forall s, WebCrawl.clean_text s = trim (replace_white_space_runs s)).
  { intros s. unfold WebCrawl.clean_text, replace_blank_lines.
    now rewrite replace_blank_lines_from_fixed by apply replace_white_space_runs_single_spaced. }
  assert (Hsingle : single_spaced (WebCrawl.clean_text text) = true).
  { rewrite Hclean. unfold trim.
    apply trimEnd_single_spaced, trimStart_single_spaced, replace_white_space_runs_single_spaced. }
  assert (Hstart : starts_with_white_space (WebCrawl.clean_text text) = false)
    by (rewrite Hclean; apply trim_starts).
  assert (Hend : ends_with_white_space (WebCrawl.clean_text text) = false)
    by (rewrite Hclean; apply trimEnd_ends).
  split; [apply Hclean|]. split; [exact Hsingle|]. split; [exact Hstart|]. split; [exact Hend|].
  split.
  - rewrite Hclean. unfold trim.
    now rewrite trimEnd_keeps_others, trimStart_keeps_others,
      replace_white_space_runs_keeps_others.
  - rewrite (Hclean (WebCrawl.clean_text text)).
    rewrite (replace_white_space_runs_fixed _ Hsingle). now apply trim_fixed.
Qed.

(** ** The links of a page *)

Section LinkFacts.
Context {U : Type} `{URLApi U}.

Lemma trim_trim (s : string) : trim (trim s) = trim s.
Proof. apply trim_fixed; [apply trim_starts | apply trimEnd_ends]. Qed.

Lemma string_or_empty (s : string) : string_or s "" = s.
Proof. unfold string_or. destruct (String.eqb s "") eqn:Hs; [|reflexivity].
  now apply String.eqb_eq in Hs. Qed.

(** What [extractLinks] computes inside the page.  It throws exactly if
    the URL it is given does not parse.  Otherwise it returns one link for
    each [a[href]] element whose [href] and whose trimmed text are not
    empty, and for no other, in the order of the document; the text of a
    link is trimmed, its title is there, and it is internal exactly if its
    URL parses and has the host name of the URL given. *)
Theorem links_of_anchors_spec (anchors : list Anchor.t) (baseUrl : string) :
  match URL_new baseUrl with
  | Throw message => WebCrawl.links_of_anchors anchors baseUrl = Throw message
  | Normal baseUrlObj =>
      exists links,
        WebCrawl.links_of_anchors anchors baseUrl = Normal links
        /\ sublist (map LinkData.url links) (map Anchor.href anchors)
        /\ (forall link,
              link ∈ links
              <-> exists anchor,
                    anchor ∈ anchors
                    /\ Anchor.href anchor <> ""
                    /\ default "" (trim <$> Anchor.textContent anchor) <> ""
                    /\ LinkData.url link = Anchor.href anchor
                    /\ LinkData.text link = default "" (trim <$> Anchor.textContent anchor)
                    /\ LinkData.title link = Some (Anchor.title anchor)
                    /\ LinkData.isInternal link
                       = match URL_new (Anchor.href anchor) with
                         | Normal url =>
                             String.eqb (URL_hostname url) (URL_hostname baseUrlObj)
                         | Throw _ => false
                         end)
        /\ (forall link,
              link ∈ links ->
              LinkData.url link <> "" /\ LinkData.text link <> ""
              /\ trim (LinkData.text link) = LinkData.text link
              /\ (LinkData.isInternal link = true
                  <-> exists url, URL_new (LinkData.url link) = Normal url
                                  /\ URL_hostname url = URL_hostname baseUrlObj))
  end.
Proof.
  unfold WebCrawl.links_of_anchors.
  destruct (URL_new baseUrl) as [baseUrlObj|message]; [|reflexivity].
  eexists. split; [reflexivity|].
  set (to_link := fun link : Anchor.t => _).
  set (wanted := fun link : LinkData.t => _).
  assert (Hmember : forall link,
            link ∈ List.filter wanted (map to_link anchors)
            <-> exists anchor,
                  anchor ∈ anchors
                  /\ Anchor.href anchor <> ""
                  /\ default "" (trim <$> Anchor.textContent anchor) <> ""
                  /\ link = to_link anchor).
  { intros link. rewrite list_elem_of_In, filter_In, in_map_iff. split.
    - intros [(anchor & <- & Hin) Hwanted]. exists anchor.
      subst wanted to_link. cbn [LinkData.url LinkData.text] in Hwanted.
      rewrite string_or_empty in Hwanted.
      apply andb_true_iff in Hwanted as [Hurl%negb_true_iff Htext%negb_true_iff].
      apply String.eqb_neq in Hurl, Htext.
      split; [now apply list_elem_of_In|]. now split.
    - intros (anchor & Hin & Hurl & Htext & ->). split.
      + exists anchor. split; [reflexivity | now apply list_elem_of_In].
      + subst wanted to_link. cbn [LinkData.url LinkData.text].
        rewrite string_or_empty. apply andb_true_iff.
        split; apply negb_true_iff, String.eqb_neq; assumption. }
  split; [|split].
  - clear Hmember. induction anchors as [|anchor anchors IH]; simpl; [constructor|].
    destruct (wanted (to_link anchor)); simpl.
    + now apply sublist_skip.
    + now apply sublist_cons.
  - intros link. rewrite Hmember. split.
    + intros (anchor & Hin & Hurl & Htext & ->). exists anchor.
      subst to_link. cbn [LinkData.url LinkData.text LinkData.title LinkData.isInternal].
      rewrite !string_or_empty. repeat split; assumption.
    + intros (anchor & Hin & Hurl & Htext & Hu & Ht & Htitle & Hint). exists anchor.
      split; [assumption|]. split; [assumption|]. split; [assumption|].
      subst to_link. cbv beta. rewrite !string_or_empty.
      destruct link as [url text title isInternal]. simpl in *. congruence.
  - intros link (anchor & Hin & Hurl & Htext & ->)%Hmember.
    subst to_link. cbn [LinkData.url LinkData.text LinkData.isInternal].
    rewrite string_or_empty.
    split; [assumption|]. split; [assumption|]. split.
    + destruct (Anchor.textContent anchor) as [content|]; simpl; [apply trim_trim | reflexivity].
    + destruct (URL_new (Anchor.href anchor)) as [url|failure].
      * rewrite String.eqb_eq. split; [intros Hhost; now exists url|].
        now intros (url' & [= <-] & Hhost).
      * split; [discriminate | intros (url' & Hfalse & _); discriminate].
Qed.

End LinkFacts.

(** ** One call of [crawl] *)

Section CrawlFacts.
Context {U : Type} `{URLApi U}.
Import WebCrawl.

Lemma crawl_try_invalid (w : World) (pw : PageWorld) (url : string) (options : CrawlOptions.t)
    (frame : Frame) (message : string) :
  URL_new url = Throw message ->
  crawl_try w pw url options frame = (Throw "Invalid URL provided", frame).
Proof. intros Hurl. unfold crawl_try, bind at 1, isValidUrl. now rewrite Hurl. Qed.

Lemma crawl_try_no_tab (w : World) (pw : PageWorld) (url : string) (options : CrawlOptions.t)
    (frame : Frame) (urlObj : U) (message : string) (mid : PuppeteerController.t) :
  URL_new url = Normal urlObj ->
  PuppeteerController.getTab w (controller frame) = (Throw message, mid) ->
  crawl_try w pw url options frame
  = (Throw message, {| page := page frame; controller := mid |}).
Proof.
  intros Hurl Hget. unfold crawl_try, bind at 1, isValidUrl. rewrite Hurl. cbn [is_normal ret].
  unfold bind at 1, on_controller. now rewrite Hget.
Qed.

(** With a page in hand the [try] runs on the page alone: the frame holds
    the page, navigated, whatever comes of the steps; and data comes out
    only after every step has settled and for the format asked for. *)
Lemma crawl_try_tab (w : World) (pw : PageWorld) (url : string) (options : CrawlOptions.t)
    (frame : Frame) (urlObj : U) (held : Page) (mid : PuppeteerController.t) :
  URL_new url = Normal urlObj ->
  PuppeteerController.getTab w (controller frame) = (Normal held, mid) ->
  exists outcome,
    crawl_try w pw url options frame
    = (outcome,
       {| page := Some held;
          controller := PuppeteerController.goto (page_id held) (page_url_after_goto pw url)
                          mid |})
    /\ forall data,
         outcome = Normal data ->
         data_format data = CrawlOptions.format options
         /\ page_goto pw url (number_or (CrawlOptions.timeout options) 30000) = Normal tt
         /\ (forall links, data = Links links -> extractLinks pw url = Normal links)
         /\ (forall text, data = TextData text -> extractText pw = Normal text).
Proof.
  intros Hurl Hget.
  unfold crawl_try, bind, ret, throw, lift, modify, on_controller, isValidUrl.
  rewrite Hurl. cbn [is_normal]. cbv beta iota. rewrite Hget. cbv beta iota.
  cbn [page controller].
  destruct (page_goto pw url _) as [[]|failure];
    [|eexists; split; [reflexivity | discriminate]].
  set (wait := match CrawlOptions.waitForSelector options with Some _ => _ | None => _ end).
  assert (Hwait : exists waited : completion unit, wait = fun s => (waited, s)).
  { subst wait.
    destruct (CrawlOptions.waitForSelector options) as [selector|]; [|now exists (Normal tt)].
    destruct (String.eqb selector ""); eexists; reflexivity. }
  destruct Hwait as [waited ->].
  destruct waited as [[]|failure]; [|eexists; split; [reflexivity | discriminate]].
  set (ads := if truthy (CrawlOptions.ignoreAds options) then _ else _).
  assert (Hads : exists cleared : completion unit, ads = fun s => (cleared, s)).
  { subst ads. destruct (truthy (CrawlOptions.ignoreAds options)); eexists; reflexivity. }
  destruct Hads as [cleared ->].
  destruct cleared as [[]|failure]; [|eexists; split; [reflexivity | discriminate]].
  destruct (String.eqb (CrawlOptions.format options) "text") eqn:Htext.
  { apply String.eqb_eq in Htext.
    destruct (extractText pw) as [text|failure] eqn:Hextract;
      (eexists; split; [reflexivity|]); [|discriminate].
    intros data [= <-]. split; [now rewrite Htext|]. split; [reflexivity|].
    split; [discriminate | now intros ? [= <-]]. }
  destruct (String.eqb (CrawlOptions.format options) "LLMtext") eqn:Hllm.
  { apply String.eqb_eq in Hllm.
    destruct (page_extractLLMText pw) as [found|failure];
      (eexists; split; [reflexivity|]); [|discriminate].
    intros data [= <-]. split; [now rewrite Hllm|]. split; [reflexivity|].
    split; discriminate. }
  destruct (String.eqb (CrawlOptions.format options) "screenshot") eqn:Hshot.
  { apply String.eqb_eq in Hshot.
    destruct (page_screenshot pw) as [found|failure];
      (eexists; split; [reflexivity|]); [|discriminate].
    intros data [= <-]. split; [now rewrite Hshot|]. split; [reflexivity|].
    split; discriminate. }
  destruct (String.eqb (CrawlOptions.format options) "html") eqn:Hhtml.
  { apply String.eqb_eq in Hhtml.
    destruct (page_content pw) as [found|failure];
      (eexists; split; [reflexivity|]); [|discriminate].
    intros data [= <-]. split; [now rewrite Hhtml|]. split; [reflexivity|].
    split; discriminate. }
  destruct (String.eqb (CrawlOptions.format options) "crawl-links") eqn:Hlinks.
  { apply String.eqb_eq in Hlinks.
    destruct (extractLinks pw url) as [found|failure] eqn:Hextract;
      (eexists; split; [reflexivity|]); [|discriminate].
    intros data [= <-]. split; [now rewrite Hlinks|]. split; [reflexivity|].
    split; [now intros ? [= <-] | discriminate]. }
  destruct (String.eqb (CrawlOptions.format options) "images") eqn:Himages.
  { apply String.eqb_eq in Himages.
    destruct (page_extractImages pw) as [found|failure];
      (eexists; split; [reflexivity|]); [|discriminate].
    intros data [= <-]. split; [now rewrite Himages|]. split; [reflexivity|].
    split; discriminate. }
  eexists. split; [reflexivity | discriminate].
Qed.

End CrawlFacts.

Section CrawlOutcome.
Context {U : Type} `{URLApi U}.
Import WebCrawl.

(** The three ways through [crawl]: the URL does not parse; [getTab]
    rejects; or a page is handed out, navigated, and released in the end. *)
Lemma crawl_cases (w : World) (pw : PageWorld) (url : string) (options : CrawlOptions.t)
    (this : PuppeteerController.t) :
  (exists failure,
     URL_new url = Throw failure
     /\ crawl w pw url options this
        = (Normal (crawl_result pw url options (Throw "Invalid URL provided")), this))
  \/ (exists urlObj message mid,
        URL_new url = Normal urlObj
        /\ PuppeteerController.getTab w this = (Throw message, mid)
        /\ crawl w pw url options this
           = (Normal (crawl_result pw url options (Throw message)), mid))
  \/ (exists urlObj held mid outcome,
        URL_new url = Normal urlObj
        /\ PuppeteerController.getTab w this = (Normal held, mid)
        /\ (let navigated :=
              PuppeteerController.goto (page_id held) (page_url_after_goto pw url) mid in
            crawl w pw url options this
            = (Normal (crawl_result pw url options outcome),
               PuppeteerController.releaseTab (date_released pw) (shown held navigated)
                 navigated))
        /\ forall data,
             outcome = Normal data ->
             data_format data = CrawlOptions.format options
             /\ page_goto pw url (number_or (CrawlOptions.timeout options) 30000) = Normal tt
             /\ (forall links, data = Links links -> extractLinks pw url = Normal links)
             /\ (forall text, data = TextData text -> extractText pw = Normal text)).
Proof.
  unfold crawl.
  destruct (URL_new url) as [urlObj|failure] eqn:Hurl.
  - destruct (PuppeteerController.getTab w this) as [[held|message] mid] eqn:Hget.
    + right. right.
      destruct (crawl_try_tab w pw url options {| page := None; controller := this |}
                  urlObj held mid Hurl Hget) as (outcome & -> & Hdata).
      exists urlObj, held, mid, outcome. cbn [page controller].
      split; [reflexivity|]. split; [reflexivity|]. split; [|exact Hdata].
      now destruct outcome.
    + right. left. exists urlObj, message, mid.
      now rewrite (crawl_try_no_tab w pw url options {| page := None; controller := this |}
                     urlObj message mid Hurl Hget).
  - left. exists failure. now rewrite (crawl_try_invalid w pw url options _ failure Hurl).
Qed.

(** [crawl] and the pool.  A URL that does not parse is turned down before
    the pool is asked: the pool stays as it is.  If [getTab] rejects, its
    message is the error of the result.  And once [getTab] has handed out a
    page, whatever becomes of the navigation and of the steps after it, the
    page is navigated and then released as it shows at that time. *)
Theorem crawl_releases_the_page_it_got (w : World) (pw : PageWorld) (url : string)
    (options : CrawlOptions.t) (this : PuppeteerController.t) :
  match URL_new url with
  | Throw _ =>
      crawl w pw url options this
      = (Normal (crawl_failure pw url options "Invalid URL provided"), this)
  | Normal _ =>
      match PuppeteerController.getTab w this with
      | (Throw message, mid) =>
          crawl w pw url options this = (Normal (crawl_failure pw url options message), mid)
      | (Normal held, mid) =>
          let navigated :=
            PuppeteerController.goto (page_id held) (page_url_after_goto pw url) mid in
          exists result,
            crawl w pw url options this
            = (Normal result,
               PuppeteerController.releaseTab (date_released pw) (shown held navigated)
                 navigated)
      end
  end.
Proof.
  destruct (crawl_cases w pw url options this)
    as [(failure & Hurl & Hrun)
       | [(urlObj & message & mid & Hurl & Hget & Hrun)
         | (urlObj & held & mid & outcome & Hurl & Hget & Hrun & _)]];
    rewrite Hurl.
  - exact Hrun.
  - rewrite Hget. exact Hrun.
  - rewrite Hget. cbv zeta in Hrun |- *. eexists. exact Hrun.
Qed.

(** What [crawl] resolves to.  A result that reports success carries data,
    of the shape of the format asked for, and no error; the URL has parsed
    and the navigation has settled; links are those of the page's [a[href]]
    elements, judged against the URL asked for, and text is the cleaned text
    of the body.  A result that reports failure carries an error and no
    data. *)
Theorem crawl_data_matches_format (w : World) (pw : PageWorld) (url : string)
    (options : CrawlOptions.t) (this after : PuppeteerController.t)
    (result : WebCrawlResult.t) :
  crawl w pw url options this = (Normal result, after) ->
  WebCrawlResult.url result = url
  /\ WebCrawlResult.format result = CrawlOptions.format options
  /\ if WebCrawlResult.success result then
       exists data,
         WebCrawlResult.data result = Some data
         /\ WebCrawlResult.error result = None
         /\ data_format data = CrawlOptions.format options
         /\ isValidUrl url = true
         /\ page_goto pw url (number_or (CrawlOptions.timeout options) 30000) = Normal tt
         /\ (forall links,
               data = Links links ->
               exists anchors, page_anchors pw = Normal anchors
                               /\ links_of_anchors anchors url = Normal links)
         /\ (forall text,
               data = TextData text ->
               exists body, page_body_text pw = Normal body /\ text = clean_text body)
     else
       WebCrawlResult.data result = None
       /\ exists message, WebCrawlResult.error result = Some message.
Proof.
  destruct (crawl_cases w pw url options this)
    as [(failure & Hurl & ->)
       | [(urlObj & message & mid & Hurl & Hget & ->)
         | (urlObj & held & mid & outcome & Hurl & Hget & Hrun & Hdata)]].
  - intros [= <- _]. cbn.
    split; [reflexivity|]. split; [reflexivity|]. split; [reflexivity|]. eauto.
  - intros [= <- _]. cbn.
    split; [reflexivity|]. split; [reflexivity|]. split; [reflexivity|]. eauto.
  - cbv zeta in Hrun. rewrite Hrun. intros [= <- _].
    destruct outcome as [data|message]; cbn.
    + destruct (Hdata data eq_refl) as (Hformat & Hgoto & Hlinks & Htext).
      split; [reflexivity|]. split; [reflexivity|].
      exists data. split; [reflexivity|]. split; [reflexivity|].
      split; [assumption|]. split; [unfold isValidUrl; now rewrite Hurl|].
      split; [assumption|]. split.
      * intros links Hl. specialize (Hlinks links Hl). unfold extractLinks in Hlinks.
        destruct (page_anchors pw) as [anchors|]; [|discriminate]. now exists anchors.
      * intros text Ht. specialize (Htext text Ht). unfold extractText in Htext.
        destruct (page_body_text pw) as [body|]; [|discriminate].
        exists body. split; [reflexivity|]. now injection Htext as <-.
    + split; [reflexivity|]. split; [reflexivity|]. split; [reflexivity|]. now exists message.
Qed.

End CrawlOutcome.

(** Witness of what [crawl] resolves to: the links of the example page,
    fetched through a new pool. *)
Lemma crawl_data_matches_format_witness :
  let run := @WebCrawl.crawl _ HttpURL.api (chrome 0 1) example_page "http://example.com/"
               CrawlOptions.crawl_links (PuppeteerController.new None) in
  exists result,
    fst run = Normal result
    /\ WebCrawlResult.url result = "http://example.com/"
    /\ WebCrawlResult.format result = "crawl-links".
Proof.
  cbv zeta.
  destruct (@WebCrawl.crawl _ HttpURL.api (chrome 0 1) example_page "http://example.com/"
              CrawlOptions.crawl_links (PuppeteerController.new None))
    as [outcome after] eqn:Hrun.
  destruct outcome as [result|message]; [|vm_compute in Hrun; discriminate].
  exists result. split; [reflexivity|].
  destruct (@crawl_data_matches_format _ HttpURL.api _ _ _ _ _ _ _ Hrun) as (Hurl & Hformat & _).
  split; assumption.
Defined.

Section PagesPileUp.
Context {U : Type} `{URLApi U}.
Import PuppeteerController.

Lemma first_idle_None_set_inUse (m : JSMap string TabInfo.t) (k : string)
    (tabInfo : TabInfo.t) :
  first_idle m = None -> TabInfo.inUse tabInfo = true ->
  first_idle (Map_set k tabInfo m) = None.
Proof.
  unfold first_idle. intros Hnone Hbusy.
  induction m as [|[k0 t0] m IH]; simpl in *.
  - now rewrite Hbusy.
  - destruct (negb (TabInfo.inUse t0)) eqn:Hidle; [discriminate|].
    destruct (decide (k0 = k)) as [->|Hne]; simpl.
    + now rewrite Hbusy.
    + rewrite Hidle. now apply IH.
Qed.

Lemma navigate_other_pages (pid : nat) (url : string) (l : list Page) :
  (forall p, p ∈ l -> page_id p <> pid) -> map (navigate_page pid url) l = l.
Proof.
  induction l as [|p l IH]; intros Hother; simpl; [reflexivity|].
  rewrite IH by (intros q Hq; apply Hother; now apply list_elem_of_further).
  unfold navigate_page. pose proof (Hother p (list_elem_of_here _ _)) as Hp.
  apply Nat.eqb_neq in Hp. now rewrite Hp.
Qed.

Lemma find_other_pages (pid : nat) (l : list Page) (p : Page) :
  (forall q, q ∈ l -> page_id q <> pid) -> page_id p = pid ->
  List.find (fun page => Nat.eqb (page_id page) pid) (l ++ [p]) = Some p.
Proof.
  induction l as [|q l IH]; intros Hother Hp; simpl.
  - now rewrite Hp, Nat.eqb_refl.
  - pose proof (Hother q (list_elem_of_here _ _)) as Hq. apply Nat.eqb_neq in Hq. rewrite Hq.
    apply IH; [|assumption]. intros r Hr. apply Hother. now apply list_elem_of_further.
Qed.

(** Pages pile up.  Take a pool of capacity two or more whose tabs are all
    in use and registered under the URL that new pages show ([about:blank]),
    and a URL that parses and whose navigation shows another URL.  Then
    [crawl] opens a new page, if the browser opens and configures one;
    the release in its [finally] finds no tab under the URL the page shows
    by then and changes nothing.  Afterwards
    the browser has one page more, still open, the one entry of the table
    is in use, and the pool is as the next such call needs it: no call
    reuses or closes a page. *)
Theorem crawl_leaves_its_page_open (w : World) (pw : PageWorld) (url : string)
    (options : CrawlOptions.t) (this : t) (b : Browser) (fresh : Page) (urlObj : U) :
  URL_new url = Normal urlObj ->
  browser this = Some b \/ (browser this = None /\ puppeteer_launch w = Normal b) ->
  browser_newPage w = Normal fresh ->
  configure w = Normal tt ->
  (forall p, p ∈ pages b -> page_id p <> page_id fresh) ->
  first_idle (tabs this) = None ->
  (forall k, k ∈ Map_keys (tabs this) -> k = page_url fresh) ->
  NoDup (Map_keys (tabs this)) ->
  2 <= maxTabs this ->
  page_url_after_goto pw url <> page_url fresh ->
  let opened :=
    {| page_id := page_id fresh; page_url := page_url_after_goto pw url;
       on_close := (on_close fresh ++ [page_url fresh])%list |} in
  let after := snd (WebCrawl.crawl w pw url options this) in
  browser after = Some {| pages := (pages b ++ [opened])%list |}
  /\ tabs after
     = Map_set (page_url fresh)
         {| TabInfo.id := page_url fresh; TabInfo.url := page_url fresh;
            TabInfo.inUse := true;
            TabInfo.createdAt := clock w; TabInfo.lastUsed := clock w |}
         (tabs this)
  /\ maxTabs after = maxTabs this
  /\ first_idle (tabs after) = None
  /\ (forall k, k ∈ Map_keys (tabs after) -> k = page_url fresh)
  /\ NoDup (Map_keys (tabs after)).
Proof.
  intros Hurl Hbrowser Hfresh Hconfigure Hids Hbusy Hkeys Hnodup Hcap Hmoved opened after.
  set (entry := {| TabInfo.id := page_url fresh; TabInfo.url := page_url fresh;
                   TabInfo.inUse := true;
                   TabInfo.createdAt := clock w; TabInfo.lastUsed := clock w |}).
  set (held := {| page_id := page_id fresh; page_url := page_url fresh;
                  on_close := (on_close fresh ++ [page_url fresh])%list |}).
  set (mid := {| browser := Some {| pages := (pages b ++ [held])%list |};
                 tabs := Map_set (page_url fresh) entry (tabs this);
                 maxTabs := maxTabs this |}).
  assert (Hsmall : (Z.of_nat (Map_size (tabs this)) <? maxTabs this) = true).
  { apply Z.ltb_lt. rewrite Map_size_keys.
    destruct (Map_keys (tabs this)) as [|k [|k' ks]] eqn:Hk; cbn [length]; [lia | lia |].
    exfalso. apply NoDup_cons in Hnodup as [Hnot _]. apply Hnot.
    rewrite (Hkeys k) by apply list_elem_of_here.
    rewrite (Hkeys k') by apply list_elem_of_further, list_elem_of_here.
    apply list_elem_of_here. }
  assert (Hget : getTab w this = (Normal held, mid)).
  { apply getTab_once_Got.
    assert (Hrunning : forall st, browser st = Some b -> tabs st = tabs this ->
                                  maxTabs st = maxTabs this ->
                                  getTab_once w st = (Normal (Got held), mid)).
    { intros st Hb Ht Hm. rewrite (getTab_once_running w st b Hb), Ht, Hm, Hbusy, Hsmall.
      unfold createNewTab. now rewrite Hb, Hfresh, Hconfigure, Ht, Hm. }
    destruct Hbrowser as [Hb | [Hb Hlaunch]].
    - now apply Hrunning.
    - rewrite (getTab_once_launch w this Hb), Hlaunch. now apply Hrunning. }
  assert (Hcrawl : exists result,
             WebCrawl.crawl w pw url options this
             = (Normal result,
                releaseTab (date_released pw)
                  (WebCrawl.shown held (goto (page_id held) (page_url_after_goto pw url) mid))
                  (goto (page_id held) (page_url_after_goto pw url) mid))).
  { destruct (crawl_cases w pw url options this)
      as [(failure & Hbad & _)
         | [(? & message & ? & _ & Hbad & _)
           | (? & held' & mid' & outcome & _ & Hget' & Hrun & _)]]; [congruence..|].
    rewrite Hget in Hget'. injection Hget' as <- <-. eexists. exact Hrun. }
  destruct Hcrawl as [result Hcrawl].
  subst after. rewrite Hcrawl. cbn [snd].
  assert (Hnavigated : goto (page_id held) (page_url_after_goto pw url) mid
                       = {| browser := Some {| pages := (pages b ++ [opened])%list |};
                            tabs := Map_set (page_url fresh) entry (tabs this);
                            maxTabs := maxTabs this |}).
  { unfold goto, with_browser. cbn [browser mid pages tabs maxTabs page_id held].
    rewrite map_app, (navigate_other_pages _ _ _ Hids). cbn [map].
    unfold navigate_page at 1. cbn [page_id on_close]. now rewrite Nat.eqb_refl. }
  rewrite Hnavigated.
  assert (Hshown : WebCrawl.shown held
                     {| browser := Some {| pages := (pages b ++ [opened])%list |};
                        tabs := Map_set (page_url fresh) entry (tabs this);
                        maxTabs := maxTabs this |} = opened).
  { unfold WebCrawl.shown, page_now. cbn [browser pages page_id held].
    now rewrite (find_other_pages (page_id fresh) (pages b) opened Hids eq_refl). }
  rewrite Hshown.
  assert (Hall : forall k, k ∈ Map_keys (Map_set (page_url fresh) entry (tabs this)) ->
                           k = page_url fresh).
  { intros k. rewrite Map_keys_set_elem_of. intros [->|Hk]; auto. }
  assert (Hlost : Map_get (page_url opened) (Map_set (page_url fresh) entry (tabs this)) = None).
  { apply Map_get_None. intros Hin. apply Hall in Hin. now apply Hmoved. }
  unfold releaseTab. cbn [tabs]. rewrite Hlost.
  cbn [browser tabs maxTabs].
  split; [reflexivity|]. split; [reflexivity|]. split; [reflexivity|].
  split; [now apply first_idle_None_set_inUse|].
  split; [exact Hall | now apply Map_set_NoDup].
Qed.

End PagesPileUp.

(** Witness that pages pile up: the second fetch through a pool of
    capacity ten. *)
Lemma crawl_leaves_its_page_open_witness :
  let first := snd (@WebCrawl.crawl _ HttpURL.api (chrome 0 1) example_page
                      "http://example.com/" CrawlOptions.crawl_links
                      (PuppeteerController.new None)) in
  let second := snd (@WebCrawl.crawl _ HttpURL.api (chrome 10 2) example_page
                       "http://example.com/a" CrawlOptions.crawl_links first) in
  PuppeteerController.first_idle (PuppeteerController.tabs second) = None
  /\ option_map (fun b => length (pages b)) (PuppeteerController.browser second) = Some 3%nat.
Proof.
  cbv zeta.
  set (first := snd (@WebCrawl.crawl _ HttpURL.api (chrome 0 1) example_page
                       "http://example.com/" CrawlOptions.crawl_links
                       (PuppeteerController.new None))).
  destruct (@crawl_leaves_its_page_open _ HttpURL.api (chrome 10 2) example_page
              "http://example.com/a" CrawlOptions.crawl_links first
              {| pages := [blank_page 0;
                           {| page_id := 1; page_url := "http://example.com/";
                              on_close := ["about:blank"] |}] |}
              (blank_page 2)
              {| HttpURL.opaque := None; HttpURL.host := "example.com"; HttpURL.path := "/a";
                 HttpURL.fragment := None |})
    as (Hbrowser & _ & _ & Hidle & _).
  - reflexivity.
  - left. reflexivity.
  - reflexivity.
  - reflexivity.
  - intros p Hp. vm_compute in Hp.
    repeat (apply elem_of_cons in Hp as [->|Hp]; [vm_compute; discriminate|]).
    now apply elem_of_nil in Hp.
  - reflexivity.
  - vm_compute. intros k Hk. now apply list_elem_of_singleton in Hk.
  - vm_compute. repeat constructor. apply not_elem_of_nil.
  - vm_compute. discriminate.
  - simpl. discriminate.
  - split; [exact Hidle|]. rewrite Hbrowser. reflexivity.
Defined.

(** ** The routes *)

Lemma string_or_not_empty (s d : string) : d <> "" -> string_or s d <> "".
Proof.
  intros Hd. unfold string_or. destruct (String.eqb s "") eqn:Hs; [assumption|].
  now apply String.eqb_neq in Hs.
Qed.

Lemma falsy_false (s : option string) :
  falsy s = false <-> exists v, s = Some v /\ v <> "".
Proof.
  destruct s as [v|]; simpl.
  - rewrite String.eqb_neq. split; [intros Hv; now exists v | now intros (? & [= <-] & Hv)].
  - split; [discriminate | now intros (? & ? & _)].
Qed.

Section SpiderRouteFacts.
Context {U : Type} `{URLApi U} (env : Env).

(** POST /api/spider-crawl answers by the URL alone.  Without a URL, or
    with an empty one, the answer is 400 and the crawler is not touched.
    With a URL whose normal form does not parse the answer is 500, with the
    parser's message (or [Spider crawl failed] if that is empty).  With any
    other URL the answer is 200, whatever the fetches do, and it carries the
    link map as an object, the size of the visited set and the link count
    as the crawler holds them after the run. *)
Theorem post_spider_crawl_answers (now : Z) (body : SpiderCrawlRequest.t)
    (this : SpiderCrawl) :
  let after := snd (post_spider_crawl env now body this) in
  exists reply,
    fst (post_spider_crawl env now body this) = Normal reply
    /\ (falsy (SpiderCrawlRequest.url body) = true ->
        reply = {| status := 400; json := SpiderCrawlReply.failure "URL is required" |}
        /\ after = this)
    /\ (forall url baseUrl,
          SpiderCrawlRequest.url body = Some url -> url <> "" ->
          normalizeUrl url = Normal baseUrl ->
          match URL_new baseUrl with
          | Throw message =>
              reply = {| status := 500;
                         json := SpiderCrawlReply.failure
                                   (string_or message "Spider crawl failed") |}
              /\ after = reset this
          | Normal _ =>
              reply
              = {| status := 200;
                   json :=
                     {| SpiderCrawlReply.success := true;
                        SpiderCrawlReply.data :=
                          Some {| SpiderCrawlData.linkMap := exportLinkMap after;
                                  SpiderCrawlData.totalPages := size (visitedUrls after);
                                  SpiderCrawlData.totalLinks := getTotalLinks after;
                                  SpiderCrawlData.baseUrl := baseUrl |};
                        SpiderCrawlReply.error := None;
                        SpiderCrawlReply.url := Some baseUrl;
                        SpiderCrawlReply.timestamp := Some now |} |}
          end).
Proof.
  cbv zeta. unfold post_spider_crawl, try_catch.
  destruct (falsy (SpiderCrawlRequest.url body)) eqn:Hfalsy.
  { eexists. split; [reflexivity|]. split; [now split|].
    intros url baseUrl Hurl Hne _. rewrite Hurl in Hfalsy. simpl in Hfalsy.
    now apply String.eqb_eq in Hfalsy. }
  apply falsy_false in Hfalsy as (url & Hurl & Hne). rewrite Hurl.
  change (default "" (Some url)) with url.
  set (options := default SpiderCrawlOptions.empty (SpiderCrawlRequest.options body)).
  destruct (normalizeUrl_normal url) as [baseUrl Hnorm].
  destruct (URL_new baseUrl) as [baseUrlObj|message] eqn:Hparse.
  - unfold bind.
    rewrite (crawl_final_state env url baseUrl baseUrlObj options this Hnorm Hparse).
    cbn [SpiderCrawlResult.success SpiderCrawlResult.linkMap SpiderCrawlResult.totalPages
         SpiderCrawlResult.totalLinks SpiderCrawlResult.baseUrl ret fst snd].
    eexists. split; [reflexivity|]. split; [discriminate|].
    intros url' baseUrl' [= <-] _ Hnorm'. rewrite Hnorm in Hnorm'. injection Hnorm' as <-.
    rewrite Hparse. reflexivity.
  - unfold bind.
    rewrite (crawl_unparsable_base env url baseUrl message options this Hnorm Hparse).
    cbn [SpiderCrawlResult.success SpiderCrawlResult.error ret fst snd default].
    eexists. split; [reflexivity|]. split; [discriminate|].
    intros url' baseUrl' [= <-] _ Hnorm'. rewrite Hnorm in Hnorm'. injection Hnorm' as <-.
    rewrite Hparse. now split.
Qed.

End SpiderRouteFacts.

Section WebRouteFacts.
Context {U : Type} `{URLApi U}.

(** POST /api/web-crawl.  The answer is 400, and the pool is not touched,
    exactly if the URL is missing or empty, or the options or their format
    are, or the format is none of the six; [crawl] is called with one of
    the six formats only.  Otherwise the answer is 200 if [crawl] reports
    success, and then it carries data of the shape of the format asked for;
    and 500 if not, with an error that is never empty. *)
Theorem post_web_crawl_answers (w : World) (pw : PageWorld) (body : WebCrawlRequest.t)
    (this : PuppeteerController.t) :
  let after := snd (post_web_crawl w pw body this) in
  let accepted :=
    negb (falsy (WebCrawlRequest.url body))
    && match WebCrawlRequest.options body with
       | Some options =>
           existsb (String.eqb (default "" (WebCrawlRequest.format options))) validFormats
       | None => false
       end in
  exists reply,
    fst (post_web_crawl w pw body this) = Normal reply
    /\ (status reply = 400 <-> accepted = false)
    /\ (status reply = 400 -> after = this)
    /\ (status reply = 400 \/ status reply = 200 \/ status reply = 500)
    /\ (status reply = 200 ->
        exists data format,
          WebCrawlReply.data (json reply) = Some data
          /\ WebCrawlReply.format (json reply) = Some format
          /\ data_format data = format
          /\ In format validFormats
          /\ (WebCrawlRequest.options body ≫= WebCrawlRequest.format) = Some format)
    /\ (status reply = 500 ->
        exists message, json reply = WebCrawlReply.failure message /\ message <> "").
Proof.
  cbv zeta. unfold post_web_crawl, try_catch.
  destruct (falsy (WebCrawlRequest.url body)) eqn:Hurl.
  { eexists. split; [reflexivity|]. cbn.
    split; [tauto|]. split; [reflexivity|]. split; [now left|]. split; discriminate. }
  destruct (WebCrawlRequest.options body) as [options|].
  2: { eexists. split; [reflexivity|]. cbn.
       split; [tauto|]. split; [reflexivity|]. split; [now left|]. split; discriminate. }
  destruct (falsy (WebCrawlRequest.format options)) eqn:Hformat.
  { eexists. split; [reflexivity|]. cbn.
    assert (Hdefault : default "" (WebCrawlRequest.format options) = "").
    { destruct (WebCrawlRequest.format options) as [format|]; [|reflexivity].
      now apply String.eqb_eq in Hformat. }
    rewrite Hdefault. cbn.
    split; [tauto|]. split; [reflexivity|]. split; [now left|]. split; discriminate. }
  apply falsy_false in Hformat as (format & Hformat & Hne). rewrite Hformat.
  change (default "" (Some format)) with format.
  destruct (existsb (String.eqb format) validFormats) eqn:Hvalid.
  2: { eexists. split; [reflexivity|]. cbn.
       split; [tauto|]. split; [reflexivity|]. split; [now left|]. split; discriminate. }
  cbn [negb andb]. unfold bind.
  assert (Hrequested : CrawlOptions.format (WebCrawlRequest.to_options options) = format).
  { unfold WebCrawlRequest.to_options. cbn. now rewrite Hformat. }
  assert (Hin : In format validFormats).
  { apply existsb_exists in Hvalid as (known & Hin & Heq). apply String.eqb_eq in Heq.
    now subst known. }
  destruct (crawl_cases w pw (default "" (WebCrawlRequest.url body))
              (WebCrawlRequest.to_options options) this)
    as [(failure & _ & ->)
       | [(urlObj & message & mid & _ & _ & ->)
         | (urlObj & held & mid & [data|message] & _ & _ & -> & Hdata)]].
  - eexists. split; [reflexivity|]. cbn.
    split; [split; discriminate|]. split; [discriminate|]. split; [right; now right|].
    split; [discriminate|].
    intros _. eexists. split; [reflexivity|].
    first [discriminate | now apply string_or_not_empty].
  - eexists. split; [reflexivity|]. cbn.
    split; [split; discriminate|]. split; [discriminate|]. split; [right; now right|].
    split; [discriminate|].
    intros _. eexists. split; [reflexivity|].
    first [discriminate | now apply string_or_not_empty].
  - destruct (Hdata data eq_refl) as (Hshape & _).
    eexists. split; [reflexivity|]. cbn.
    split; [split; discriminate|]. split; [discriminate|]. split; [right; now left|].
    split; [|discriminate].
    intros _. exists data, format. rewrite Hformat. cbn.
    split; [reflexivity|]. split; [reflexivity|]. split; [congruence|].
    split; [assumption | reflexivity].
  - eexists. split; [reflexivity|]. cbn.
    split; [split; discriminate|]. split; [discriminate|]. split; [right; now right|].
    split; [discriminate|].
    intros _. eexists. split; [reflexivity|].
    first [discriminate | now apply string_or_not_empty].
Qed.

End WebRouteFacts.

(** ** The search scraper and its route *)

#[local] Ltac scrape_failed :=
  eexists; split; [reflexivity|]; cbn;
  split; [reflexivity|]; split; [reflexivity|];
  split; [split; [discriminate | intros (? & ? & ? & ?); congruence]|];
  split; [discriminate|]; intros _; split; [reflexivity | eauto].

(** The scraper and the pool.  [getTab] is called outside the [try]: if it
    rejects, the scraper rejects with the same error.  Otherwise the scraper
    resolves, and the page is released as it shows at the end.  The result
    reports success exactly if the bypass, the navigation, the title and
    the extraction have all settled, whether or not the selector has shown
    up; a result that reports failure has an error and no results. *)
Theorem scrape_resolves_once_it_has_a_page (w : World) (sw : SearchPageWorld)
    (engine query : string) (this : PuppeteerController.t) :
  match PuppeteerController.getTab w this with
  | (Throw message, mid) =>
      scrapeSearchResultsWithCite w sw engine query this = (Throw message, mid)
  | (Normal page, mid) =>
      let reached :=
        match search_setBypassCSP sw with
        | Normal _ =>
            PuppeteerController.goto (page_id page) (search_url_after_goto sw query) mid
        | Throw _ => mid
        end in
      exists result,
        scrapeSearchResultsWithCite w sw engine query this
        = (Normal result,
           PuppeteerController.releaseTab (search_released sw) (WebCrawl.shown page reached)
             reached)
        /\ SearchResult.engine result = engine
        /\ SearchResult.query result = query
        /\ (SearchResult.success result = true
            <-> is_normal (search_setBypassCSP sw) = true
                /\ is_normal (search_goto sw query) = true
                /\ is_normal (search_title sw) = true
                /\ is_normal (search_items sw) = true)
        /\ (SearchResult.success result = true ->
            search_items sw = Normal (SearchResult.results result)
            /\ SearchResult.error result = None)
        /\ (SearchResult.success result = false ->
            SearchResult.results result = []
            /\ exists message, SearchResult.error result = Some message)
  end.
Proof.
  destruct (PuppeteerController.getTab w this) as [[page|message] mid] eqn:Hget.
  2: { unfold scrapeSearchResultsWithCite, bind at 1. now rewrite Hget. }
  unfold scrapeSearchResultsWithCite, bind at 1. rewrite Hget.
  unfold bind, try_catch, lift, modify, ret.
  destruct (search_setBypassCSP sw) as [[]|failure]; cbn [is_normal].
  2: { scrape_failed. }
  destruct (search_goto sw query) as [[]|failure]; cbn [is_normal].
  2: { scrape_failed. }
  assert (Hwait : forall st : PuppeteerController.t,
             (let (c, s') := (search_waitForSelector sw, st) in
              match c with
              | Normal a => (Normal a, s')
              | Throw _ => (Normal tt, s')
              end) = (Normal tt, st)).
  { intros st. now destruct (search_waitForSelector sw) as [[]|]. }
  rewrite Hwait.
  destruct (search_title sw) as [title|failure]; cbn [is_normal].
  2: { scrape_failed. }
  destruct (search_items sw) as [items|failure]; cbn [is_normal].
  2: { scrape_failed. }
  eexists. split; [reflexivity|]. cbn.
  split; [reflexivity|]. split; [reflexivity|]. split; [tauto|].
  split; [now split | discriminate].
Qed.

Lemma url_safe_app (a b : string) : url_safe (a ++ b) = url_safe a && url_safe b.
Proof.
  induction a as [|c a IH]; [reflexivity|].
  change (String c a ++ b) with (String c (a ++ b)). cbn [url_safe].
  now rewrite IH, andb_assoc.
Qed.

Lemma hex_digit_unreserved (n : nat) : (n < 16)%nat -> is_unreserved (hex_digit n) = true.
Proof.
  intros Hn. do 16 (destruct n as [|n]; [reflexivity|]). lia.
Qed.

Lemma percent_escape_safe (byte : nat) : (byte < 256)%nat -> url_safe (percent_escape byte) = true.
Proof.
  intros Hbyte. unfold percent_escape. cbn [url_safe].
  rewrite !hex_digit_unreserved.
  - reflexivity.
  - apply Nat.mod_upper_bound. lia.
  - apply Nat.Div0.div_lt_upper_bound. lia.
Qed.

Lemma encode_unit_safe (c : ascii) : url_safe (encode_unit c) = true.
Proof.
  unfold encode_unit. pose proof (nat_ascii_bounded c) as Hc.
  destruct (is_unreserved c) eqn:Hsafe; [cbn [url_safe]; now rewrite Hsafe|].
  destruct (nat_of_ascii c <? 128)%nat; [apply percent_escape_safe; lia|].
  rewrite url_safe_app, !percent_escape_safe; [reflexivity | |].
  - pose proof (Nat.mod_upper_bound (nat_of_ascii c) 64). lia.
  - assert (nat_of_ascii c / 64 < 4)%nat by (apply Nat.Div0.div_lt_upper_bound; lia). lia.
Qed.

(** What [encodeURIComponent] makes of a query holds unreserved
    characters and percent signs only (so no [&], [#], [=], [?], [/] or
    space); and a query of unreserved characters is passed on as it is. *)
Theorem encodeURIComponent_is_url_safe (query : string) :
  url_safe (encodeURIComponent query) = true
  /\ (forall c, HttpURL.has_char c (encodeURIComponent query) = true ->
                is_unreserved c = true \/ c = "%"%char)
  /\ (url_safe query = true -> HttpURL.has_char "%" query = false ->
      encodeURIComponent query = query).
Proof.
  assert (Hsafe : url_safe (encodeURIComponent query) = true).
  { induction query as [|c query IH]; [reflexivity|]. cbn [encodeURIComponent].
    now rewrite url_safe_app, encode_unit_safe, IH. }
  split; [exact Hsafe|]. split.
  - generalize (encodeURIComponent query) Hsafe. clear Hsafe.
    intros s. induction s as [|a s IH]; [discriminate|]. cbn [url_safe HttpURL.has_char].
    intros [Ha Hs]%andb_true_iff c [Hc | Hc]%orb_true_iff.
    + apply Ascii.eqb_eq in Hc as <-. apply orb_true_iff in Ha as [Ha | Ha]; [now left|].
      right. now apply Ascii.eqb_eq.
    + now apply IH.
  - clear Hsafe. induction query as [|c query IH]; [reflexivity|].
    cbn [url_safe HttpURL.has_char encodeURIComponent].
    intros [Hc Hq]%andb_true_iff [Hpercent Hrest]%orb_false_iff.
    rewrite Hpercent, orb_false_r in Hc. unfold encode_unit. rewrite Hc.
    simpl. now rewrite IH by assumption.
Qed.

(** The scraper resolves once [getTab] has handed out a page, and rejects
    with the error of [getTab] otherwise. *)
Lemma scrape_cases (w : World) (sw : SearchPageWorld) (engine query : string)
    (this : PuppeteerController.t) :
  match PuppeteerController.getTab w this with
  | (Throw message, mid) =>
      scrapeSearchResultsWithCite w sw engine query this = (Throw message, mid)
  | (Normal page, mid) =>
      exists result after,
        scrapeSearchResultsWithCite w sw engine query this = (Normal result, after)
        /\ SearchResult.engine result = engine
        /\ SearchResult.query result = query
  end.
Proof.
  destruct (PuppeteerController.getTab w this) as [[page|message] mid] eqn:Hget.
  2: { unfold scrapeSearchResultsWithCite, bind at 1. now rewrite Hget. }
  unfold scrapeSearchResultsWithCite, bind at 1. rewrite Hget.
  unfold bind, try_catch, lift, modify, ret.
  destruct (search_setBypassCSP sw) as [[]|failure]; [|eauto].
  destruct (search_goto sw query) as [[]|failure]; [|eauto].
  destruct (search_waitForSelector sw) as [[]|?];
    (destruct (search_title sw) as [title|?]; [|eauto]);
    (destruct (search_items sw) as [items|?]; eauto).
Qed.

(** On a string of code units below 256 [encodeURIComponent] does not
    throw, and encodes each code unit by itself. *)
Lemma encodeURIComponent_code_units (s : string) :
  encodeURIComponent_utf16 (code_units s) = Normal (encodeURIComponent s).
Proof.
  unfold encodeURIComponent_utf16, code_units.
  assert (Hpoints : code_points (map N_of_ascii (list_ascii_of_string s))
                    = Some (map N_of_ascii (list_ascii_of_string s))).
  { induction s as [|c s IH]; [reflexivity|]. cbn [list_ascii_of_string map code_points].
    rewrite IH.
    assert (Hc : is_high_surrogate (N_of_ascii c) = false
                 /\ is_low_surrogate (N_of_ascii c) = false).
    { destruct c as [[] [] [] [] [] [] [] []]; split; reflexivity. }
    destruct Hc as [-> ->]. reflexivity. }
  rewrite Hpoints. f_equal. clear Hpoints.
  induction s as [|c s IH]; [reflexivity|].
  cbn [list_ascii_of_string map fold_right encodeURIComponent]. rewrite IH. f_equal.
  destruct c as [[] [] [] [] [] [] [] []]; reflexivity.
Qed.

(** A surrogate that stands alone is what [encodeURIComponent] refuses. *)
Lemma encodeURIComponent_utf16_throws (units : list N) (message : string) :
  encodeURIComponent_utf16 units = Throw message ->
  message = "URI malformed" /\ code_points units = None.
Proof.
  unfold encodeURIComponent_utf16.
  destruct (code_points units); [discriminate|]. now intros [= <-].
Qed.

(** POST /api/search-engine.  Without an engine or without a query, or
    with an engine that is none of [google], [bing] and [brave], the answer
    is 400 and the pool is not touched.  Otherwise the query is encoded.
    If it holds a surrogate that stands alone, the answer is 500 with the
    message of the [URIError], and the pool is not touched.  If not, the
    scraper is sent to the search URL of the engine with the encoded query;
    then the answer is 500 exactly if [getTab] rejects, with its error; and
    once a page was handed out the answer is 200 with the result of the
    scraper, also when that result reports failure. *)
Theorem post_search_engine_answers (w : World) (sw : SearchPageWorld)
    (body : SearchRequest.t) (this : PuppeteerController.t) :
  let engine := default "" (SearchRequest.engine body) in
  let query := default [] (SearchRequest.query body) in
  let asked :=
    negb (falsy (SearchRequest.engine body)) && negb (no_query (SearchRequest.query body)) in
  match (if asked then search_prefix engine else None) with
  | None =>
      exists message,
        post_search_engine w sw body this
        = (Normal {| status := 400; json := Refused message |}, this)
  | Some prefix =>
      match code_points query with
      | None =>
          post_search_engine w sw body this
          = (Normal {| status := 500; json := Refused "URI malformed" |}, this)
      | Some points =>
          exists encoded,
            encodeURIComponent_utf16 query = Normal encoded
            /\ match PuppeteerController.getTab w this with
               | (Throw message, mid) =>
                   post_search_engine w sw body this
                   = (Normal {| status := 500; json := Refused message |}, mid)
               | (Normal page, mid) =>
                   exists result after,
                     post_search_engine w sw body this
                     = (Normal {| status := 200; json := Scraped result |}, after)
                     /\ scrapeSearchResultsWithCite w sw engine (prefix ++ encoded) this
                        = (Normal result, after)
                     /\ SearchResult.engine result = engine
                     /\ SearchResult.query result = prefix ++ encoded
               end
      end
  end.
Proof.
  cbv zeta. unfold post_search_engine.
  destruct (falsy (SearchRequest.engine body)); [eexists; reflexivity|].
  destruct (no_query (SearchRequest.query body)); [eexists; reflexivity|].
  cbn [negb andb orb]. unfold search_prefix, try_catch.
  set (engine := default "" (SearchRequest.engine body)).
  set (query := default [] (SearchRequest.query body)).
  assert (Hscrape : forall prefix,
             match code_points query with
             | None =>
                 (let! encoded := lift (encodeURIComponent_utf16 query) in
                  let! result := scrapeSearchResultsWithCite w sw engine (prefix ++ encoded) in
                  ret {| status := 200; json := Scraped result |})%method this
                 = (Throw "URI malformed", this)
             | Some points =>
                 exists encoded,
                   encodeURIComponent_utf16 query = Normal encoded
                   /\ match PuppeteerController.getTab w this with
                      | (Throw message, mid) =>
                          (let! encoded := lift (encodeURIComponent_utf16 query) in
                           let! result :=
                             scrapeSearchResultsWithCite w sw engine (prefix ++ encoded) in
                           ret {| status := 200; json := Scraped result |})%method this
                          = (Throw message, mid)
                      | (Normal page, mid) =>
                          exists result after,
                            (let! encoded := lift (encodeURIComponent_utf16 query) in
                             let! result :=
                               scrapeSearchResultsWithCite w sw engine (prefix ++ encoded) in
                             ret {| status := 200; json := Scraped result |})%method this
                            = (Normal {| status := 200; json := Scraped result |}, after)
                            /\ scrapeSearchResultsWithCite w sw engine (prefix ++ encoded) this
                               = (Normal result, after)
                            /\ SearchResult.engine result = engine
                            /\ SearchResult.query result = prefix ++ encoded
                      end
             end).
  { intros prefix.
    destruct (code_points query) as [points|] eqn:Hpoints.
    2: { unfold bind, lift, encodeURIComponent_utf16. now rewrite Hpoints. }
    destruct (encodeURIComponent_utf16 query) as [encoded|failure] eqn:Hencoded.
    2: { apply encodeURIComponent_utf16_throws in Hencoded as [_ Hnone]. congruence. }
    exists encoded. split; [reflexivity|].
    assert (Hstep : (let! encoded := lift (Normal encoded) in
                     let! result := scrapeSearchResultsWithCite w sw engine (prefix ++ encoded) in
                     ret {| status := 200; json := Scraped result |})%method this
                    = (let! result :=
                         scrapeSearchResultsWithCite w sw engine (prefix ++ encoded) in
                       ret {| status := 200; json := Scraped result |})%method this)
      by reflexivity.
    rewrite Hstep. clear Hstep.
    set (searchUrl := (prefix ++ encoded)%string).
    pose proof (scrape_cases w sw engine searchUrl this) as Hrun.
    destruct (PuppeteerController.getTab w this) as [[page|message] mid].
    - destruct Hrun as (result & after & Hrun & Hengine & Hquery).
      unfold bind at 1. rewrite Hrun. exists result. eexists.
      split; [reflexivity|]. split; [reflexivity|]. now split.
    - unfold bind at 1. now rewrite Hrun. }
  assert (Hanswer : forall prefix,
             match code_points query with
             | None =>
                 (let (c, s') :=
                    (let! encoded := lift (encodeURIComponent_utf16 query) in
                     let! result :=
                       scrapeSearchResultsWithCite w sw engine (prefix ++ encoded) in
                     ret {| status := 200; json := Scraped result |})%method this in
                  match c with
                  | Normal a => (Normal a, s')
                  | Throw message => ret {| status := 500; json := Refused message |} s'
                  end)
                 = (Normal {| status := 500; json := Refused "URI malformed" |}, this)
             | Some points =>
                 exists encoded,
                   encodeURIComponent_utf16 query = Normal encoded
                   /\ match PuppeteerController.getTab w this with
                      | (Throw message, mid) =>
                          (let (c, s') :=
                             (let! encoded := lift (encodeURIComponent_utf16 query) in
                              let! result :=
                                scrapeSearchResultsWithCite w sw engine (prefix ++ encoded) in
                              ret {| status := 200; json := Scraped result |})%method this in
                           match c with
                           | Normal a => (Normal a, s')
                           | Throw message => ret {| status := 500; json := Refused message |} s'
                           end)
                          = (Normal {| status := 500; json := Refused message |}, mid)
                      | (Normal page, mid) =>
                          exists result after,
                            (let (c, s') :=
                               (let! encoded := lift (encodeURIComponent_utf16 query) in
                                let! result :=
                                  scrapeSearchResultsWithCite w sw engine (prefix ++ encoded) in
                                ret {| status := 200; json := Scraped result |})%method this in
                             match c with
                             | Normal a => (Normal a, s')
                             | Throw message =>
                                 ret {| status := 500; json := Refused message |} s'
                             end)
                            = (Normal {| status := 200; json := Scraped result |}, after)
                            /\ scrapeSearchResultsWithCite w sw engine (prefix ++ encoded) this
                               = (Normal result, after)
                            /\ SearchResult.engine result = engine
                            /\ SearchResult.query result = prefix ++ encoded
                      end
             end).
  { intros prefix. specialize (Hscrape prefix).
    destruct (code_points query) as [points|]; [|now rewrite Hscrape].
    destruct Hscrape as (encoded & Hencoded & Hscrape). exists encoded. split; [assumption|].
    destruct (PuppeteerController.getTab w this) as [[page|message] mid].
    - destruct Hscrape as (result & after & Hrun & Hrest). rewrite Hrun. eauto.
    - now rewrite Hscrape. }
  destruct (String.eqb engine "google"); [apply Hanswer|].
  destruct (String.eqb engine "bing"); [apply Hanswer|].
  destruct (String.eqb engine "brave"); [apply Hanswer|].
  eexists. reflexivity.
Qed.

(** A query with a high surrogate that stands alone: the route answers 500
    and does not ask the pool for a page. *)
Lemma post_search_engine_lone_surrogate (w : World) (sw : SearchPageWorld)
    (this : PuppeteerController.t) :
  post_search_engine w sw
    {| SearchRequest.engine := Some "google"; SearchRequest.query := Some [55357%N] |} this
  = (Normal {| status := 500; json := Refused "URI malformed" |}, this).
Proof. reflexivity. Qed.

(** ** The spider on top of [webCrawl] *)

Section SpiderOnWebCrawlFacts.
Context {U : Type} `{URLApi U} (env : Env).

(** The link map of a run holds, page by page, what the fetch of the page
    yielded; this needs nothing of the order in which fetches settle. *)
Lemma crawl_linkMap_values (url : string) (options : SpiderCrawlOptions.argument)
    (this this' : SpiderCrawl) (result : SpiderCrawlResult.t) :
  crawl env url options this = (Normal result, this') ->
  forall page links,
    Map_get page (SpiderCrawlResult.linkMap result) = Some links ->
    fetch_ok env page = true /\ links = page_links env page.
Proof.
  intros Hrun.
  destruct (normalizeUrl_normal url) as [baseUrl Hnorm].
  destruct (URL_new baseUrl) as [baseUrlObj|message] eqn:Hparse.
  2: { rewrite (crawl_unparsable_base env url baseUrl message options this Hnorm Hparse) in Hrun.
       injection Hrun as <- <-. discriminate. }
  destruct (crawl_valid env
              (fun st => forall page links,
                           Map_get page (linkMap st) = Some links ->
                           fetch_ok env page = true /\ links = page_links env page)
              url baseUrl baseUrlObj options this Hnorm Hparse)
    as (final & Hrun' & Hvalues).
  - intros st Hst. exact Hst.
  - intros depth batch st Hst. now apply processBatch_values.
  - intros page links. simpl. discriminate.
  - rewrite Hrun' in Hrun. injection Hrun as <- <-. exact Hvalues.
Qed.

(** The links that the spider reads off a fetch through [webCrawl] are
    those of the page's [a[href]] elements, judged against the URL of the
    page. *)
Lemma page_links_through_webCrawl (page : string) :
  fetches_through_webCrawl env ->
  fetch_ok env page = true ->
  exists anchors, WebCrawl.links_of_anchors anchors page = Normal (page_links env page).
Proof.
  intros Hthrough Hok. destruct (Hthrough page) as (w & pw & pool & Hfetch).
  unfold fetch_ok, page_links in *. rewrite Hfetch in *. unfold awaited_by_spider in *.
  destruct (crawl_cases w pw page CrawlOptions.crawl_links pool)
    as [(failure & _ & Hrun)
       | [(urlObj & message & mid & _ & _ & Hrun)
         | (urlObj & held & mid & outcome & _ & _ & Hrun & Hdata)]];
    cbv zeta in Hrun; rewrite Hrun in *; cbn [fst] in *; try discriminate.
  destruct outcome as [data|message]; [|discriminate].
  destruct (Hdata data eq_refl) as (Hshape & _ & Hlinks & _).
  destruct data as [| | | | links |]; try discriminate.
  specialize (Hlinks links eq_refl). unfold WebCrawl.extractLinks in Hlinks.
  destruct (page_anchors pw) as [anchors|]; [|discriminate].
  exists anchors. exact Hlinks.
Qed.

(** A link that [extractLinks] returns has a URL and a trimmed text that
    are not empty, and it is internal exactly if its URL parses and has the
    host name of the URL given. *)
Lemma links_of_anchors_member (anchors : list Anchor.t) (baseUrl : string) (baseUrlObj : U)
    (links : list LinkData.t) (link : LinkData.t) :
  URL_new baseUrl = Normal baseUrlObj ->
  WebCrawl.links_of_anchors anchors baseUrl = Normal links ->
  link ∈ links ->
  LinkData.url link <> "" /\ LinkData.text link <> ""
  /\ trim (LinkData.text link) = LinkData.text link
  /\ (LinkData.isInternal link = true
      <-> exists linkObj, URL_new (LinkData.url link) = Normal linkObj
                          /\ URL_hostname linkObj = URL_hostname baseUrlObj).
Proof.
  intros Hbase. unfold WebCrawl.links_of_anchors. rewrite Hbase. intros [= <-].
  rewrite list_elem_of_In, filter_In, in_map_iff.
  intros [(anchor & <- & _) Hwanted].
  cbn [LinkData.url LinkData.text LinkData.isInternal] in *.
  rewrite string_or_empty in *.
  apply andb_true_iff in Hwanted as [Hurl%negb_true_iff Htext%negb_true_iff].
  apply String.eqb_neq in Hurl, Htext.
  split; [assumption|]. split; [assumption|]. split.
  - destruct (Anchor.textContent anchor) as [content|]; simpl; [apply trim_trim | reflexivity].
  - destruct (URL_new (Anchor.href anchor)) as [linkObj|failure].
    + rewrite String.eqb_eq. split; [intros Hhost; now exists linkObj|].
      now intros (linkObj' & [= <-] & Hhost).
    + split; [discriminate | intros (linkObj' & Hfalse & _); discriminate].
Qed.

(** If every fetch in flight settles, the keys of the link map of a run
    are visited URLs. *)
Lemma crawl_linkMap_keys (url : string) (options : SpiderCrawlOptions.argument)
    (this this' : SpiderCrawl) (result : SpiderCrawlResult.t) (page : string) :
  settles_all env ->
  crawl env url options this = (Normal result, this') ->
  page ∈ Map_keys (SpiderCrawlResult.linkMap result) ->
  page ∈ visitedUrls this'.
Proof.
  intros Hsettle Hrun.
  destruct (normalizeUrl_normal url) as [baseUrl Hnorm].
  destruct (URL_new baseUrl) as [baseUrlObj|message] eqn:Hparse.
  2: { rewrite (crawl_unparsable_base env url baseUrl message options this Hnorm Hparse) in Hrun.
       injection Hrun as <- <-. simpl. intros Hin. now apply elem_of_nil in Hin. }
  destruct (crawl_valid env (links_invariant env) url baseUrl baseUrlObj options this
              Hnorm Hparse) as (final & Hrun' & Hlinks).
  - intros st Hst. exact Hst.
  - intros depth batch st Hst. now apply processBatch_links.
  - intros p. simpl. split.
    + intros Hin. now apply elem_of_nil in Hin.
    + intros [Hin _]. now apply not_elem_of_empty in Hin.
  - rewrite Hrun' in Hrun. injection Hrun as <- <-. simpl.
    intros Hin. now apply Hlinks in Hin as [Hin _].
Qed.

(** The link map of a run whose fetches go through [webCrawl].  If every
    fetch in flight settles, every link the map holds for a page has a URL
    and a trimmed text that are not empty; the page parses; and the link is
    marked internal exactly if its URL parses and has the host name of the
    page it was found on, which is the host name of the start URL if the
    run was started with [sameDomain: true] or without the property. *)
Theorem linkMap_of_fetched_pages (url : string) (options : SpiderCrawlOptions.argument)
    (this this' : SpiderCrawl) (result : SpiderCrawlResult.t) :
  fetches_through_webCrawl env ->
  settles_all env ->
  crawl env url options this = (Normal result, this') ->
  SpiderCrawlResult.success result = true ->
  forall page links link,
    Map_get page (SpiderCrawlResult.linkMap result) = Some links ->
    link ∈ links ->
    LinkData.url link <> ""
    /\ LinkData.text link <> ""
    /\ trim (LinkData.text link) = LinkData.text link
    /\ exists pageObj,
         URL_new page = Normal pageObj
         /\ (LinkData.isInternal link = true
             <-> exists linkObj, URL_new (LinkData.url link) = Normal linkObj
                                 /\ URL_hostname linkObj = URL_hostname pageObj)
         /\ (SpiderCrawlOptions.own_sameDomain options = None
             \/ SpiderCrawlOptions.own_sameDomain options = Some (Some true) ->
             exists baseUrlObj,
               URL_new (SpiderCrawlResult.baseUrl result) = Normal baseUrlObj
               /\ URL_hostname pageObj = URL_hostname baseUrlObj).
Proof.
  intros Hthrough Hsettle Hrun Hsuccess page links link Hget Hlink.
  destruct (crawl_linkMap_values url options this this' result Hrun page links Hget)
    as [Hok ->].
  destruct (page_links_through_webCrawl page Hthrough Hok) as [anchors Hanchors].
  destruct (URL_new page) as [pageObj|message] eqn:Hpage.
  2: { unfold WebCrawl.links_of_anchors in Hanchors. rewrite Hpage in Hanchors.
       discriminate. }
  destruct (links_of_anchors_member anchors page pageObj _ link Hpage Hanchors Hlink)
    as (Hurl & Htext & Htrim & Hinternal).
  split; [assumption|]. split; [assumption|]. split; [assumption|].
  exists pageObj. split; [reflexivity|]. split; [assumption|].
  intros Hsame.
  apply Map_get_Some_key in Hget.
  pose proof (crawl_linkMap_keys url options this this' result page Hsettle Hrun Hget)
    as Hvisited.
  destruct (normalizeUrl_normal url) as [baseUrl Hnorm].
  destruct (URL_new baseUrl) as [baseUrlObj|failure] eqn:Hparse.
  2: { rewrite (crawl_unparsable_base env url baseUrl failure options this Hnorm Hparse) in Hrun.
       injection Hrun as <- <-. discriminate. }
  pose proof (crawl_scope env url baseUrl baseUrlObj options this Hnorm Hparse page) as Hscope.
  rewrite Hrun in Hscope. cbn [snd] in Hscope.
  rewrite (crawl_final_state env url baseUrl baseUrlObj options this Hnorm Hparse) in Hrun.
  injection Hrun as <- _. cbn [SpiderCrawlResult.baseUrl].
  exists baseUrlObj. split; [assumption|].
  destruct (Hscope Hvisited) as [-> | (_ & pageObj' & Hobj & [Hoff | Hhost] & _)].
  - congruence.
  - apply sameDomain_on in Hsame. congruence.
  - congruence.
Qed.

End SpiderOnWebCrawlFacts.

Lemma example_site_through_webCrawl : @fetches_through_webCrawl _ HttpURL.api example_site.
Proof. intros url. now exists (chrome 0 1), example_page, (PuppeteerController.new None). Qed.

(** Witness of the link map of fetched pages: in the run on the site of
    example pages, every link of the map has a URL and a text, and was
    found on a page of the host of the start URL. *)
Lemma linkMap_of_fetched_pages_witness :
  let run := @crawl _ HttpURL.api example_site "http://example.com/" SpiderCrawlOptions.empty
               new_SpiderCrawl in
  exists result,
    fst run = Normal result
    /\ Map_get "http://example.com/" (SpiderCrawlResult.linkMap result)
       = Some [{| LinkData.url := "http://example.com/a"; LinkData.text := "A";
                  LinkData.title := Some ""; LinkData.isInternal := true |}]
    /\ forall page links link,
         Map_get page (SpiderCrawlResult.linkMap result) = Some links ->
         link ∈ links ->
         LinkData.url link <> "" /\ LinkData.text link <> ""
         /\ trim (LinkData.text link) = LinkData.text link
         /\ exists pageObj,
              HttpURL.parse page = Normal pageObj /\ HttpURL.host pageObj = "example.com".
Proof.
  cbv zeta.
  destruct (@crawl _ HttpURL.api example_site "http://example.com/" SpiderCrawlOptions.empty
              new_SpiderCrawl) as [outcome this'] eqn:Hrun.
  destruct outcome as [result|message]; [|vm_compute in Hrun; discriminate].
  assert (Hsuccess : SpiderCrawlResult.success result = true).
  { vm_compute in Hrun. now injection Hrun as <- _. }
  assert (Hbase : SpiderCrawlResult.baseUrl result = "http://example.com/").
  { vm_compute in Hrun. now injection Hrun as <- _. }
  exists result. split; [reflexivity|]. split.
  { vm_compute in Hrun. now injection Hrun as <- _. }
  intros page links link Hget Hlink.
  destruct (@linkMap_of_fetched_pages _ HttpURL.api example_site _ _ _ _ _
              example_site_through_webCrawl (fun _ urls => Permutation_refl urls)
              Hrun Hsuccess page links link Hget Hlink)
    as (Hurl & Htext & Htrim & pageObj & Hpage & _ & Hsame).
  split; [assumption|]. split; [assumption|]. split; [assumption|].
  destruct (Hsame (or_introl eq_refl)) as (baseUrlObj & Hparse & Hhost).
  rewrite Hbase in Hparse. vm_compute in Hparse. injection Hparse as <-.
  exists pageObj. split; [exact Hpage | exact Hhost].
Defined.

(** ** The walkers of the document *)

Lemma DomTree_children_ind (P : DomTree -> Prop) :
  (forall nodeValue, P (TextNode nodeValue)) ->
  (forall children, Forall P children -> P (OtherNode children)) ->
  forall t, P t.
Proof.
  intros Htext Hother. fix IH 1. intros [nodeValue | children].
  - apply Htext.
  - apply Hother. induction children as [|child rest IHrest]; constructor.
    + apply IH.
    + exact IHrest.
Qed.

Lemma subtree_app t down i :
  subtree t (down ++ [i]) =
  match subtree t down with
  | Some (OtherNode children) => nth_error children i
  | _ => None
  end.
Proof.
  revert t. induction down as [|j down IH]; intros t; simpl.
  - destruct t as [v|cs]; [reflexivity|]. destruct (nth_error cs i); reflexivity.
  - destruct t as [v|cs]; [reflexivity|].
    destruct (nth_error cs j); [apply IH | reflexivity].
Qed.

Lemma node_at_child document i parent :
  node_at document (i :: parent) = nth_error (childNodes_at document parent) i.
Proof.
  unfold childNodes_at, node_at. simpl rev. rewrite subtree_app.
  destruct (subtree document (rev parent)) as [[v|cs]|]; try reflexivity;
    destruct i; reflexivity.
Qed.

Lemma childNodes_at_other document node children :
  node_at document node = Some (OtherNode children) ->
  childNodes_at document node = children.
Proof. unfold childNodes_at. intros ->. reflexivity. Qed.

Lemma childNodes_at_text document node nodeValue :
  node_at document node = Some (TextNode nodeValue) ->
  childNodes_at document node = [].
Proof. unfold childNodes_at. intros ->. reflexivity. Qed.

Lemma node_at_parent document i parent t :
  node_at document (i :: parent) = Some t ->
  (i < length (childNodes_at document parent))%nat /\
  node_at document parent = Some (OtherNode (childNodes_at document parent)).
Proof.
  rewrite node_at_child. intros Hchild. split.
  - apply List.nth_error_Some. congruence.
  - unfold childNodes_at in *.
    destruct (node_at document parent) as [[v|cs]|]; try reflexivity;
      destruct i; discriminate.
Qed.

Lemma tree_size_pos t : (1 <= tree_size t)%nat.
Proof. destruct t; simpl; lia. Qed.

Lemma tree_size_child children : forall i child,
  nth_error children i = Some child ->
  (tree_size child <= list_sum (map tree_size children))%nat.
Proof.
  induction children as [|c rest IH]; intros [|i] child Hchild; try discriminate; simpl in *.
  - injection Hchild as ->. lia.
  - specialize (IH i child Hchild). lia.
Qed.

Lemma subtree_size down : forall t t',
  subtree t down = Some t' -> (length down + tree_size t' <= tree_size t)%nat.
Proof.
  induction down as [|i down IH]; intros t t' Hsub; simpl in Hsub.
  - injection Hsub as ->. simpl. lia.
  - destruct t as [v|cs]; [discriminate|].
    destruct (nth_error cs i) as [child|] eqn:Hchild; [|discriminate].
    specialize (IH child t' Hsub). pose proof (tree_size_child cs i child Hchild).
    simpl. lia.
Qed.

Lemma node_at_size document node t :
  node_at document node = Some t ->
  (length node + tree_size t <= tree_size document)%nat.
Proof.
  intros Hnode. apply subtree_size in Hnode. rewrite length_rev in Hnode. exact Hnode.
Qed.

(** *** Lists whose elements a step links *)

Lemma linked_app {A : Type} (step : A -> option A) l1 l2 after :
  linked step l1 (first_or l2 after) -> linked step l2 after ->
  linked step (l1 ++ l2) after.
Proof.
  induction l1 as [|a l1 IH]; simpl; [tauto|]. intros [Ha Hl1] Hl2. split; [|auto].
  rewrite Ha. destruct l1; reflexivity.
Qed.

Lemma linked_suffix {A : Type} (step : A -> option A) before l after :
  linked step (before ++ l) after -> linked step l after.
Proof. induction before as [|a before IH]; simpl; [tauto|]. intros [_ Hl]. auto. Qed.

Lemma linked_rev {A : Type} (next previous : A -> option A) l d :
  linked next l d ->
  (forall a b, In a l -> next a = Some b -> previous b = Some a) ->
  forall after, match l with [] => True | a :: _ => previous a = after end ->
  linked previous (rev l) after.
Proof.
  induction l as [|a rest IH]; intros Hl Hback after Hfirst; [exact I|].
  destruct Hl as [Ha Hrest]. simpl rev. apply linked_app.
  - apply IH; [exact Hrest | intros x y Hx; apply Hback; right; exact Hx |].
    destruct rest as [|b rest']; [exact I|]. simpl. apply (Hback a b); [left; reflexivity|].
    exact Ha.
  - simpl. split; [exact Hfirst | exact I].
Qed.

Lemma first_or_rev {A : Type} (l : list A) : first_or (rev l) None = last l.
Proof.
  induction l as [|x l _] using rev_ind; [reflexivity|].
  rewrite rev_app_distr, last_snoc. reflexivity.
Qed.

(** *** The document order *)

Lemma orders_below_length place children : forall i,
  Forall (fun t => forall p, length (document_order t p) = tree_size t) children ->
  length (orders_below document_order place children i) = list_sum (map tree_size children).
Proof.
  induction children as [|child rest IH]; intros i Hall; [reflexivity|].
  inversion Hall as [|? ? Hchild Hrest]; subst. simpl.
  rewrite length_app, Hchild, IH by assumption. reflexivity.
Qed.

Lemma document_order_length t : forall place,
  length (document_order t place) = tree_size t.
Proof.
  induction t as [v|children IH] using DomTree_children_ind; intros place; [reflexivity|].
  simpl. rewrite orders_below_length by assumption. reflexivity.
Qed.

Lemma orders_below_node_at document place children : forall i,
  Forall (fun t => forall p, node_at document p = Some t ->
            Forall (fun node => is_Some (node_at document node)) (document_order t p))
         children ->
  (forall j child, nth_error children j = Some child ->
     node_at document ((i + j)%nat :: place) = Some child) ->
  Forall (fun node => is_Some (node_at document node))
         (orders_below document_order place children i).
Proof.
  induction children as [|child rest IH]; intros i Hall Hat; [constructor|].
  inversion Hall as [|? ? Hchild Hrest]; subst. simpl. apply Forall_app. split.
  - apply Hchild. rewrite <- (Nat.add_0_r i) at 1. apply Hat. reflexivity.
  - apply IH; [assumption|]. intros j c Hj.
    replace (S i + j)%nat with (i + S j)%nat by lia. apply Hat. exact Hj.
Qed.

Lemma document_order_node_at document t : forall place,
  node_at document place = Some t ->
  Forall (fun node => is_Some (node_at document node)) (document_order t place).
Proof.
  induction t as [v|children IH] using DomTree_children_ind; intros place Hplace.
  - simpl. constructor; [eauto | constructor].
  - simpl. constructor; [eauto|]. apply orders_below_node_at; [assumption|].
    intros j child Hj. rewrite node_at_child, (childNodes_at_other _ _ _ Hplace). exact Hj.
Qed.

(** *** [nextNode] *)

Lemma orders_below_linked document place children : forall i,
  Forall (fun t => forall p, node_at document p = Some t ->
            linked (nextNode document) (document_order t p) (next_above document p))
         children ->
  (forall j child, nth_error children j = Some child ->
     node_at document ((i + j)%nat :: place) = Some child) ->
  length (childNodes_at document place) = (i + length children)%nat ->
  linked (nextNode document) (orders_below document_order place children i)
         (next_above document place).
Proof.
  induction children as [|child rest IH]; intros i Hall Hat Hlen; [exact I|].
  inversion Hall as [|? ? Hchild Hrest]; subst. simpl. apply linked_app.
  - replace (first_or (orders_below document_order place rest (S i))
               (next_above document place))
      with (next_above document (i :: place)).
    + apply Hchild. rewrite <- (Nat.add_0_r i) at 1. apply Hat. reflexivity.
    + cbn [next_above nextSibling]. rewrite Hlen. destruct rest as [|child' rest'].
      * simpl. replace (S i <? i + 1)%nat with false; [reflexivity|].
        symmetry. apply Nat.ltb_ge. lia.
      * simpl. replace (S i <? i + S (S (length rest')))%nat with true.
        -- destruct child'; reflexivity.
        -- symmetry. apply Nat.ltb_lt. lia.
  - apply IH; [assumption | | simpl in Hlen; lia]. intros j c Hj.
    replace (S i + j)%nat with (i + S j)%nat by lia. apply Hat. exact Hj.
Qed.

Lemma document_order_linked document t : forall place,
  node_at document place = Some t ->
  linked (nextNode document) (document_order t place) (next_above document place).
Proof.
  induction t as [v|children IH] using DomTree_children_ind; intros place Hplace.
  - simpl. split; [|exact I]. unfold nextNode, firstChild.
    rewrite (childNodes_at_text _ _ _ Hplace). reflexivity.
  - simpl. split.
    + unfold nextNode, firstChild. rewrite (childNodes_at_other _ _ _ Hplace).
      destruct children as [|child rest]; [reflexivity|]. simpl.
      destruct child; reflexivity.
    + apply orders_below_linked; [assumption | |].
      * intros j child Hj. rewrite node_at_child, (childNodes_at_other _ _ _ Hplace).
        exact Hj.
      * rewrite (childNodes_at_other _ _ _ Hplace). reflexivity.
Qed.

(** [nextNode] goes through the document in document order: it
    takes every node of the document to the node that comes next in that
    order, and the last node to [null]. *)
Theorem nextNode_follows_document_order document before node after :
  document_order document [] = (before ++ node :: after)%list ->
  nextNode document node = head after.
Proof.
  intros Hsplit.
  pose proof (document_order_linked document document [] eq_refl) as Hlinked.
  rewrite Hsplit in Hlinked. apply linked_suffix in Hlinked. destruct Hlinked as [Hnext _].
  rewrite Hnext. destruct after; reflexivity.
Qed.

Lemma nextNode_follows_document_order_witness :
  document_order example_document [] = ([[]; [0]; [0; 0]; [1; 0]] ++ [0; 1; 0] :: [[2; 0]; [1]])%list%nat
  /\ nextNode example_document [0; 1; 0]%nat = Some [2; 0]%nat.
Proof.
  split; [reflexivity|].
  apply (nextNode_follows_document_order example_document
           [[]; [0]; [0; 0]; [1; 0]]%nat [0; 1; 0]%nat [[2; 0]; [1]]%nat).
  reflexivity.
Defined.

(** *** [previousNode] *)

Lemma to_last_descendant_ends document : forall turns node t,
  node_at document node = Some t -> (tree_size t <= turns)%nat ->
  lastChild document (to_last_descendant document turns node) = None.
Proof.
  induction turns as [|turns IH]; intros node t Hnode Hturns.
  - pose proof (tree_size_pos t). lia.
  - simpl. destruct (lastChild document node) as [child|] eqn:Hlast; [|exact Hlast].
    unfold lastChild in Hlast.
    destruct (length (childNodes_at document node)) as [|last] eqn:Hlen; [discriminate|].
    injection Hlast as <-.
    destruct (nth_error (childNodes_at document node) last) as [child|] eqn:Hchild.
    + apply (IH _ child); [rewrite node_at_child; exact Hchild|].
      unfold childNodes_at in Hchild. rewrite Hnode in Hchild.
      destruct t as [v|children]; [destruct last; discriminate|].
      pose proof (tree_size_child children last child Hchild). simpl in Hturns. lia.
    + apply List.nth_error_None in Hchild. lia.
Qed.

Lemma next_above_last_descendant document leaf : forall node k next,
  (forall turns, (k <= turns)%nat -> to_last_descendant document turns node = leaf) ->
  is_Some (node_at document node) ->
  next_above document node = Some next ->
  exists sibling k',
    previousSibling next = Some sibling /\
    (k' + length sibling = k + length node)%nat /\
    forall turns, (k' <= turns)%nat -> to_last_descendant document turns sibling = leaf.
Proof.
  induction node as [|i parent IH]; intros k next Hleaf [t Hnode] Hnext; [discriminate|].
  apply node_at_parent in Hnode as [Hi Hparent].
  cbn [next_above nextSibling] in Hnext.
  destruct (S i <? length (childNodes_at document parent))%nat eqn:Hsibling.
  - injection Hnext as <-. exists (i :: parent), k. repeat split; [exact Hleaf].
  - apply Nat.ltb_ge in Hsibling.
    destruct (IH (S k) next) as (sibling & k' & Hprevious & Hlength & Hturns);
      [ | eauto | exact Hnext | ].
    + intros [|turns] Hk; [lia|]. simpl. unfold lastChild.
      replace (length (childNodes_at document parent)) with (S i) by lia.
      apply Hleaf. lia.
    + exists sibling, k'. repeat split; [exact Hprevious | simpl; lia | exact Hturns].
Qed.

Lemma nextNode_previousNode document node next :
  is_Some (node_at document node) ->
  nextNode document node = Some next ->
  previousNode document next = Some node.
Proof.
  intros Hnode. unfold nextNode, firstChild.
  destruct (childNodes_at document node) as [|child rest] eqn:Hchildren.
  - intros Hnext.
    destruct (next_above_last_descendant document node node 0%nat next)
      as (sibling & k' & Hprevious & Hlength & Hturns); [ | exact Hnode | exact Hnext | ].
    + intros [|turns] _; [reflexivity|]. simpl. unfold lastChild. rewrite Hchildren.
      reflexivity.
    + unfold previousNode. rewrite Hprevious. f_equal. apply Hturns.
      destruct Hnode as [t Hnode]. pose proof (node_at_size _ _ _ Hnode). lia.
  - intros [= <-]. reflexivity.
Qed.

Lemma document_order_linked_back document :
  linked (previousNode document) (rev (document_order document [])) None.
Proof.
  apply (linked_rev (nextNode document) _ _ None).
  - exact (document_order_linked document document [] eq_refl).
  - intros a b Ha. apply nextNode_previousNode.
    pose proof (document_order_node_at document document [] eq_refl) as Hall.
    rewrite List.Forall_forall in Hall. apply Hall. exact Ha.
  - destruct document; reflexivity.
Qed.

(** [previousNode] goes through the document against the document
    order: it takes every node of the document to the node that comes just
    before it in that order, and the root to [null].  Its inner loop ends:
    the node it returns is the one the unbounded loop reaches. *)
Theorem previousNode_follows_document_order document before node after :
  document_order document [] = (before ++ node :: after)%list ->
  previousNode document node = last before.
Proof.
  intros Hsplit. pose proof (document_order_linked_back document) as Hlinked.
  rewrite Hsplit, rev_app_distr in Hlinked. simpl rev in Hlinked.
  rewrite <- app_assoc in Hlinked. apply linked_suffix in Hlinked.
  destruct Hlinked as [Hprevious _]. rewrite Hprevious. apply first_or_rev.
Qed.

Lemma previousNode_follows_document_order_witness :
  document_order example_document [] = ([[]; [0]; [0; 0]; [1; 0]; [0; 1; 0]] ++ [2; 0] :: [[1]])%list%nat
  /\ previousNode example_document [2; 0]%nat = Some [0; 1; 0]%nat.
Proof.
  split; [reflexivity|].
  apply (previousNode_follows_document_order example_document
           [[]; [0]; [0; 0]; [1; 0]; [0; 1; 0]]%nat [2; 0]%nat [[1]]%nat).
  reflexivity.
Defined.

(** *** [findNearestTextNodeWithMinLength] *)

Lemma search_ends document step minLength : forall l node turns,
  linked step (node :: l) None -> (length l < turns)%nat ->
  search document step minLength turns node =
  Some (find (isValidTextNode document minLength) (node :: l)).
Proof.
  induction l as [|next l IH]; intros node [|turns] [Hstep Hl] Hturns;
    try (simpl in Hturns; lia); simpl.
  - destruct (isValidTextNode document minLength node); [reflexivity|].
    rewrite Hstep. reflexivity.
  - destruct (isValidTextNode document minLength node); [reflexivity|].
    rewrite Hstep. cbn [first_or]. rewrite (IH next turns Hl) by (simpl in Hturns; lia).
    reflexivity.
Qed.

(** [findNearestTextNodeWithMinLength] returns, for a start node of
    the document, the first long-enough text node at or after the start
    node in document order; when there is none, the last one before the
    start node; and [null] when the document has none.  Both loops end.
    Long enough: the trimmed value has more than [minLength] code units
    (100 when the argument is left out). *)
Theorem findNearestTextNodeWithMinLength_result document before startNode after minLength :
  document_order document [] = (before ++ startNode :: after)%list ->
  findNearestTextNodeWithMinLength document startNode minLength =
  Some match find (isValidTextNode document (default 100 minLength)) (startNode :: after) with
       | Some found => Some found
       | None => find (isValidTextNode document (default 100 minLength)) (rev before)
       end.
Proof.
  intros Hsplit. unfold findNearestTextNodeWithMinLength.
  pose proof (document_order_length document []) as Hlength.
  rewrite Hsplit, length_app in Hlength. simpl in Hlength.
  pose proof (document_order_linked document document [] eq_refl) as Hforward.
  rewrite Hsplit in Hforward. apply linked_suffix in Hforward.
  change (next_above document []) with (@None (list nat)) in Hforward.
  rewrite (search_ends _ _ _ after) by (assumption || lia).
  destruct (find _ (startNode :: after)) as [found|] eqn:Hfound; [reflexivity|].
  pose proof (document_order_linked_back document) as Hbackward.
  rewrite Hsplit, rev_app_distr in Hbackward. simpl rev in Hbackward.
  rewrite <- app_assoc in Hbackward. apply linked_suffix in Hbackward.
  rewrite (search_ends _ _ _ (rev before)) by (assumption || (rewrite length_rev; lia)).
  f_equal. simpl in Hfound |- *.
  destruct (isValidTextNode document (default 100 minLength) startNode);
    [discriminate | reflexivity].
Qed.

Lemma findNearestTextNodeWithMinLength_result_witness :
  document_order example_document [] = ([[]; [0]; [0; 0]; [1; 0]; [0; 1; 0]; [2; 0]] ++ [1] :: [])%list%nat
  /\ findNearestTextNodeWithMinLength example_document [1]%nat (Some 20) = Some (Some [2; 0]%nat).
Proof.
  split; [reflexivity|].
  apply (findNearestTextNodeWithMinLength_result example_document
           [[]; [0]; [0; 0]; [1; 0]; [0; 1; 0]; [2; 0]]%nat [1]%nat []%nat (Some 20)).
  reflexivity.
Defined.
